(** * Word/code alignment of [convert_speaker_pt_to_json.py]

    A shallow embedding of the apportionment engine [_distribute_codes], of
    the segment builder [_build_words_from_codes], of the tokeniser, of the
    serialiser and of the checkpoint loader, followed by the properties the
    specification states about them and by further properties of the code.

    Python integers are [Z].  Python floats are IEEE 754 binary64 values,
    taken from the Standard Library's executable specification [SpecFloat]
    (rounding to nearest, ties to even).  Exceptions are an explicit outcome
    of every fallible operation. *)

From Stdlib Require Import ZArith Lia Bool String.
From Stdlib Require Import SpecFloat.
From stdpp Require Import base list sorting.

Local Open Scope Z_scope.

(** ** Outcomes of Python code *)

Inductive PyError : Type :=
  | ValueError (msg : string)
  | OverflowError (msg : string)
  | ZeroDivisionError
  | IndexError
  | RuntimeError (msg : string)
  | TypeError (msg : string)
  | KeyError (key : string).

(** [Returns v] is a normal return, [Raises e] an exception.  [OutOfFuel] is
    the report of a loop whose iteration budget ran out; [_distribute_codes]
    is shown below never to produce it. *)
Inductive outcome (A : Type) : Type :=
  | Returns (v : A)
  | Raises (e : PyError)
  | OutOfFuel.

Arguments Returns {A} v.
Arguments Raises {A} e.
Arguments OutOfFuel {A}.

#[global] Instance outcome_ret : MRet outcome := fun A v => Returns v.

(** Sequencing: an exception (or an exhausted budget) skips what follows.
    stdpp's [x ← c; k] is this bind. *)
#[global] Instance outcome_bind : MBind outcome := fun A B k c =>
  match c with
  | Returns v => k v
  | Raises e => Raises e
  | OutOfFuel => OutOfFuel
  end.

(** [[f(x) for x in xs]] with a fallible [f]: the first exception aborts. *)
Fixpoint map_outcome {A B : Type} (f : A -> outcome B) (xs : list A)
  : outcome (list B) :=
  match xs with
  | [] => Returns []
  | x :: xs' => y ← f x; ys ← map_outcome f xs'; Returns (y :: ys)
  end.

(** ** Python floats *)

Module PyFloat.

Definition prec : Z := 53.
Definition emax : Z := 1024.

Definition float : Type := spec_float.

(** A correctly rounded quotient of two positive integers, signed [neg]. *)
Definition round_quotient (neg : bool) (a b : positive) : float :=
  let '(q, e, l) := SFdiv_core_binary prec emax (Zpos a) 0 (Zpos b) 0 in
  binary_round_aux prec emax neg q e l.

(** [a / b] on two [int]s (CPython [long_true_divide]): the exact quotient,
    rounded once. *)
Definition int_truediv (a b : Z) : outcome float :=
  match b with
  | Z0 => Raises ZeroDivisionError
  | _ =>
    match a with
    | Z0 => Returns (S754_zero (b <? 0))
    | _ =>
      match round_quotient (xorb (a <? 0) (b <? 0))
              (Z.to_pos (Z.abs a)) (Z.to_pos (Z.abs b)) with
      | S754_infinity _ =>
        Raises (OverflowError "integer division result too large for a float")
      | f => Returns f
      end
    end
  end.

(** [float(n)] (CPython [PyLong_AsDouble]). *)
Definition of_int (n : Z) : outcome float :=
  match binary_normalize prec emax n 0 false with
  | S754_infinity _ => Raises (OverflowError "int too large to convert to float")
  | f => Returns f
  end.

(** [math.floor(x)], an [int]. *)
Definition floor (x : float) : outcome Z :=
  match x with
  | S754_zero _ => Returns 0
  | S754_finite s m e => Returns (Z.shiftl (cond_Zopp s (Zpos m)) e)
  | S754_infinity _ =>
    Raises (OverflowError "cannot convert float infinity to integer")
  | S754_nan => Raises (ValueError "cannot convert float NaN to integer")
  end.

Definition sub (x y : float) : float := SFsub prec emax x y.

(** [x / y] on two floats. *)
Definition truediv (x y : float) : outcome float :=
  match y with
  | S754_zero _ => Raises ZeroDivisionError
  | _ => Returns (SFdiv prec emax x y)
  end.

Definition ltb (x y : float) : bool := SFltb x y.
Definition leb (x y : float) : bool := SFleb x y.
Definition eqb (x y : float) : bool := SFeqb x y.

Definition zero : float := S754_zero false.

(** The integer nearest to [num / den], ties to the even one. *)
Definition round_half_even (num den : Z) : Z :=
  let q := num / den in
  let r := num mod den in
  match 2 * r ?= den with
  | Lt => q
  | Gt => q + 1
  | Eq => if Z.even q then q else q + 1
  end.

(** [round(x, ndigits)] for [0 <= ndigits] (CPython [double_round]): the
    exact value of [x] is rounded to [ndigits] decimals, ties to even, and
    that decimal is converted back to the nearest float. *)
Definition round (x : float) (ndigits : N) : outcome float :=
  match x with
  | S754_finite s m e =>
    if (323 <? ndigits)%N then Returns x
    else
      let scale := 10 ^ Z.of_N ndigits in
      let k :=
        if 0 <=? e then Zpos m * 2 ^ e * scale
        else round_half_even (Zpos m * scale) (2 ^ (- e)) in
      match k with
      | Zpos k' =>
        match round_quotient s k' (Z.to_pos scale) with
        | S754_infinity _ =>
          Raises (OverflowError "rounded value too large to represent")
        | f => Returns f
        end
      | _ => Returns (S754_zero s)
      end
  | _ => Returns x
  end.

End PyFloat.

(** ** Python lists *)

Definition sum (l : list Z) : Z := foldr Z.add 0 l.

(** [l[-1] += d] on a list; an empty list has no last element. *)
Fixpoint add_to_last (d : Z) (l : list Z) : outcome (list Z) :=
  match l with
  | [] => Raises IndexError
  | [x] => Returns [x + d]
  | x :: l' => l'' ← add_to_last d l'; Returns (x :: l'')
  end.

(** [enumerate(l)], as a list. *)
Definition enumerate {A : Type} (l : list A) : list (nat * A) :=
  imap (fun i x => (i, x)) l.

(** One insertion of a stable sort: [x] goes in front of the first element
    that is not smaller than it. *)
Fixpoint insert_sorted {A : Type} (lt : A -> A -> bool) (x : A) (l : list A)
  : list A :=
  match l with
  | [] => [x]
  | y :: l' => if lt y x then y :: insert_sorted lt x l' else x :: y :: l'
  end.

Definition stable_sort {A : Type} (lt : A -> A -> bool) (l : list A) : list A :=
  foldr (insert_sorted lt) [] l.

(** [sorted(l, key=key, reverse=reverse)].  Python compares keys with [<]
    only and sorts stably; a reversed sort reverses the list, sorts it
    ascending and reverses the result. *)
Definition sorted {A K : Type} (ltb : K -> K -> bool) (key : A -> K)
    (reverse : bool) (l : list A) : list A :=
  let lt := fun a b => ltb (key a) (key b) in
  if reverse then list.reverse (stable_sort lt (list.reverse l))
  else stable_sort lt l.

(** [l[i:j]] for integers [i] and [j], negative ones counting from the end. *)
Definition slice_bound (len i : Z) : Z :=
  if i <? 0 then Z.max 0 (i + len) else Z.min i len.

Definition slice {A : Type} (l : list A) (i j : Z) : list A :=
  let len := Z.of_nat (length l) in
  let lo := slice_bound len i in
  let hi := slice_bound len j in
  take (Z.to_nat (hi - lo)) (drop (Z.to_nat lo) l).

(** ** The apportionment engine: [_distribute_codes] *)

(** [share = weight * total_codes / total_weight]: an exact integer product,
    then one true division. *)
Definition share_of (total_codes total_weight weight : Z) : outcome PyFloat.float :=
  PyFloat.int_truediv (weight * total_codes) total_weight.

(** [max(1, int(math.floor(share)))] *)
Definition initial_count (share : PyFloat.float) : outcome Z :=
  n ← PyFloat.floor share; Returns (Z.max 1 n).

(** [share - math.floor(share)]: the [int] is converted to a float first. *)
Definition fractional_of (share : PyFloat.float) : outcome PyFloat.float :=
  n ← PyFloat.floor share;
  f ← PyFloat.of_int n;
  Returns (PyFloat.sub share f).

(** [idx_list]: the indices of
    [sorted(enumerate(fractional), key=lambda item: item[1], reverse=...)]. *)
Definition ranking (fractional : list PyFloat.float) (reverse : bool) : list nat :=
  (sorted PyFloat.ltb snd reverse (enumerate fractional)).*1.

(** The variables the [while] loop reads and writes. *)
Record LoopState : Type := {
  counts : list Z;
  idx_list : list nat;
  remaining : Z;
  pointer : nat
}.

(** [remaining > 0 and idx_list] *)
Definition loop_cond (st : LoopState) : bool :=
  (0 <? remaining st) && negb (bool_decide (idx_list st = [])).

(** One iteration of the loop body. *)
Definition loop_body (step : Z) (st : LoopState) : outcome LoopState :=
  let pos := Nat.modulo (pointer st) (length (idx_list st)) in
  match idx_list st !! pos with
  | None => Raises IndexError
  | Some idx =>
    match counts st !! idx with
    | None => Raises IndexError
    | Some c =>
      let proposed := c + step in
      if proposed <=? 0 then
        Returns {| counts := counts st;
                   idx_list := delete pos (idx_list st);
                   remaining := remaining st;
                   pointer := pointer st |}
      else
        Returns {| counts := <[idx := proposed]> (counts st);
                   idx_list := idx_list st;
                   remaining := remaining st - 1;
                   pointer := S (pointer st) |}
    end
  end.

(** The [while] loop, given a budget of iterations. *)
Fixpoint while_loop (fuel : nat) (step : Z) (st : LoopState) : outcome LoopState :=
  if loop_cond st then
    match fuel with
    | O => OutOfFuel
    | S fuel' => st' ← loop_body step st; while_loop fuel' step st'
    end
  else Returns st.

(** The number of iterations the loop can need from [st]: every iteration
    lowers [remaining] or shortens [idx_list]. *)
Definition loop_budget (st : LoopState) : nat :=
  (Z.to_nat (remaining st) + length (idx_list st))%nat.

(** The body of [if delta != 0:]. *)
Definition redistribute (shares : list PyFloat.float) (counts0 : list Z)
    (delta : Z) : outcome (list Z) :=
  fractional ← map_outcome fractional_of shares;
  let st := {| counts := counts0;
               idx_list := ranking fractional (0 <? delta);
               remaining := Z.abs delta;
               pointer := 0 |} in
  st' ← while_loop (loop_budget st) (if 0 <? delta then 1 else -1) st;
  Returns (counts st').

(** Lines 127-154: shares, initial counts and the cyclic redistribution. *)
Definition rebalance (total_codes : Z) (weights : list Z) : outcome (list Z) :=
  let total_weight := sum weights in
  shares ← map_outcome (share_of total_codes total_weight) weights;
  counts0 ← map_outcome initial_count shares;
  let delta := total_codes - sum counts0 in
  if delta =? 0 then Returns counts0 else redistribute shares counts0 delta.

(** Lines 156-166: the residue goes to the last word, then both invariants
    are checked again. *)
Definition finalise (total_codes : Z) (counts1 : list Z) : outcome (list Z) :=
  let adjustment := total_codes - sum counts1 in
  counts2 ← (if adjustment =? 0 then Returns counts1
             else add_to_last adjustment counts1);
  if existsb (fun count => count <=? 0) counts2 then
    Raises (ValueError "Code distribution resulted in non-positive segment length.")
  else if negb (sum counts2 =? total_codes) then
    Raises (ValueError "Failed to distribute codes across transcript tokens.")
  else Returns counts2.

Definition _distribute_codes (total_codes : Z) (weights : list Z)
  : outcome (list Z) :=
  if total_codes <=? 0 then
    Raises (ValueError "Speaker checkpoint did not contain any codes.")
  else if bool_decide (weights = []) then
    Raises (ValueError "Transcript token list is empty.")
  else if sum weights <=? 0 then
    Raises (ValueError "Transcript token weights are invalid.")
  else
    counts1 ← rebalance total_codes weights;
    finalise total_codes counts1.

(** ** The segment builder: [_build_words_from_codes] *)

(** [FRAME_RATE_HZ = 50.0] and the literal [1.0], as binary64 values. *)
Definition FRAME_RATE_HZ : PyFloat.float := S754_finite false 7036874417766400 (-47).
Definition one_point_zero : PyFloat.float := S754_finite false 4503599627370496 (-52).

(** One entry of the [words] list: the dict with keys [word], [duration]
    and [codes]. *)
Record WordRecord : Type := {
  rec_word : string;
  rec_duration : PyFloat.float;
  rec_codes : list Z
}.

(** [round(count / FRAME_RATE_HZ, 2)]: the [int] is converted to a float
    before the division. *)
Definition computed_duration (count : Z) : outcome PyFloat.float :=
  c ← PyFloat.of_int count;
  q ← PyFloat.truediv c FRAME_RATE_HZ;
  PyFloat.round q 2.

(** Lines 178-180: the duration of a segment, with its clamp. *)
Definition duration_of (count : Z) : outcome PyFloat.float :=
  duration ← computed_duration count;
  if PyFloat.leb duration PyFloat.zero then
    q ← PyFloat.truediv one_point_zero FRAME_RATE_HZ;
    PyFloat.round q 2
  else Returns duration.

(** The [for token, count in zip(transcript_tokens, counts)] loop, with its
    two accumulators [offset] and [words]. *)
Fixpoint build_loop (codes : list Z) (pairs : list (string * Z)) (offset : Z)
    (words : list WordRecord) : outcome (list WordRecord) :=
  match pairs with
  | [] => Returns words
  | (token, count) :: pairs' =>
    let segment := slice codes offset (offset + count) in
    duration ← duration_of count;
    build_loop codes pairs' (offset + count)
      (words ++ [ {| rec_word := token;
                     rec_duration := duration;
                     rec_codes := segment |} ])
  end.

Definition _build_words_from_codes (codes : list Z) (transcript_tokens : list string)
  : outcome (list WordRecord) :=
  let weights :=
    map (fun token => Z.max 1 (Z.of_nat (String.length token))) transcript_tokens in
  counts0 ← _distribute_codes (Z.of_nat (length codes)) weights;
  build_loop codes (zip transcript_tokens counts0) 0 [].

(** * Vocabulary of the properties *)

(** The list [finalise] inspects: the residue, when there is one, is on the
    last word. *)
Definition absorb_residue (total_codes : Z) (counts1 : list Z) : list Z :=
  if sum counts1 =? total_codes then counts1
  else
    match reverse counts1 with
    | [] => counts1
    | x :: l0 => reverse l0 ++ [x + (total_codes - sum counts1)]
    end.

(** [<] on floats that are not NaN is the lexicographic order of a key:
    the sign class, then the exponent, then the mantissa (both negated for
    negative numbers). *)
Definition order_key (x : PyFloat.float) : Z * (Z * Z) :=
  match x with
  | S754_nan => (0, (0, 0))
  | S754_zero _ => (0, (0, 0))
  | S754_infinity s => (if s then -2 else 2, (0, 0))
  | S754_finite s m e => if s then (-1, (- e, Zneg m)) else (1, (e, Zpos m))
  end.

Definition key_lt (k1 k2 : Z * (Z * Z)) : Prop :=
  k1.1 < k2.1 \/
  (k1.1 = k2.1 /\ (k1.2.1 < k2.2.1 \/ (k1.2.1 = k2.2.1 /\ k1.2.2 < k2.2.2))).

Definition not_nan (x : PyFloat.float) : Prop := x <> S754_nan.

(** [a] is sorted before [b]: it is smaller, or neither is smaller and
    [a] was first ([pos] is the order of the input positions). *)
Definition sorted_before {A : Type} (lt : A -> A -> bool) (pos : relation A)
    (a b : A) : Prop :=
  lt a b = true \/ (lt a b = false /\ lt b a = false /\ pos a b).

(** What it means for index [i] to be ranked before index [j]: its
    remainder is the larger one ([reverse], a descending ranking) or the
    smaller one (an ascending ranking); or the two remainders are equal and
    [i] is the smaller index. *)
Definition ranks_before (fractional : list PyFloat.float) (reverse : bool)
    (i j : nat) : Prop :=
  exists fi fj,
    fractional !! i = Some fi /\ fractional !! j = Some fj /\
    ((if reverse then PyFloat.ltb fj fi else PyFloat.ltb fi fj) = true \/
     (PyFloat.eqb fi fj = true /\ (i < j)%nat)).

(** A loop state for the examples: the one [total=6, weights=[1,1,5,7]]
    starts from. *)
Definition example_state : LoopState :=
  {| counts := [1; 1; 2; 3]; idx_list := [3; 2; 0; 1]%nat; remaining := 1; pointer := 0 |}.

(** The shares and remainders of two small inputs, for the examples below:
    [total=7, weights=[1,1,1,1,1]] and [total=6, weights=[1,1,5,7]]. *)
Definition shares_7_of_5 : list PyFloat.float :=
  replicate 5 (S754_finite false 6305039478318694 (-52)).

Definition shares_6_of_14 : list PyFloat.float :=
  [ S754_finite false 7720456504063707 (-54);
    S754_finite false 7720456504063707 (-54);
    S754_finite false 4825285315039817 (-51);
    S754_finite false 6755399441055744 (-51) ].

Definition fractional_6_of_14 : list PyFloat.float :=
  [ S754_finite false 7720456504063707 (-54);
    S754_finite false 7720456504063707 (-54);
    S754_finite false 5146971002709136 (-55);
    S754_zero false ].

(** ** Vocabulary for the further properties of the engine *)

(** The only exception an outcome may carry is an [OverflowError]. *)
Definition overflow_only {A : Type} (c : outcome A) : Prop :=
  match c with
  | Returns _ => True
  | Raises (OverflowError _) => True
  | _ => False
  end.

(** A float that is a number: a zero or a finite value. *)
Definition is_number (x : PyFloat.float) : Prop :=
  match x with
  | S754_zero _ | S754_finite _ _ _ => True
  | _ => False
  end.

(** What the redistribution loop keeps true, for [step] 1 or -1: the units
    still to hand out account for the gap to [total_codes], no count is
    below 1, [idx_list] holds indices of [counts]; when adding, [idx_list]
    never shrinks; when removing, an index that left [idx_list] has count
    1. *)
Definition loop_invariant (total_codes step : Z) (st : LoopState) : Prop :=
  sum (counts st) + step * remaining st = total_codes /\
  0 <= remaining st /\
  Z.of_nat (length (counts st)) <= total_codes /\
  Forall (fun c => 1 <= c) (counts st) /\
  Forall (fun i => (i < length (counts st))%nat) (idx_list st) /\
  (step = 1 -> idx_list st <> []) /\
  (step = -1 -> forall i c, counts st !! i = Some c -> i ∈ idx_list st \/ c = 1).

(** The number of visits the index at rank [r] has received after [p]
    iterations of a cyclic walk over [n] indices. *)
Definition visits (n p r : Z) : Z :=
  p / n + (if r <? p mod n then 1 else 0).

(** The shares and remainders of [total=100, weights=[1,4,2,7,3]]. *)
Definition shares_100_of_17 : list PyFloat.float :=
  Eval vm_compute in
    match map_outcome (share_of 100 17) [1; 4; 2; 7; 3] with
    | Returns shares => shares
    | _ => []
    end.

Definition fractional_100_of_17 : list PyFloat.float :=
  Eval vm_compute in
    match map_outcome fractional_of shares_100_of_17 with
    | Returns fractional => fractional
    | _ => []
    end.

(** A float that is a zero or a positive value below [2 ** (k + 1)]. *)
Definition nonneg_below (k : Z) (x : PyFloat.float) : Prop :=
  match x with
  | S754_zero _ => True
  | S754_finite s m e => s = false /\ Z.log2 (Zpos m) + e <= k
  | _ => False
  end.

(** What the loop keeps true while no index is dropped from [idx_list]:
    after [pointer] iterations of a walk that started from [counts0] and
    the ranking [ranked], with [D] units to move, the index at rank [r] has
    been visited [visits n pointer r] times. *)
Definition cyclic_walk_state (step D : Z) (counts0 : list Z) (ranked : list nat)
    (st : LoopState) : Prop :=
  idx_list st = ranked /\
  0 <= remaining st /\
  remaining st = D - Z.of_nat (pointer st) /\
  forall r idx c0, ranked !! r = Some idx -> counts0 !! idx = Some c0 ->
    counts st !! idx =
      Some (c0 + step * visits (Z.of_nat (length ranked)) (Z.of_nat (pointer st))
                               (Z.of_nat r)).

(** The shares and remainders of [total=10, weights=[1,1,1,1,1,1,6,9,9]]. *)
Definition shares_10_of_30 : list PyFloat.float :=
  Eval vm_compute in
    match map_outcome (share_of 10 30) [1; 1; 1; 1; 1; 1; 6; 9; 9] with
    | Returns shares => shares
    | _ => []
    end.

Definition fractional_10_of_30 : list PyFloat.float :=
  Eval vm_compute in
    match map_outcome fractional_of shares_10_of_30 with
    | Returns fractional => fractional
    | _ => []
    end.

(** ** Python strings and the tokeniser *)

(** A [str] is its sequence of code points. *)
Abbreviation pystr := (list N).

(** The [str] of an ASCII literal. *)
Definition str_of (s : string) : pystr :=
  Ascii.N_of_ascii <$> list_ascii_of_string s.

(** The two operations of the Unicode database the tokeniser calls, taken
    as given: [unicodedata.normalize("NFKD", s)] and [s.lower()]. *)
Record UnicodeOps : Type := {
  nfkd : pystr -> pystr;
  lower : pystr -> pystr
}.

(** [s.encode("ascii", "ignore").decode("ascii")]: the code points that
    ASCII cannot encode are dropped. *)
Definition encode_ascii_ignore (s : pystr) : pystr :=
  filter (fun c => (c < 128)%N) s.

(** [s.replace(old, new)] for one-character [old] and [new]. *)
Definition replace_char (old new : N) (s : pystr) : pystr :=
  (fun c => if (c =? old)%N then new else c) <$> s.

(** Lines 99-100: the four quote replacements. *)
Definition replace_quotes (ascii_text : pystr) : pystr :=
  replace_char 8221 34 (replace_char 8220 34
    (replace_char 8216 39 (replace_char 8217 39 ascii_text))).

(** The class [[A-Za-z0-9']]. *)
Definition is_word_char (c : N) : bool :=
  ((65 <=? c) && (c <=? 90) || (97 <=? c) && (c <=? 122) ||
   (48 <=? c) && (c <=? 57) || (c =? 39))%N.

Definition starts_with_word_char (text : pystr) : bool :=
  match text with
  | c :: _ => is_word_char c
  | [] => false
  end.

(** [re.findall(r"[A-Za-z0-9']+", text)]: the maximal runs of characters of
    the class, from left to right.  A character of the class either starts
    a run of its own or extends the run that begins right after it. *)
Fixpoint findall_word_runs (text : pystr) : list pystr :=
  match text with
  | [] => []
  | c :: text' =>
    if is_word_char c then
      if starts_with_word_char text' then
        match findall_word_runs text' with
        | run :: runs => (c :: run) :: runs
        | [] => [[c]]
        end
      else [c] :: findall_word_runs text'
    else findall_word_runs text'
  end.

(** [token.replace("'", "").lower()] *)
Definition _normalise_word (U : UnicodeOps) (token : pystr) : pystr :=
  let cleaned := filter (fun c => c <> 39%N) token in
  lower U cleaned.

(** The [for token in tokens] loop: the cleaned tokens that are not empty. *)
Fixpoint cleaned_words (U : UnicodeOps) (tokens : list pystr) : list pystr :=
  match tokens with
  | [] => []
  | token :: tokens' =>
    let cleaned := _normalise_word U token in
    if bool_decide (cleaned = []) then cleaned_words U tokens'
    else cleaned :: cleaned_words U tokens'
  end.

(** The text the regular expression runs on. *)
Definition ascii_text_of (U : UnicodeOps) (transcript : pystr) : pystr :=
  replace_quotes (encode_ascii_ignore (nfkd U transcript)).

Definition _tokenise_transcript (U : UnicodeOps) (transcript : pystr)
  : outcome (list pystr) :=
  let ascii_text := ascii_text_of U transcript in
  let tokens := findall_word_runs ascii_text in
  let words := cleaned_words U tokens in
  if bool_decide (words = []) then
    Raises (ValueError "Transcript does not contain any parsable word tokens.")
  else Returns words.

(** The code points [str.strip()] removes: those [str.isspace()] accepts. *)
Definition is_space (c : N) : bool :=
  ((9 <=? c) && (c <=? 13) || (28 <=? c) && (c <=? 32) || (c =? 133) ||
   (c =? 160) || (c =? 5760) || (8192 <=? c) && (c <=? 8202) ||
   (c =? 8232) || (c =? 8233) || (c =? 8239) || (c =? 8287) || (c =? 12288))%N.

Fixpoint lstrip (s : pystr) : pystr :=
  match s with
  | c :: s' => if is_space c then lstrip s' else s
  | [] => []
  end.

Definition strip (s : pystr) : pystr := reverse (lstrip (reverse (lstrip s))).

(** [_load_transcript], from the text read from the file on. *)
Definition _load_transcript (U : UnicodeOps) (content : pystr)
  : outcome (pystr * list pystr) :=
  let text := strip content in
  words ← _tokenise_transcript U text;
  Returns (text, words).

(** [" ".join(words)] *)
Fixpoint join_spaces (words : list pystr) : pystr :=
  match words with
  | [] => []
  | [w] => w
  | w :: words' => w ++ [32%N] ++ join_spaces words'
  end.

(** ASCII lower-casing of one code point, and the two facts about the
    Unicode operations on ASCII text that the properties assume. *)
Definition ascii_lower (c : N) : N :=
  if ((65 <=? c) && (c <=? 90))%N then (c + 32)%N else c.

Definition is_ascii (s : pystr) : Prop := Forall (fun c => (c < 128)%N) s.

Definition lower_on_ascii (U : UnicodeOps) : Prop :=
  forall s, is_ascii s -> lower U s = ascii_lower <$> s.

Definition nfkd_on_ascii (U : UnicodeOps) : Prop :=
  forall s, is_ascii s -> nfkd U s = s.

(** Unicode operations that do what Python does on ASCII text and leave the
    rest alone, for the examples. *)
Definition ascii_only_ops : UnicodeOps :=
  {| nfkd := fun s => s; lower := fun s => ascii_lower <$> s |}.

(** A lowercase letter or a digit. *)
Definition is_lower_alnum (c : N) : Prop :=
  (97 <= c <= 122)%N \/ (48 <= c <= 57)%N.

(** The letters and digits of a text, lower-cased: what the tokeniser is
    meant to keep. *)
Definition letters_and_digits (text : pystr) : pystr :=
  ascii_lower <$> filter (fun c => c <> 39%N /\ is_word_char c = true) text.

(** ** Python values, tensors and serialisation *)

(** The number held by one element of a tensor, as [item()] and [tolist()]
    hand it to Python: a [bool], an [int], a [float] or a [complex]. *)
Inductive scalar : Type :=
  | SBool (b : bool)
  | SInt (n : Z)
  | SFloat (x : PyFloat.float)
  | SComplex (re im : PyFloat.float).

(** The elements of a tensor: a single one ([ndim == 0]) or a sequence of
    sub-arrays along the first dimension.  Real tensors are rectangular;
    nothing below depends on it. *)
#[warnings="-register-all"] Inductive elements : Type :=
  | TItem (x : scalar)
  | TArray (rows : list elements).

(** A dense [torch.Tensor]: its elements, and whether its sizes and strides
    allow the one-dimensional view [view(-1)].  They do for every contiguous
    tensor; they do not, for instance, for the transpose of a matrix with
    more than one row and more than one column. *)
Record tensor : Type := {
  contents : elements;
  flat_viewable : bool
}.

(** Python values.  A dict is the list of its items in insertion order, with
    keys of any type.  [VOther name held] is an object of any type not
    listed before it (a [set], [bytes], a [complex], ...), with the name of
    its type and the values it holds. *)
#[warnings="-register-all"] Inductive PyValue : Type :=
  | VNone
  | VBool (b : bool)
  | VInt (n : Z)
  | VFloat (x : PyFloat.float)
  | VStr (s : pystr)
  | VList (items : list PyValue)
  | VTuple (items : list PyValue)
  | VDict (entries : list (PyValue * PyValue))
  | VTensor (t : tensor)
  | VOther (name : string) (held : list PyValue).

Definition scalar_value (x : scalar) : PyValue :=
  match x with
  | SBool b => VBool b
  | SInt n => VInt n
  | SFloat f => VFloat f
  | SComplex re im => VOther "complex" [VFloat re; VFloat im]
  end.

Fixpoint nested_list (e : elements) : PyValue :=
  match e with
  | TItem x => scalar_value x
  | TArray rows => VList (nested_list <$> rows)
  end.

(** [t.tolist()] *)
Definition tolist (t : tensor) : PyValue := nested_list (contents t).

(** [math.isnan(x) or math.isinf(x)] *)
Definition isnan_or_isinf (x : PyFloat.float) : bool :=
  match x with
  | S754_nan | S754_infinity _ => true
  | _ => false
  end.

(** [_to_serializable].  The last branch is the final [return value]: it
    hands back every other object as it is; the keys of a dict are kept as
    they are too. *)
Fixpoint _to_serializable (value : PyValue) : PyValue :=
  match value with
  | VTensor t =>
    match contents t with
    | TItem x => scalar_value x
    | TArray _ => tolist t
    end
  | VDict entries => VDict ((fun kv => (kv.1, _to_serializable kv.2)) <$> entries)
  | VList items | VTuple items => VList (_to_serializable <$> items)
  | VFloat x => if isnan_or_isinf x then VFloat PyFloat.zero else value
  | _ => value
  end.

Fixpoint count_elements (e : elements) : nat :=
  match e with
  | TItem _ => 1
  | TArray rows => foldr (fun row n => (count_elements row + n)%nat) 0%nat rows
  end.

(** [t.numel()]: the number of elements. *)
Definition numel (t : tensor) : nat := count_elements (contents t).

Fixpoint row_major (e : elements) : list scalar :=
  match e with
  | TItem x => [x]
  | TArray rows => concat (row_major <$> rows)
  end.

(** The elements in row-major order: what [t.view(-1).tolist()] lists when
    the view exists. *)
Definition flatten (t : tensor) : list scalar := row_major (contents t).

(** [t.view(-1).tolist()]: torch refuses the view when the strides do not
    allow it. *)
Definition view_flat_tolist (t : tensor) : outcome (list scalar) :=
  if flat_viewable t then Returns (flatten t)
  else Raises (RuntimeError
    "view size is not compatible with input tensor's size and stride (at least one dimension spans across two contiguous subspaces). Use .reshape(...) instead.").

(** [int(x)] on a float: truncation toward zero. *)
Definition float_to_int (x : PyFloat.float) : outcome Z :=
  match x with
  | S754_zero _ => Returns 0
  | S754_finite s m e => Returns (cond_Zopp s (Z.shiftl (Zpos m) e))
  | S754_infinity _ =>
    Raises (OverflowError "cannot convert float infinity to integer")
  | S754_nan => Raises (ValueError "cannot convert float NaN to integer")
  end.

(** [int(x)] on an element of a tensor.  The message for a [complex] is the
    one of CPython 3.10 and later. *)
Definition py_int (x : scalar) : outcome Z :=
  match x with
  | SBool b => Returns (if b then 1 else 0)
  | SInt n => Returns n
  | SFloat f => float_to_int f
  | SComplex _ _ =>
    Raises (TypeError
      "int() argument must be a string, a bytes-like object or a real number, not 'complex'")
  end.

(** [_flatten_codes] on a tensor, the only kind of payload [convert] passes
    to it. *)
Definition _flatten_codes (raw_codes : tensor) : outcome (list Z) :=
  xs ← view_flat_tolist raw_codes;
  map_outcome py_int xs.

Record LoadedCheckpoint : Type := {
  kind : string;
  payload : PyValue
}.

(** [type(v).__name__] *)
Definition type_name (v : PyValue) : string :=
  match v with
  | VNone => "NoneType"
  | VBool _ => "bool"
  | VInt _ => "int"
  | VFloat _ => "float"
  | VStr _ => "str"
  | VList _ => "list"
  | VTuple _ => "tuple"
  | VDict _ => "dict"
  | VTensor _ => "Tensor"
  | VOther name _ => name
  end.

(** Whether a key of a dict is the [str] [key]. *)
Definition is_str_key (key : pystr) (k : PyValue) : bool :=
  match k with
  | VStr s => bool_decide (s = key)
  | _ => false
  end.

(** [key in d], for a [str] [key]. *)
Definition dict_has_key (key : pystr) (entries : list (PyValue * PyValue)) : bool :=
  existsb (fun kv => is_str_key key kv.1) entries.

(** [d.get(key)], for a [str] [key]: the value stored under it, if any. *)
Fixpoint dict_get (key : pystr) (entries : list (PyValue * PyValue)) : option PyValue :=
  match entries with
  | [] => None
  | (k, v) :: rest => if is_str_key key k then Some v else dict_get key rest
  end.

(** [d[key]], for a [str] literal [key]. *)
Definition dict_index (key : string) (entries : list (PyValue * PyValue))
  : outcome PyValue :=
  match dict_get (str_of key) entries with
  | Some v => Returns v
  | None => Raises (KeyError key)
  end.

(** [_load_checkpoint], from the object [torch.load] returned on.
    [torch_tensor_int32] stands for [torch.tensor(_, dtype=torch.int32)]. *)
Definition _load_checkpoint (torch_tensor_int32 : PyValue -> outcome tensor)
    (checkpoint : PyValue) : outcome LoadedCheckpoint :=
  match checkpoint with
  | VDict entries =>
    if negb (dict_has_key (str_of "words") entries) then
      Raises (ValueError "Checkpoint does not contain required 'words' payload.")
    else Returns {| kind := "structured"; payload := checkpoint |}
  | VTensor t =>
    if (numel t =? 0)%nat then Raises (ValueError "Speaker checkpoint tensor is empty.")
    else Returns {| kind := "codes"; payload := VTensor t |}
  | VList _ | VTuple _ =>
    t ← torch_tensor_int32 checkpoint;
    if (numel t =? 0)%nat then Raises (ValueError "Speaker checkpoint list is empty.")
    else Returns {| kind := "codes"; payload := VTensor t |}
  | _ =>
    Raises (ValueError ("Unsupported checkpoint payload type '"
                        ++ type_name checkpoint ++ "'."))
  end.

(** The key [key] of a dict literal. *)
Definition str_key (key : string) : PyValue := VStr (str_of key).

(** [_normalise_checkpoint].  [py_str] stands for the builtin [str]; the
    result is the new dict, in insertion order. *)
Definition _normalise_checkpoint (py_str : PyValue -> pystr)
    (checkpoint : list (PyValue * PyValue)) : outcome (list (PyValue * PyValue)) :=
  let version :=
    py_str (default (VStr (str_of "0.2")) (dict_get (str_of "version") checkpoint)) in
  words ← dict_index "words" checkpoint;
  let result := [(str_key "version", VStr version);
                 (str_key "words", _to_serializable words)] in
  result ← (if dict_has_key (str_of "speaker_id") checkpoint then
              v ← dict_index "speaker_id" checkpoint;
              Returns (result ++ [(str_key "speaker_id", _to_serializable v)])
            else Returns result);
  if dict_has_key (str_of "metadata") checkpoint then
    v ← dict_index "metadata" checkpoint;
    Returns (result ++ [(str_key "metadata", _to_serializable v)])
  else Returns result.

(** The token strings handed to the segment builder: the tokeniser's words
    are ASCII, one byte per code point. *)
Definition string_of_pystr (s : pystr) : string :=
  string_of_list_ascii (Ascii.ascii_of_N <$> s).

(** Lines 209-211 of [convert]: the transcript is tokenised, the tensor
    flattened and the codes shared out.  [content] is the text of the
    transcript file. *)
Definition convert_raw_words (U : UnicodeOps) (codes_payload : tensor)
    (content : pystr) : outcome (pystr * list WordRecord) :=
  loaded ← _load_transcript U content;
  codes ← _flatten_codes codes_payload;
  words ← _build_words_from_codes codes (string_of_pystr <$> loaded.2);
  Returns (loaded.1, words).

(** What [convert] reads of a transcript path: [path.name], [path.stem] and
    the text of the file. *)
Record TranscriptFile : Type := {
  file_name : pystr;
  file_stem : pystr;
  file_content : pystr
}.

(** One entry of [words], as the dict that is written out. *)
Definition word_value (w : WordRecord) : PyValue :=
  VDict [(str_key "word", VStr (str_of (rec_word w)));
         (str_key "duration", VFloat (rec_duration w));
         (str_key "codes", VList (VInt <$> rec_codes w))].

(** Lines 204-230 of [convert]: the branch for a checkpoint of raw codes,
    up to the payload that is written out.  [pt_name] is [pt_path.name]. *)
Definition convert_raw (U : UnicodeOps) (codes_payload : tensor) (pt_name : pystr)
    (transcript : option TranscriptFile) (speaker_id : option pystr)
    (version : pystr) : outcome PyValue :=
  match transcript with
  | None =>
    Raises (ValueError
      "Checkpoint contains raw codes. Provide --transcript to map codes to words.")
  | Some file =>
    loaded ← convert_raw_words U codes_payload (file_content file);
    let transcript_raw := loaded.1 in
    let words := loaded.2 in
    let excerpt := replace_char 10 32 (take 256 transcript_raw) in
    Returns (VDict [
      (str_key "version", VStr version);
      (str_key "words", VList (word_value <$> words));
      (str_key "metadata",
       VDict [(str_key "source_pt", VStr pt_name);
              (str_key "transcript", VStr (file_name file));
              (str_key "strategy", VStr (str_of "proportional-length"));
              (str_key "transcript_excerpt", VStr excerpt)]);
      (str_key "speaker_id",
       VStr (match speaker_id with
             | Some id => id
             | None => file_stem file
             end))])
  end.

(** ** Vocabulary of the properties of values *)

(** A key that [json.dumps] accepts: [None], a [bool], a number or a
    [str]. *)
Definition is_json_key (k : PyValue) : bool :=
  match k with
  | VNone | VBool _ | VInt _ | VFloat _ | VStr _ => true
  | _ => false
  end.

(** A value made of [None], booleans, numbers, strings, lists and dicts
    with such keys only: no tensor, no tuple and no object of another type
    anywhere. *)
Fixpoint json_shaped (v : PyValue) : bool :=
  match v with
  | VTensor _ | VTuple _ | VOther _ _ => false
  | VList items => forallb json_shaped items
  | VDict entries => forallb (fun kv => is_json_key kv.1 && json_shaped kv.2) entries
  | _ => true
  end.

Definition real_scalar (x : scalar) : bool :=
  match x with
  | SComplex _ _ => false
  | _ => true
  end.

(** What [_to_serializable] turns into a [json_shaped] value: the objects
    of other types and the dict keys are where it could fail, since it
    returns them as they are. *)
Fixpoint serialisable (v : PyValue) : bool :=
  match v with
  | VOther _ _ => false
  | VList items | VTuple items => forallb serialisable items
  | VDict entries => forallb (fun kv => is_json_key kv.1 && serialisable kv.2) entries
  | VTensor t => forallb real_scalar (flatten t)
  | _ => true
  end.

(** An element of a tensor that holds no NaN and no infinity. *)
Definition scalar_finite (x : scalar) : bool :=
  match x with
  | SFloat f => negb (isnan_or_isinf f)
  | SComplex re im => negb (isnan_or_isinf re) && negb (isnan_or_isinf im)
  | _ => true
  end.

(** Every float in a value is a number: no NaN, no infinity, wherever it
    sits. *)
Fixpoint floats_finite (v : PyValue) : bool :=
  match v with
  | VFloat x => negb (isnan_or_isinf x)
  | VList items | VTuple items | VOther _ items => forallb floats_finite items
  | VDict entries => forallb (fun kv => floats_finite kv.1 && floats_finite kv.2) entries
  | VTensor t => forallb scalar_finite (flatten t)
  | _ => true
  end.

(** The floats [_to_serializable] does not look at are numbers: those held
    by tensors, by dict keys and by objects of other types. *)
Fixpoint unreached_floats_finite (v : PyValue) : bool :=
  match v with
  | VList items | VTuple items => forallb unreached_floats_finite items
  | VDict entries =>
    forallb (fun kv => floats_finite kv.1 && unreached_floats_finite kv.2) entries
  | VTensor t => forallb scalar_finite (flatten t)
  | VOther _ held => forallb floats_finite held
  | _ => true
  end.

(** A value in which [_to_serializable] finds nothing to convert: through
    lists and dict values it meets no tensor, no tuple and no NaN or
    infinite [float]. *)
Fixpoint nothing_to_convert (v : PyValue) : bool :=
  match v with
  | VFloat x => negb (isnan_or_isinf x)
  | VList items => forallb nothing_to_convert items
  | VDict entries => forallb (fun kv => nothing_to_convert kv.2) entries
  | VTuple _ | VTensor _ => false
  | _ => true
  end.

Definition real_finite (x : scalar) : bool :=
  match x with
  | SFloat f => negb (isnan_or_isinf f)
  | _ => true
  end.

(** The tensors [_to_serializable] converts hold no NaN and no infinite
    [float] element. *)
Fixpoint converted_tensors_finite (v : PyValue) : bool :=
  match v with
  | VList items | VTuple items => forallb converted_tensors_finite items
  | VDict entries => forallb (fun kv => converted_tensors_finite kv.2) entries
  | VTensor t => forallb real_finite (flatten t)
  | _ => true
  end.

(** An element [int()] converts. *)
Definition int_convertible (x : scalar) : bool :=
  match x with
  | SFloat f => negb (isnan_or_isinf f)
  | SComplex _ _ => false
  | _ => true
  end.

(** A contiguous one-dimensional tensor of integer codes. *)
Definition codes_tensor (codes : list Z) : tensor :=
  {| contents := TArray (TItem ∘ SInt <$> codes); flat_viewable := true |}.

(** ** Example data *)

(** A stand-in for [torch.tensor(_, dtype=torch.int32)] on flat lists of
    integers. *)
Definition tensor_of_ints (v : PyValue) : outcome tensor :=
  match v with
  | VList items | VTuple items =>
    rows ← map_outcome (fun item => match item with
                                    | VInt n => Returns (TItem (SInt n))
                                    | VBool b => Returns (TItem (SInt (if b then 1 else 0)))
                                    | _ => Raises (ValueError "too many dimensions")
                                    end) items;
    Returns {| contents := TArray rows; flat_viewable := true |}
  | _ => Raises (ValueError "not a sequence")
  end.

(** A stand-in for [str] that is right on strings. *)
Definition str_of_value (v : PyValue) : pystr :=
  match v with
  | VStr s => s
  | _ => str_of "?"
  end.

Definition example_structured_checkpoint : PyValue :=
  VDict [(str_key "words",
          VList [VDict [(str_key "word", VStr (str_of "hi"));
                        (str_key "duration", VFloat S754_nan);
                        (str_key "codes", VTensor (codes_tensor [3; 1; 4]))]]);
         (VInt 7, VOther "set" [VTuple [VInt 1; VInt 2]]);
         (str_key "speaker_id", VStr (str_of "dave"))].


(** The transpose of the matrix [[11, 12], [13, 14]], as [t()] returns it:
    the elements are read column by column, the strides are those of the
    matrix, and no one-dimensional view exists. *)
Definition example_transposed_tensor : tensor :=
  {| contents := TArray [TArray [TItem (SInt 11); TItem (SInt 13)];
                         TArray [TItem (SInt 12); TItem (SInt 14)]];
     flat_viewable := false |}.

Definition example_transcript : TranscriptFile :=
  {| file_name := str_of "dave.txt";
     file_stem := str_of "dave";
     file_content := str_of " Hello, to YOU!  " |}.

Definition example_raw_payload : PyValue :=
  Eval vm_compute in
    match convert_raw ascii_only_ops (codes_tensor [11; 12; 13; 14; 15; 16; 17])
            (str_of "dave.pt") (Some example_transcript) None (str_of "0.2") with
    | Returns p => p
    | _ => VNone
    end.

(** * Properties *)

(** ** The float model on known values

    The values are the ones CPython prints with [float.hex]: [7/5] is
    [0x1.6666666666666p+0], [1/50.0] rounds to [0.02], [2.675] rounds down
    to [2.67] (its binary value is below the tie) and [0.125] to [0.12]
    (a tie, to even). *)

Example frame_rate_is_50 : PyFloat.of_int 50 = Returns FRAME_RATE_HZ.
Proof. vm_compute. reflexivity. Qed.

Example one_point_zero_is_1 : PyFloat.of_int 1 = Returns one_point_zero.
Proof. vm_compute. reflexivity. Qed.

Example seven_fifths :
  PyFloat.int_truediv 7 5 = Returns (S754_finite false 6305039478318694 (-52)).
Proof. vm_compute. reflexivity. Qed.

Example huge_quotient_rounds_once :
  PyFloat.int_truediv (10 ^ 400) (3 * 10 ^ 399) =
    Returns (S754_finite false 7505999378950827 (-51)).
Proof. vm_compute. reflexivity. Qed.

Example quotient_overflow :
  PyFloat.int_truediv (10 ^ 400) 3 =
    Raises (OverflowError "integer division result too large for a float").
Proof. vm_compute. reflexivity. Qed.

Example one_frame : computed_duration 1 = Returns (S754_finite false 5764607523034235 (-58)).
Proof. vm_compute. reflexivity. Qed.

Example round_below_tie :
  (x ← PyFloat.int_truediv 2675 1000; PyFloat.round x 2) =
    Returns (S754_finite false 6012305502539612 (-51)).
Proof. vm_compute. reflexivity. Qed.

Example round_tie_to_even :
  (x ← PyFloat.int_truediv 1 8; PyFloat.round x 2) =
    Returns (S754_finite false 8646911284551352 (-56)).
Proof. vm_compute. reflexivity. Qed.

Example negative_share_remainder :
  (x ← PyFloat.int_truediv (-3) 10; fractional_of x) =
    Returns (S754_finite false 6305039478318694 (-53)).
Proof. vm_compute. reflexivity. Qed.

(** Scenarios A and D of the specification. *)
Example scenario_a : _distribute_codes 10 [1; 1; 1; 1; 1] = Returns [2; 2; 2; 2; 2].
Proof. vm_compute. reflexivity. Qed.

Example scenario_d :
  _build_words_from_codes [0; 1; 2; 3; 4; 5; 6; 7; 8; 9] ["hello"; "world"]%string =
    Returns
      [ {| rec_word := "hello";
           rec_duration := S754_finite false 7205759403792794 (-56);
           rec_codes := [0; 1; 2; 3; 4] |};
        {| rec_word := "world";
           rec_duration := S754_finite false 7205759403792794 (-56);
           rec_codes := [5; 6; 7; 8; 9] |} ].
Proof. vm_compute. reflexivity. Qed.

(** ** Sequencing of outcomes *)

Lemma bind_Returns {A B : Type} (c : outcome A) (k : A -> outcome B) (v : B) :
  (c ≫= k) = Returns v -> exists x, c = Returns x /\ k x = Returns v.
Proof. destruct c as [x| |]; simpl; intros H; try discriminate. eauto. Qed.

Lemma bind_not_OutOfFuel {A B : Type} (c : outcome A) (k : A -> outcome B) :
  c <> OutOfFuel -> (forall x, c = Returns x -> k x <> OutOfFuel) ->
  (c ≫= k) <> OutOfFuel.
Proof. destruct c; simpl; intros Hc Hk; [by apply Hk | done | done]. Qed.

Lemma map_outcome_Forall2 {A B : Type} (f : A -> outcome B) xs ys :
  map_outcome f xs = Returns ys -> Forall2 (fun x y => f x = Returns y) xs ys.
Proof.
  revert ys. induction xs as [|x xs IH]; simpl; intros ys H.
  - injection H as <-. constructor.
  - apply bind_Returns in H as (y & Hy & H).
    apply bind_Returns in H as (ys' & Hys & H).
    injection H as <-. constructor; auto.
Qed.

Lemma map_outcome_length {A B : Type} (f : A -> outcome B) xs ys :
  map_outcome f xs = Returns ys -> length ys = length xs.
Proof. intros H. symmetry. eapply Forall2_length, map_outcome_Forall2, H. Qed.

Lemma map_outcome_not_OutOfFuel {A B : Type} (f : A -> outcome B) xs :
  (forall x, f x <> OutOfFuel) -> map_outcome f xs <> OutOfFuel.
Proof.
  intros Hf. induction xs as [|x xs IH]; simpl; [done|].
  apply bind_not_OutOfFuel; [apply Hf|]. intros y _.
  apply bind_not_OutOfFuel; [apply IH|]. done.
Qed.

(** ** Sums and the residue on the last word *)

Lemma sum_app l1 l2 : sum (l1 ++ l2) = sum l1 + sum l2.
Proof. induction l1 as [|x l1 IH]; simpl; lia. Qed.

Lemma sum_ge_length l :
  Forall (fun c => 1 <= c) l -> Z.of_nat (length l) <= sum l.
Proof. induction 1; simpl in *; lia. Qed.

Lemma add_to_last_snoc d l x : add_to_last d (l ++ [x]) = Returns (l ++ [x + d]).
Proof.
  induction l as [|y l IH]; simpl; [done|].
  rewrite IH. simpl. by destruct l.
Qed.

Lemma nonempty_snoc {A : Type} (l : list A) :
  l <> [] -> exists l0 x, l = l0 ++ [x].
Proof.
  destruct l as [|a l] using rev_ind; [done|]. eauto.
Qed.

Lemma existsb_nonpositive l :
  existsb (fun count => count <=? 0) l = false <-> Forall (fun c => 1 <= c) l.
Proof.
  induction l as [|x l IH]; simpl.
  - split; [constructor | done].
  - rewrite orb_false_iff, IH, Forall_cons, Z.leb_gt. intuition lia.
Qed.

(** ** The final correction and the two checks *)

Lemma absorb_residue_sum total_codes counts1 :
  counts1 <> [] -> sum (absorb_residue total_codes counts1) = total_codes.
Proof.
  intros Hne. unfold absorb_residue.
  destruct (Z.eqb_spec (sum counts1) total_codes) as [|Hs]; [done|].
  destruct (nonempty_snoc _ Hne) as (l0 & x & ->).
  rewrite reverse_snoc, reverse_involutive, !sum_app. simpl. lia.
Qed.

Lemma finalise_absorb total_codes counts1 :
  counts1 <> [] ->
  finalise total_codes counts1 =
    if existsb (fun count => count <=? 0) (absorb_residue total_codes counts1)
    then Raises (ValueError "Code distribution resulted in non-positive segment length.")
    else Returns (absorb_residue total_codes counts1).
Proof.
  intros Hne. pose proof (absorb_residue_sum total_codes _ Hne) as Hsum.
  unfold finalise, absorb_residue in *.
  destruct (Z.eqb_spec (sum counts1) total_codes) as [Hs|Hs].
  - replace (total_codes - sum counts1 =? 0) with true by lia. simpl.
    destruct (existsb _ counts1); [done|].
    by replace (sum counts1 =? total_codes) with true by lia.
  - replace (total_codes - sum counts1 =? 0) with false by lia.
    destruct (nonempty_snoc _ Hne) as (l0 & x & ->).
    rewrite reverse_snoc, reverse_involutive in *.
    rewrite add_to_last_snoc. simpl.
    destruct (existsb _ _); [done|].
    by replace (sum _ =? total_codes) with true by lia.
Qed.

Lemma finalise_Returns total_codes counts1 counts2 :
  finalise total_codes counts1 = Returns counts2 ->
  sum counts2 = total_codes /\ Forall (fun c => 1 <= c) counts2.
Proof.
  unfold finalise. intros H.
  apply bind_Returns in H as (c & _ & H).
  destruct (existsb _ c) eqn:Hpos; [done|].
  destruct (Z.eqb_spec (sum c) total_codes) as [Hs|]; [|done].
  injection H as <-. split; [done|]. by apply existsb_nonpositive.
Qed.

Lemma finalise_not_OutOfFuel total_codes counts1 :
  finalise total_codes counts1 <> OutOfFuel.
Proof.
  destruct counts1 as [|c l].
  - unfold finalise. simpl. by destruct (total_codes - 0 =? 0), total_codes.
  - rewrite finalise_absorb by done. by destruct (existsb _ _).
Qed.

(** ** The redistribution loop *)

Lemma loop_cond_true st :
  loop_cond st = true <-> 0 < remaining st /\ idx_list st <> [].
Proof.
  unfold loop_cond. rewrite andb_true_iff, negb_true_iff, Z.ltb_lt.
  rewrite bool_decide_eq_false. done.
Qed.

(** Every iteration takes one unit off [remaining], or one index off
    [idx_list]. *)
Lemma loop_body_progress step st st' :
  loop_body step st = Returns st' ->
  (remaining st' = remaining st - 1 /\ idx_list st' = idx_list st) \/
  (remaining st' = remaining st /\
   S (length (idx_list st')) = length (idx_list st)).
Proof.
  unfold loop_body.
  destruct (idx_list st !! _) as [idx|] eqn:Hidx; [|done].
  destruct (counts st !! idx) as [c|]; [|done].
  destruct (c + step <=? 0); intros [= <-]; simpl; [right | left; done].
  split; [done|]. apply lookup_lt_Some in Hidx.
  rewrite length_delete by (by apply lookup_lt_is_Some_2). lia.
Qed.

Lemma loop_body_budget step st st' :
  loop_cond st = true -> loop_body step st = Returns st' ->
  (loop_budget st' < loop_budget st)%nat.
Proof.
  intros [Hr _]%loop_cond_true Hb. unfold loop_budget.
  destruct (loop_body_progress _ _ _ Hb) as [[-> ->]|[-> Hl]]; lia.
Qed.

Lemma loop_body_not_OutOfFuel step st : loop_body step st <> OutOfFuel.
Proof.
  unfold loop_body.
  destruct (idx_list st !! _); [|done].
  destruct (counts st !! _) as [c|]; [|done]. by destruct (c + step <=? 0).
Qed.

Lemma while_loop_enough_fuel step fuel st :
  (loop_budget st <= fuel)%nat -> while_loop fuel step st <> OutOfFuel.
Proof.
  revert st. induction fuel as [|fuel IH]; intros st Hfuel; simpl.
  - destruct (loop_cond st) eqn:Hc; [|done].
    apply loop_cond_true in Hc as [Hr _]. unfold loop_budget in Hfuel. lia.
  - destruct (loop_cond st) eqn:Hc; [|done].
    apply bind_not_OutOfFuel; [apply loop_body_not_OutOfFuel|].
    intros st' Hb. apply IH.
    pose proof (loop_body_budget _ _ _ Hc Hb). lia.
Qed.

(** More fuel than the budget changes nothing. *)
Lemma while_loop_fuel_irrelevant step fuel st :
  (loop_budget st <= fuel)%nat ->
  while_loop fuel step st = while_loop (loop_budget st) step st.
Proof.
  remember (loop_budget st) as b eqn:Hb.
  assert (Hle : (loop_budget st <= b)%nat) by lia. clear Hb.
  revert fuel st Hle. induction b as [|b IH]; intros fuel st Hle Hfuel.
  - simpl. destruct fuel as [|fuel]; simpl; [done|].
    destruct (loop_cond st) eqn:Hc; [|done].
    apply loop_cond_true in Hc as [Hr _]. unfold loop_budget in Hle. lia.
  - destruct fuel as [|fuel]; [lia|]. simpl.
    destruct (loop_cond st) eqn:Hc; [|done].
    destruct (loop_body step st) as [st'| |] eqn:Hbody; simpl; try done.
    pose proof (loop_body_budget _ _ _ Hc Hbody).
    apply IH; lia.
Qed.

(** The loop never changes the number of counts, and never writes a count
    below 1: the guard [proposed <= 0] is in front of the only write. *)
Lemma loop_body_counts step st st' :
  loop_body step st = Returns st' ->
  length (counts st') = length (counts st) /\
  (Forall (fun c => 1 <= c) (counts st) -> Forall (fun c => 1 <= c) (counts st')).
Proof.
  unfold loop_body.
  destruct (idx_list st !! _) as [idx|]; [|done].
  destruct (counts st !! idx) as [c|] eqn:Hc; [|done].
  destruct (Z.leb_spec (c + step) 0); intros [= <-]; simpl; [done|].
  split; [apply length_insert|].
  intros Hall. apply Forall_insert; [done | lia].
Qed.

Lemma while_loop_counts step fuel st st' :
  while_loop fuel step st = Returns st' ->
  length (counts st') = length (counts st) /\
  (Forall (fun c => 1 <= c) (counts st) -> Forall (fun c => 1 <= c) (counts st')).
Proof.
  revert st. induction fuel as [|fuel IH]; intros st; simpl.
  - destruct (loop_cond st); [done|]. by intros [= <-].
  - destruct (loop_cond st); [|by intros [= <-]].
    intros (st1 & Hb & Hw)%bind_Returns.
    destruct (loop_body_counts _ _ _ Hb) as [Hl1 Hp1].
    destruct (IH _ Hw) as [Hl2 Hp2]. split; [congruence | auto].
Qed.

Lemma initial_counts_positive shares counts0 :
  map_outcome initial_count shares = Returns counts0 ->
  Forall (fun c => 1 <= c) counts0.
Proof.
  intros H%map_outcome_Forall2. induction H as [|s c ? ? Hc _ IH]; constructor; [|done].
  unfold initial_count in Hc. apply bind_Returns in Hc as (n & _ & [= <-]). lia.
Qed.

(** What [rebalance] hands to the final correction: one count per weight,
    each at least 1. *)
Lemma rebalance_Returns total_codes weights counts1 :
  rebalance total_codes weights = Returns counts1 ->
  length counts1 = length weights /\ Forall (fun c => 1 <= c) counts1.
Proof.
  unfold rebalance. intros (shares & Hsh & H)%bind_Returns.
  apply bind_Returns in H as (counts0 & Hc0 & H).
  pose proof (initial_counts_positive _ _ Hc0) as Hpos.
  assert (Hlen : length counts0 = length weights).
  { rewrite (map_outcome_length _ _ _ Hc0). eapply map_outcome_length, Hsh. }
  destruct (total_codes - sum counts0 =? 0); [by injection H as <-|].
  unfold redistribute in H.
  apply bind_Returns in H as (fractional & _ & H).
  apply bind_Returns in H as (st' & Hw & [= <-]).
  destruct (while_loop_counts _ _ _ _ Hw) as [Hl Hp]. simpl in *.
  split; [congruence | auto].
Qed.

Lemma int_truediv_not_OutOfFuel a b : PyFloat.int_truediv a b <> OutOfFuel.
Proof.
  unfold PyFloat.int_truediv.
  destruct b; [done| |]; (destruct a; [done| |]); by destruct (PyFloat.round_quotient _ _ _).
Qed.

Lemma floor_not_OutOfFuel x : PyFloat.floor x <> OutOfFuel.
Proof. by destruct x. Qed.

Lemma of_int_not_OutOfFuel n : PyFloat.of_int n <> OutOfFuel.
Proof. unfold PyFloat.of_int. by destruct (binary_normalize _ _ _ _ _). Qed.

Lemma rebalance_not_OutOfFuel total_codes weights :
  rebalance total_codes weights <> OutOfFuel.
Proof.
  unfold rebalance.
  apply bind_not_OutOfFuel.
  { apply map_outcome_not_OutOfFuel. intros w. apply int_truediv_not_OutOfFuel. }
  intros shares _. apply bind_not_OutOfFuel.
  { apply map_outcome_not_OutOfFuel. intros s. unfold initial_count.
    apply bind_not_OutOfFuel; [apply floor_not_OutOfFuel | done]. }
  intros counts0 _. destruct (_ =? 0); [done|].
  unfold redistribute. apply bind_not_OutOfFuel.
  { apply map_outcome_not_OutOfFuel. intros s. unfold fractional_of.
    apply bind_not_OutOfFuel; [apply floor_not_OutOfFuel|]. intros n _.
    apply bind_not_OutOfFuel; [apply of_int_not_OutOfFuel | done]. }
  intros fractional _. apply bind_not_OutOfFuel; [|done].
  by apply while_loop_enough_fuel.
Qed.

Lemma distribute_codes_Returns total_codes weights counts2 :
  _distribute_codes total_codes weights = Returns counts2 ->
  exists counts1,
    0 < total_codes /\ weights <> [] /\ 0 < sum weights /\
    rebalance total_codes weights = Returns counts1 /\
    finalise total_codes counts1 = Returns counts2.
Proof.
  unfold _distribute_codes.
  destruct (Z.leb_spec total_codes 0); [done|].
  destruct (bool_decide_reflect (weights = [])); [done|].
  destruct (Z.leb_spec (sum weights) 0); [done|].
  intros (counts1 & Hr & Hf)%bind_Returns. eauto 10.
Qed.

(** The residue step keeps the number of counts. *)
Lemma absorb_residue_length total_codes counts1 :
  length (absorb_residue total_codes counts1) = length counts1.
Proof.
  unfold absorb_residue. destruct (_ =? _); [done|].
  destruct counts1 as [|c l] using rev_ind; [done|].
  by rewrite reverse_snoc, reverse_involutive, !length_app.
Qed.

(** What the callers of [_distribute_codes] rely on. *)
Lemma distribute_codes_counts total_codes weights counts2 :
  _distribute_codes total_codes weights = Returns counts2 ->
  sum counts2 = total_codes /\
  Forall (fun c => 1 <= c) counts2 /\
  length counts2 = length weights.
Proof.
  intros (counts1 & _ & Hne & _ & Hr & Hf)%distribute_codes_Returns.
  destruct (finalise_Returns _ _ _ Hf) as [Hsum Hpos]. split_and!; [done..|].
  apply rebalance_Returns in Hr as [Hlen _].
  rewrite finalise_absorb in Hf by (destruct counts1, weights; done).
  destruct (existsb _ _); [done|]. injection Hf as <-.
  by rewrite absorb_residue_length.
Qed.

(** ** Exactness, positivity, infeasibility, termination *)

(** C1 (exactness).  Whenever [_distribute_codes total_codes weights]
    returns a list, the lengths in it add up to [total_codes] exactly.  This
    holds for every input on which the call returns, so in particular for
    [total_codes >= 1] and non-empty weights that are all at least 1. *)
Theorem distribute_codes_exact (total_codes : Z) (weights counts2 : list Z) :
  _distribute_codes total_codes weights = Returns counts2 ->
  sum counts2 = total_codes.
Proof.
  intros (counts1 & _ & _ & _ & _ & Hf)%distribute_codes_Returns.
  by apply finalise_Returns in Hf as [? _].
Qed.

Lemma distribute_codes_exact_witness :
  _distribute_codes 7 [1; 1; 1; 1; 1] = Returns [2; 2; 1; 1; 1] /\
  sum [2; 2; 1; 1; 1] = 7.
Proof.
  split; [vm_compute; reflexivity|].
  apply (distribute_codes_exact 7 [1; 1; 1; 1; 1]). vm_compute. reflexivity.
Defined.

(** C2 (positivity).  Whenever [_distribute_codes total_codes weights]
    returns a list, every element of it is at least 1, and there is one
    element per weight: no word is given zero codes. *)
Theorem distribute_codes_positive (total_codes : Z) (weights counts2 : list Z) :
  _distribute_codes total_codes weights = Returns counts2 ->
  Forall (fun count => 1 <= count) counts2 /\ length counts2 = length weights.
Proof.
  intros (counts1 & _ & Hne & _ & Hr & Hf)%distribute_codes_Returns.
  split; [by apply finalise_Returns in Hf as [_ ?]|].
  apply rebalance_Returns in Hr as [Hlen _].
  assert (Hne1 : counts1 <> []) by (destruct counts1, weights; done).
  rewrite finalise_absorb in Hf by done.
  destruct (existsb _ _); [done|]. injection Hf as <-.
  by rewrite absorb_residue_length.
Qed.

Lemma distribute_codes_positive_witness :
  Forall (fun count => 1 <= count) [6; 23; 12; 41; 18] /\
  length [6; 23; 12; 41; 18] = length [1; 4; 2; 7; 3].
Proof.
  apply (distribute_codes_positive 100 [1; 4; 2; 7; 3]). vm_compute. reflexivity.
Defined.

(** With more words than codes the final correction cannot succeed: the
    counts handed to it are all at least 1, so the last one, after taking
    the (negative) residue, is at most 0. *)
Lemma finalise_infeasible total_codes counts1 :
  0 <= total_codes ->
  Forall (fun c => 1 <= c) counts1 ->
  total_codes < Z.of_nat (length counts1) ->
  finalise total_codes counts1 =
    Raises (ValueError "Code distribution resulted in non-positive segment length.").
Proof.
  intros Htotal Hpos Hlen.
  assert (Hne : counts1 <> []) by (destruct counts1; simpl in *; [lia | done]).
  rewrite finalise_absorb by done.
  destruct (existsb _ _) eqn:Hex; [done|]. exfalso.
  apply existsb_nonpositive in Hex. revert Hex. unfold absorb_residue.
  pose proof (sum_ge_length _ Hpos) as Hsum.
  destruct (Z.eqb_spec (sum counts1) total_codes); [lia|].
  destruct (nonempty_snoc _ Hne) as (l0 & x & ->).
  rewrite reverse_snoc, reverse_involutive.
  apply Forall_app in Hpos as [Hpos0 _].
  pose proof (sum_ge_length _ Hpos0).
  rewrite length_app, sum_app in *. simpl in *.
  intros [_ Hlast]%Forall_app. apply Forall_inv in Hlast. lia.
Qed.

(** C3 (infeasibility).  For [total_codes >= 1] and non-empty weights that
    are all at least 1, a call with more weights than codes raises instead
    of returning; and [_distribute_codes(3, [5,5,5,5,5])] raises the
    [ValueError] of the positivity check. *)
Theorem distribute_codes_infeasible (total_codes : Z) (weights : list Z) :
  1 <= total_codes -> weights <> [] -> Forall (fun w => 1 <= w) weights ->
  total_codes < Z.of_nat (length weights) ->
  (exists e, _distribute_codes total_codes weights = Raises e) /\
  _distribute_codes 3 [5; 5; 5; 5; 5] =
    Raises (ValueError "Code distribution resulted in non-positive segment length.").
Proof.
  intros Htotal Hne Hw Hlen. split; [|vm_compute; reflexivity].
  pose proof (sum_ge_length _ Hw) as Hsum.
  unfold _distribute_codes.
  destruct (Z.leb_spec total_codes 0); [lia|].
  destruct (bool_decide_reflect (weights = [])); [done|].
  destruct (Z.leb_spec (sum weights) 0); [lia|].
  destruct (rebalance total_codes weights) as [counts1|e|] eqn:Hr; simpl.
  - apply rebalance_Returns in Hr as [Hl Hpos].
    rewrite finalise_infeasible; [eauto | lia | done | lia].
  - eauto.
  - by apply rebalance_not_OutOfFuel in Hr.
Qed.

Lemma distribute_codes_infeasible_witness :
  (exists e, _distribute_codes 2 [1; 1; 4] = Raises e) /\
  _distribute_codes 3 [5; 5; 5; 5; 5] =
    Raises (ValueError "Code distribution resulted in non-positive segment length.").
Proof.
  apply (distribute_codes_infeasible 2 [1; 1; 4]).
  - lia.
  - discriminate.
  - repeat constructor; lia.
  - simpl. lia.
Defined.

(** C10 (termination of rebalancing).  From any loop state, a budget of
    [remaining + len(idx_list)] iterations is enough for the [while] loop to
    stop: each iteration that completes takes one unit off [remaining] or one
    index off [idx_list].  A larger budget gives the same outcome, and
    [_distribute_codes] never exhausts the budget it runs the loop with. *)
Theorem redistribution_loop_terminates (step : Z) (st : LoopState) (fuel : nat) :
  (loop_budget st <= fuel)%nat ->
  while_loop fuel step st <> OutOfFuel /\
  while_loop fuel step st = while_loop (loop_budget st) step st /\
  (forall st', loop_cond st = true -> loop_body step st = Returns st' ->
     (remaining st' = remaining st - 1 /\ idx_list st' = idx_list st) \/
     (remaining st' = remaining st /\
      S (length (idx_list st')) = length (idx_list st))) /\
  (forall total_codes weights, _distribute_codes total_codes weights <> OutOfFuel).
Proof.
  intros Hfuel. split; [by apply while_loop_enough_fuel|].
  split; [by apply while_loop_fuel_irrelevant|].
  split; [intros st' _; apply loop_body_progress|].
  intros total_codes weights. unfold _distribute_codes.
  destruct (total_codes <=? 0); [done|].
  destruct (bool_decide (weights = [])); [done|].
  destruct (sum weights <=? 0); [done|].
  apply bind_not_OutOfFuel; [apply rebalance_not_OutOfFuel|].
  intros counts1 _. apply finalise_not_OutOfFuel.
Qed.

Lemma redistribution_loop_terminates_witness :
  while_loop 5 (-1) example_state <> OutOfFuel /\
  while_loop 5 (-1) example_state =
    while_loop (loop_budget example_state) (-1) example_state /\
  (forall st', loop_cond example_state = true ->
     loop_body (-1) example_state = Returns st' ->
     (remaining st' = remaining example_state - 1 /\
      idx_list st' = idx_list example_state) \/
     (remaining st' = remaining example_state /\
      S (length (idx_list st')) = length (idx_list example_state))) /\
  (forall total_codes weights, _distribute_codes total_codes weights <> OutOfFuel).
Proof.
  apply (redistribution_loop_terminates (-1) example_state 5).
  vm_compute. lia.
Defined.

(** ** The order of floats *)

Lemma SFcompare_key x y :
  not_nan x -> not_nan y ->
  match SFcompare x y with
  | Some Lt => key_lt (order_key x) (order_key y)
  | Some Eq => order_key x = order_key y
  | Some Gt => key_lt (order_key y) (order_key x)
  | None => False
  end.
Proof.
  intros Hx Hy. unfold key_lt.
  destruct x as [sx|sx| |sx mx ex], y as [sy|sy| |sy my ey]; try done;
    try (by destruct sx, sy; simpl; first [done | lia]).
  simpl. change (Pos.compare_cont Eq mx my) with (mx ?= my)%positive.
  destruct sx, sy; simpl; try lia;
    destruct (Z.compare_spec ex ey); simpl; try lia;
    destruct (Pos.compare_spec mx my); simpl; subst; try done; lia.
Qed.

Lemma key_lt_irrefl k : ~ key_lt k k.
Proof. unfold key_lt. lia. Qed.

Lemma key_lt_asym k1 k2 : key_lt k1 k2 -> ~ key_lt k2 k1.
Proof. unfold key_lt. lia. Qed.

Lemma key_lt_trans k1 k2 k3 : key_lt k1 k2 -> key_lt k2 k3 -> key_lt k1 k3.
Proof. unfold key_lt. lia. Qed.

Lemma key_trichotomy k1 k2 : key_lt k1 k2 \/ k1 = k2 \/ key_lt k2 k1.
Proof.
  destruct k1 as [a1 [b1 c1]], k2 as [a2 [b2 c2]]. unfold key_lt. simpl.
  destruct (Z.lt_trichotomy a1 a2) as [|[->|]]; [lia| |lia].
  destruct (Z.lt_trichotomy b1 b2) as [|[->|]]; [lia| |lia].
  destruct (Z.lt_trichotomy c1 c2) as [|[->|]]; [lia|auto|lia].
Qed.

Lemma ltb_key x y :
  not_nan x -> not_nan y ->
  PyFloat.ltb x y = true <-> key_lt (order_key x) (order_key y).
Proof.
  intros Hx Hy. pose proof (SFcompare_key x y Hx Hy) as H.
  unfold PyFloat.ltb, SFltb.
  destruct (SFcompare x y) as [[]|]; try done; split; try done; intros Hlt.
  - rewrite H in Hlt. by apply key_lt_irrefl in Hlt.
  - by apply key_lt_asym in Hlt.
Qed.

Lemma eqb_key x y :
  PyFloat.eqb x y = true ->
  not_nan x /\ not_nan y /\ order_key x = order_key y.
Proof.
  unfold PyFloat.eqb, SFeqb. intros H.
  assert (Hx : not_nan x) by (intros ->; done).
  assert (Hy : not_nan y) by (intros ->; by destruct x).
  pose proof (SFcompare_key x y Hx Hy) as Hk.
  by destruct (SFcompare x y) as [[]|].
Qed.

Lemma key_eqb x y :
  not_nan x -> not_nan y -> order_key x = order_key y -> PyFloat.eqb x y = true.
Proof.
  intros Hx Hy Hk. pose proof (SFcompare_key x y Hx Hy) as H.
  unfold PyFloat.eqb, SFeqb. rewrite Hk in H.
  destruct (SFcompare x y) as [[]|]; try done; by apply key_lt_irrefl in H.
Qed.

(** ** Rounding never yields NaN *)

Lemma iter_pos_invariant {A : Type} (P : A -> Prop) (f : A -> A) :
  (forall x, P x -> P (f x)) -> forall p x, P x -> P (SpecFloat.iter_pos f p x).
Proof. intros Hf. induction p; simpl; auto. Qed.

Lemma shr_1_nonneg mrs : 0 <= shr_m mrs -> 0 <= shr_m (shr_1 mrs).
Proof. destruct mrs as [[|[p|p|]|p] r s]; simpl; lia. Qed.

Lemma shr_nonneg mrs e n : 0 <= shr_m mrs -> 0 <= shr_m (shr mrs e n).1.
Proof.
  intros H. destruct n; simpl; try done.
  by apply (iter_pos_invariant (fun r => 0 <= shr_m r)); [apply shr_1_nonneg|].
Qed.

Lemma shr_record_of_loc_m m l : shr_m (shr_record_of_loc m l) = m.
Proof. by destruct l as [|[]]. Qed.

Lemma round_nearest_even_nonneg m l : 0 <= m -> 0 <= round_nearest_even m l.
Proof. unfold round_nearest_even. destruct l as [|[]]; try destruct (Z.even m); lia. Qed.

Lemma binary_round_aux_not_nan prec emax s mx ex lx :
  0 <= mx -> binary_round_aux prec emax s mx ex lx <> S754_nan.
Proof.
  intros Hmx. unfold binary_round_aux, shr_fexp.
  destruct (shr (shr_record_of_loc mx lx) ex _) as [mrs' e'] eqn:H1.
  destruct (shr (shr_record_of_loc _ _) e' _) as [mrs'' e''] eqn:H2.
  assert (0 <= shr_m mrs'') as Hm.
  { change mrs'' with (mrs'', e'').1. rewrite <- H2.
    apply shr_nonneg. rewrite shr_record_of_loc_m.
    apply round_nearest_even_nonneg.
    change mrs' with (mrs', e').1. rewrite <- H1.
    apply shr_nonneg. by rewrite shr_record_of_loc_m. }
  destruct (shr_m mrs''); [done| |lia]. by destruct (_ <=? _).
Qed.

Lemma binary_normalize_not_nan prec emax m e sz :
  binary_normalize prec emax m e sz <> S754_nan.
Proof.
  destruct m; simpl; [done| |]; unfold binary_round;
    destruct (shl_align _ _ _); by apply binary_round_aux_not_nan.
Qed.

Lemma of_int_Returns n f :
  PyFloat.of_int n = Returns f ->
  f = binary_normalize PyFloat.prec PyFloat.emax n 0 false /\
  (exists s, f = S754_zero s) \/ (exists s m e, f = S754_finite s m e).
Proof.
  unfold PyFloat.of_int.
  pose proof (binary_normalize_not_nan PyFloat.prec PyFloat.emax n 0 false) as Hn.
  destruct (binary_normalize _ _ _ _ _); intros [= <-]; try done; eauto 10.
Qed.

Lemma fractional_of_not_nan share f :
  fractional_of share = Returns f -> not_nan f.
Proof.
  unfold fractional_of. intros (n & Hn & H)%bind_Returns.
  apply bind_Returns in H as (g & Hg & [= <-]).
  apply of_int_Returns in Hg as [[_ [s ->]]|(s & m & e & ->)];
    destruct share as [sx|sx| |sx mx ex]; try done; unfold PyFloat.sub, not_nan;
    simpl; try (by destruct sx, s); try done.
  apply binary_normalize_not_nan.
Qed.

Lemma fractionals_not_nan shares fractional :
  map_outcome fractional_of shares = Returns fractional ->
  Forall not_nan fractional.
Proof.
  intros H%map_outcome_Forall2.
  induction H as [|s f ? ? Hf _ IH]; constructor; [|done].
  by eapply fractional_of_not_nan.
Qed.

(** ** The stable sort *)

Section StableSort.
Context {A : Type} (lt : A -> A -> bool).

Lemma insert_sorted_Permutation x l : insert_sorted lt x l ≡ₚ x :: l.
Proof.
  induction l as [|y l IH]; simpl; [done|].
  destruct (lt y x); [|done]. rewrite IH. apply Permutation_swap.
Qed.

Lemma stable_sort_Permutation l : stable_sort lt l ≡ₚ l.
Proof.
  induction l as [|x l IH]; simpl; [done|].
  rewrite insert_sorted_Permutation. by rewrite IH.
Qed.

(** The order is only required to behave on the elements that satisfy
    [ok]: for floats, the ones that are not NaN. *)
Context (ok : A -> Prop) (pos : relation A).
Hypothesis le_lt_trans : forall x y z, ok x -> ok y -> ok z ->
  lt y x = false -> lt y z = true -> lt x z = true.
Hypothesis le_le_trans : forall x y z, ok x -> ok y -> ok z ->
  lt y x = false -> lt z y = false -> lt z x = false.

Lemma insert_sorted_StronglySorted x l :
  ok x -> Forall ok l -> Forall (pos x) l ->
  StronglySorted (sorted_before lt pos) l ->
  StronglySorted (sorted_before lt pos) (insert_sorted lt x l).
Proof.
  intros Hx Hok Hpos Hs. induction Hs as [|y l Hs IH Hy]; simpl.
  { repeat constructor. }
  apply Forall_cons in Hok as [Hoky Hok]. apply Forall_cons in Hpos as [Hposy Hpos].
  destruct (lt y x) eqn:Hyx.
  - constructor; [by apply IH|].
    rewrite insert_sorted_Permutation. constructor; [by left | done].
  - constructor; [by constructor|]. constructor.
    + destruct (lt x y) eqn:Hxy; [by left | by right].
    + rewrite Forall_forall in Hy, Hok, Hpos. apply Forall_forall. intros z Hz.
      destruct (Hy z Hz) as [Hyz|(Hyz & Hzy & _)].
      * left. eapply (le_lt_trans x y z); auto.
      * assert (lt z x = false) by (eapply (le_le_trans x y z); auto).
        destruct (lt x z) eqn:Hxz; [by left | right; auto].
Qed.

Lemma stable_sort_StronglySorted l :
  Forall ok l -> StronglySorted pos l ->
  StronglySorted (sorted_before lt pos) (stable_sort lt l).
Proof.
  intros Hok Hs. induction Hs as [|x l Hs IH Hx]; simpl; [constructor|].
  apply Forall_cons in Hok as [Hokx Hok].
  apply insert_sorted_StronglySorted; auto.
  - by rewrite stable_sort_Permutation.
  - by rewrite stable_sort_Permutation.
Qed.
End StableSort.

Lemma StronglySorted_reverse {A : Type} (R : relation A) l :
  StronglySorted R l -> StronglySorted (flip R) (reverse l).
Proof.
  induction 1 as [|x l Hs IH Hx]; [constructor|].
  rewrite reverse_cons. apply StronglySorted_app_2; [|done|repeat constructor].
  intros a b Ha ->%list_elem_of_singleton. rewrite elem_of_reverse in Ha.
  rewrite Forall_forall in Hx. by apply Hx.
Qed.

Lemma StronglySorted_fmap_on {A B : Type} (P : A -> Prop) (R1 : relation A)
    (R2 : relation B) (f : A -> B) l :
  (forall a b, P a -> P b -> R1 a b -> R2 (f a) (f b)) ->
  Forall P l -> StronglySorted R1 l -> StronglySorted R2 (f <$> l).
Proof.
  intros Hf HP Hs. induction Hs as [|x l Hs IH Hx]; simpl; [constructor|].
  apply Forall_cons in HP as [HPx HP]. constructor; [auto|].
  rewrite Forall_fmap. rewrite Forall_forall in Hx, HP. apply Forall_forall.
  intros b Hb. simpl. auto.
Qed.

Lemma StronglySorted_lookup {A : Type} (R : relation A) l p q a b :
  StronglySorted R l -> l !! p = Some a -> l !! q = Some b -> (p < q)%nat -> R a b.
Proof.
  intros Hs. revert p q. induction Hs as [|x l Hs IH Hx]; intros p q Hp Hq Hpq; [done|].
  destruct q as [|q]; [lia|]. destruct p as [|p]; simpl in *.
  - injection Hp as <-. rewrite Forall_forall in Hx.
    by eapply Hx, list_elem_of_lookup_2.
  - eapply IH; eauto. lia.
Qed.

(** ** The ranking of the fractional remainders *)

Lemma ltb_le_lt_trans x y z :
  not_nan x -> not_nan y -> not_nan z ->
  PyFloat.ltb y x = false -> PyFloat.ltb y z = true -> PyFloat.ltb x z = true.
Proof.
  intros Hx Hy Hz Hyx Hyz. apply ltb_key in Hyz; [|done..].
  apply ltb_key; [done..|]. apply not_true_iff_false in Hyx.
  rewrite ltb_key in Hyx by done.
  destruct (key_trichotomy (order_key x) (order_key y)) as [H|[H|H]]; [|by rewrite H|done].
  by eapply key_lt_trans.
Qed.

Lemma ltb_le_le_trans x y z :
  not_nan x -> not_nan y -> not_nan z ->
  PyFloat.ltb y x = false -> PyFloat.ltb z y = false -> PyFloat.ltb z x = false.
Proof.
  intros Hx Hy Hz Hyx Hzy. apply not_true_iff_false in Hyx, Hzy.
  apply not_true_iff_false. rewrite ltb_key in * by done. intros Hzx.
  destruct (key_trichotomy (order_key x) (order_key y)) as [H|[H|H]]; [| |done].
  - apply Hzy. by eapply key_lt_trans.
  - apply Hzy. by rewrite <- H.
Qed.

Lemma ltb_tie_eqb x y :
  not_nan x -> not_nan y ->
  PyFloat.ltb x y = false -> PyFloat.ltb y x = false -> PyFloat.eqb x y = true.
Proof.
  intros Hx Hy Hxy Hyx. apply not_true_iff_false in Hxy, Hyx.
  rewrite ltb_key in * by done. apply key_eqb; [done..|].
  by destruct (key_trichotomy (order_key x) (order_key y)) as [H|[H|H]].
Qed.

Lemma enumerate_fst {A : Type} (l : list A) : (enumerate l).*1 = seq 0 (length l).
Proof.
  unfold enumerate. rewrite fmap_imap.
  rewrite (imap_ext _ (fun i _ => id i)) by done.
  rewrite imap_seq_0. apply list_fmap_id.
Qed.

Lemma elem_of_enumerate {A : Type} (l : list A) (a : nat * A) :
  a ∈ enumerate l <-> l !! a.1 = Some a.2.
Proof.
  unfold enumerate. rewrite elem_of_lookup_imap. split.
  - by intros (i & x & -> & H).
  - intros H. exists a.1, a.2. by destruct a.
Qed.

Lemma imap_StronglySorted {A : Type} (f : nat -> A -> nat * A) (k : nat) (l : list A) :
  (forall i x, (f i x).1 = (k + i)%nat) ->
  StronglySorted (fun a b => (a.1 < b.1)%nat) (imap f l).
Proof.
  revert f k. induction l as [|x l IH]; intros f k Hf; [constructor|].
  rewrite imap_cons. constructor.
  - apply (IH _ (S k)). intros i y. simpl. rewrite Hf. lia.
  - apply Forall_forall. intros b (i & y & -> & _)%elem_of_lookup_imap.
    simpl. rewrite !Hf. lia.
Qed.

Lemma enumerate_StronglySorted {A : Type} (l : list A) :
  StronglySorted (fun a b => (a.1 < b.1)%nat) (enumerate l).
Proof. by apply (imap_StronglySorted _ 0%nat). Qed.

Lemma ranking_Permutation fractional reverse :
  ranking fractional reverse ≡ₚ seq 0 (length fractional).
Proof.
  unfold ranking, sorted. rewrite <- enumerate_fst. apply fmap_Permutation.
  destruct reverse; [|apply stable_sort_Permutation].
  rewrite reverse_Permutation, stable_sort_Permutation.
  apply reverse_Permutation.
Qed.

Lemma ranking_StronglySorted fractional reverse :
  Forall not_nan fractional ->
  StronglySorted (ranks_before fractional reverse) (ranking fractional reverse).
Proof.
  intros Hnan. unfold ranking, sorted.
  set (lt := fun a b : nat * PyFloat.float => PyFloat.ltb a.2 b.2).
  set (ok := fun a : nat * PyFloat.float => fractional !! a.1 = Some a.2 /\ not_nan a.2).
  assert (Hok : Forall ok (enumerate fractional)).
  { apply Forall_forall. intros a Ha%elem_of_enumerate. split; [done|].
    rewrite Forall_forall in Hnan. by eapply Hnan, list_elem_of_lookup_2. }
  assert (Htrans1 : forall x y z, ok x -> ok y -> ok z ->
            lt y x = false -> lt y z = true -> lt x z = true).
  { intros x y z [_ ?] [_ ?] [_ ?]. by apply ltb_le_lt_trans. }
  assert (Htrans2 : forall x y z, ok x -> ok y -> ok z ->
            lt y x = false -> lt z y = false -> lt z x = false).
  { intros x y z [_ ?] [_ ?] [_ ?]. by apply ltb_le_le_trans. }
  destruct reverse.
  - apply (StronglySorted_fmap_on ok
             (flip (sorted_before lt (fun a b => (b.1 < a.1)%nat)))).
    + intros a b [Ha Hna] [Hb Hnb] [Hlt|(Hba & Hab & Hpos)];
        exists a.2, b.2; split_and!; auto.
      right. split; [by apply ltb_tie_eqb | done].
    + by rewrite reverse_Permutation, stable_sort_Permutation, reverse_Permutation.
    + apply StronglySorted_reverse.
      apply (stable_sort_StronglySorted lt ok); auto.
      * by rewrite reverse_Permutation.
      * apply (StronglySorted_reverse _ _ (enumerate_StronglySorted fractional)).
  - apply (StronglySorted_fmap_on ok
             (sorted_before lt (fun a b => (a.1 < b.1)%nat))).
    + intros a b [Ha Hna] [Hb Hnb] [Hlt|(Hab & Hba & Hpos)];
        exists a.2, b.2; split_and!; auto.
      right. split; [by apply ltb_tie_eqb | done].
    + by rewrite stable_sort_Permutation.
    + apply (stable_sort_StronglySorted lt ok); auto.
      apply enumerate_StronglySorted.
Qed.

Lemma eqb_not_ltb x y :
  PyFloat.eqb x y = true -> PyFloat.ltb x y = false /\ PyFloat.ltb y x = false.
Proof.
  intros (Hx & Hy & Hk)%eqb_key.
  split; apply not_true_iff_false; rewrite ltb_key by done;
    rewrite Hk; apply key_lt_irrefl.
Qed.

Lemma ltb_asym x y :
  not_nan x -> not_nan y -> PyFloat.ltb x y = true -> PyFloat.ltb y x = false.
Proof.
  intros Hx Hy Hlt. apply not_true_iff_false. rewrite ltb_key in * by done.
  by apply key_lt_asym.
Qed.

Lemma ranks_before_asym fractional reverse i j :
  Forall not_nan fractional ->
  ranks_before fractional reverse i j -> ~ ranks_before fractional reverse j i.
Proof.
  intros Hnan (fi & fj & Hi & Hj & Hij) (fj' & fi' & Hj' & Hi' & Hji).
  rewrite Hi in Hi'. rewrite Hj in Hj'. injection Hi' as <-. injection Hj' as <-.
  rewrite Forall_forall in Hnan.
  assert (Hni : not_nan fi) by (by eapply Hnan, list_elem_of_lookup_2).
  assert (Hnj : not_nan fj) by (by eapply Hnan, list_elem_of_lookup_2).
  destruct Hij as [Hlt|[Heq Hlt]], Hji as [Hlt'|[Heq' Hlt']]; try lia.
  - destruct reverse; apply ltb_asym in Hlt; congruence.
  - apply eqb_not_ltb in Heq' as [? ?]. destruct reverse; congruence.
  - apply eqb_not_ltb in Heq as [? ?]. destruct reverse; congruence.
Qed.

(** The ranking does not depend on the sorting algorithm: it is the only
    arrangement of the indices that is in [ranks_before] order, so every
    stable sort produces it. *)
Lemma ranking_unique fractional reverse l :
  Forall not_nan fractional ->
  l ≡ₚ seq 0 (length fractional) ->
  StronglySorted (ranks_before fractional reverse) l ->
  l = ranking fractional reverse.
Proof.
  intros Hnan Hperm Hs.
  apply (StronglySorted_unique_strong (ranks_before fractional reverse)).
  - intros i j _ _ Hij Hji. by apply ranks_before_asym in Hij.
  - done.
  - by apply ranking_StronglySorted.
  - by rewrite Hperm, ranking_Permutation.
Qed.

(** The lookups of the loop body never fail: as long as [idx_list] holds
    indices of [counts], an iteration completes, and the loop returns. *)
Lemma loop_body_Returns step st :
  loop_cond st = true ->
  Forall (fun i => (i < length (counts st))%nat) (idx_list st) ->
  exists st', loop_body step st = Returns st' /\
    Forall (fun i => (i < length (counts st'))%nat) (idx_list st').
Proof.
  intros [_ Hne]%loop_cond_true Hidx. unfold loop_body.
  assert (Hpos : (pointer st `mod` length (idx_list st) < length (idx_list st))%nat).
  { apply Nat.mod_upper_bound. by destruct (idx_list st). }
  destruct (lookup_lt_is_Some_2 _ _ Hpos) as [idx Hl]. rewrite Hl.
  assert (Hi : (idx < length (counts st))%nat).
  { rewrite Forall_forall in Hidx. by eapply Hidx, list_elem_of_lookup_2. }
  destruct (lookup_lt_is_Some_2 _ _ Hi) as [c Hc]. rewrite Hc.
  destruct (c + step <=? 0); eexists; (split; [done|]); simpl.
  - rewrite Forall_forall in Hidx. apply Forall_forall. intros i Hin.
    apply Hidx. eapply elem_of_sublist; [done | apply sublist_delete].
  - by rewrite length_insert.
Qed.

Lemma while_loop_Returns step fuel st :
  Forall (fun i => (i < length (counts st))%nat) (idx_list st) ->
  (loop_budget st <= fuel)%nat ->
  exists st', while_loop fuel step st = Returns st'.
Proof.
  revert st. induction fuel as [|fuel IH]; intros st Hidx Hfuel; simpl.
  - destruct (loop_cond st) eqn:Hc; [|eauto].
    apply loop_cond_true in Hc as [Hr _]. unfold loop_budget in Hfuel. lia.
  - destruct (loop_cond st) eqn:Hc; [|eauto].
    destruct (loop_body_Returns step st Hc Hidx) as (st1 & Hb & Hidx1).
    rewrite Hb. simpl. apply IH; [done|].
    pose proof (loop_body_budget _ _ _ Hc Hb). lia.
Qed.

(** Once the remainders are computed, the redistribution returns. *)
Lemma redistribute_Returns shares fractional counts0 delta :
  map_outcome fractional_of shares = Returns fractional ->
  length counts0 = length shares ->
  exists counts1, redistribute shares counts0 delta = Returns counts1.
Proof.
  intros Hfr Hlen. unfold redistribute. rewrite Hfr. simpl.
  edestruct (while_loop_Returns (if 0 <? delta then 1 else -1)) as [st' ->];
    [|reflexivity|by eexists].
  simpl. rewrite Hlen, <- (map_outcome_length _ _ _ Hfr).
  apply Forall_forall. intros i Hi.
  rewrite ranking_Permutation in Hi. apply elem_of_seq in Hi. lia.
Qed.

(** C7 (scenario B).  [_distribute_codes(7, [1,1,1,1,1])] returns
    [[2,2,1,1,1]]: the five shares, hence the five remainders, are the same
    float, the ranking keeps the original index order, and the two extra
    units go to indices 0 and 1. *)
Theorem scenario_b_two_extras_on_first_two :
  _distribute_codes 7 [1; 1; 1; 1; 1] = Returns [2; 2; 1; 1; 1] /\
  map_outcome (share_of 7 (sum [1; 1; 1; 1; 1])) [1; 1; 1; 1; 1] = Returns shares_7_of_5 /\
  map_outcome initial_count shares_7_of_5 = Returns [1; 1; 1; 1; 1] /\
  (exists f, map_outcome fractional_of shares_7_of_5 = Returns (replicate 5 f) /\
             ranking (replicate 5 f) (0 <? 7 - sum [1; 1; 1; 1; 1]) = [0; 1; 2; 3; 4]%nat).
Proof.
  split_and!; try (vm_compute; reflexivity).
  eexists. split; vm_compute; reflexivity.
Qed.

(** C8 (determinism).  The outcome of [_distribute_codes] is a function of
    [(total_codes, weights)] alone, and the ranking breaks ties by original
    index order: whether the sort is reversed or not, of two indices [i < j]
    with equal remainders, [i] is at the earlier position of [idx_list]. *)
Theorem distribute_codes_deterministic (total_codes : Z) (weights : list Z)
    (shares fractional : list PyFloat.float) (reverse : bool) (i j : nat)
    (fi fj : PyFloat.float) :
  map_outcome fractional_of shares = Returns fractional ->
  fractional !! i = Some fi -> fractional !! j = Some fj ->
  (i < j)%nat -> PyFloat.eqb fi fj = true ->
  (exists p q, (p < q)%nat /\
     ranking fractional reverse !! p = Some i /\
     ranking fractional reverse !! q = Some j) /\
  (forall r1 r2, r1 = _distribute_codes total_codes weights ->
                 r2 = _distribute_codes total_codes weights -> r1 = r2).
Proof.
  intros Hfr Hi Hj Hij Htie. split; [|congruence].
  pose proof (ranking_StronglySorted _ reverse (fractionals_not_nan _ _ Hfr)) as Hs.
  assert (Hin : forall k f, fractional !! k = Some f ->
            exists p, ranking fractional reverse !! p = Some k).
  { intros k f Hk. apply list_elem_of_lookup_1.
    rewrite ranking_Permutation. apply elem_of_seq.
    apply lookup_lt_Some in Hk. lia. }
  destruct (Hin _ _ Hi) as [p Hp], (Hin _ _ Hj) as [q Hq].
  exists p, q. split; [|done].
  destruct (Nat.lt_trichotomy p q) as [|[->|Hqp]]; [done| |].
  - rewrite Hp in Hq. injection Hq as ->. lia.
  - pose proof (StronglySorted_lookup _ _ _ _ _ _ Hs Hq Hp Hqp) as Hb.
    destruct Hb as (fj' & fi' & Hj' & Hi' & [Hlt|[_ Hlt]]); [|lia].
    rewrite Hi in Hi'. rewrite Hj in Hj'. injection Hi' as <-. injection Hj' as <-.
    apply eqb_not_ltb in Htie as [H1 H2]. destruct reverse; congruence.
Qed.

Lemma distribute_codes_deterministic_witness :
  (exists p q, (p < q)%nat /\
     ranking fractional_6_of_14 false !! p = Some 0%nat /\
     ranking fractional_6_of_14 false !! q = Some 1%nat) /\
  (forall r1 r2, r1 = _distribute_codes 6 [1; 1; 5; 7] ->
                 r2 = _distribute_codes 6 [1; 1; 5; 7] -> r1 = r2).
Proof.
  apply (distribute_codes_deterministic 6 [1; 1; 5; 7] shares_6_of_14
           fractional_6_of_14 false 0 1
           (S754_finite false 7720456504063707 (-54))
           (S754_finite false 7720456504063707 (-54))).
  - vm_compute. reflexivity.
  - reflexivity.
  - reflexivity.
  - lia.
  - vm_compute. reflexivity.
Defined.

(** ** The segment builder *)

Lemma slice_in_range {A : Type} (l : list A) (i j : Z) :
  0 <= i <= j -> j <= Z.of_nat (length l) ->
  slice l i j = take (Z.to_nat (j - i)) (drop (Z.to_nat i) l).
Proof.
  intros Hi Hj. unfold slice, slice_bound.
  replace (i <? 0) with false by lia. replace (j <? 0) with false by lia.
  by rewrite !Z.min_l by lia.
Qed.

Lemma take_drop_add {A : Type} (l : list A) (o a b : nat) :
  take a (drop o l) ++ take b (drop (o + a) l) = take (a + b) (drop o l).
Proof.
  rewrite <- drop_drop. generalize (drop o l) as l'. clear l o.
  induction a as [|a IH]; intros [|x l']; simpl; try done.
  - by rewrite take_nil.
  - by rewrite IH.
Qed.

(** The loop appends to [words] the slices of [codes] that follow
    [offset], one per pair and in order. *)
Lemma build_loop_codes codes pairs offset words result :
  0 <= offset ->
  Forall (fun c => 1 <= c) pairs.*2 ->
  offset + sum pairs.*2 <= Z.of_nat (length codes) ->
  build_loop codes pairs offset words = Returns result ->
  concat (rec_codes <$> result) =
    concat (rec_codes <$> words) ++
    take (Z.to_nat (sum pairs.*2)) (drop (Z.to_nat offset) codes) /\
  length result = (length words + length pairs)%nat.
Proof.
  revert offset words. induction pairs as [|[token count] pairs IH];
    intros offset words Hoff Hpos Hlen; csimpl in *.
  - intros [= <-]. rewrite take_0, app_nil_r. split; [done | lia].
  - apply Forall_cons in Hpos as [Hc Hpos]. fold (sum pairs.*2) in *.
    pose proof (sum_ge_length _ Hpos) as Hsum.
    intros (duration & _ & Hb)%bind_Returns.
    apply IH in Hb as [-> ->]; [|lia|done|lia].
    rewrite fmap_app, concat_app, length_app. simpl. split; [|lia].
    rewrite app_nil_r, <- app_assoc. f_equal.
    rewrite slice_in_range by lia.
    replace (offset + count - offset) with count by lia.
    replace (Z.to_nat (offset + count)) with (Z.to_nat offset + Z.to_nat count)%nat by lia.
    rewrite take_drop_add. f_equal. lia.
Qed.

(** C6 (partition round-trip).  Whenever
    [_build_words_from_codes codes transcript_tokens] returns, the [codes]
    slices of the records it returns, concatenated in order, are the input
    code list, and there is one record per token. *)
Theorem build_words_partition (codes : list Z) (transcript_tokens : list string)
    (words : list WordRecord) :
  _build_words_from_codes codes transcript_tokens = Returns words ->
  concat (rec_codes <$> words) = codes /\
  length words = length transcript_tokens.
Proof.
  unfold _build_words_from_codes. intros (counts0 & Hd & Hb)%bind_Returns.
  apply distribute_codes_counts in Hd as (Hsum & Hpos & Hlen).
  rewrite length_map in Hlen.
  assert (Hsnd : (zip transcript_tokens counts0).*2 = counts0)
    by (apply snd_zip; lia).
  apply build_loop_codes in Hb as [-> ->]; rewrite ?Hsnd; [|lia|done|lia].
  simpl. rewrite Hsum, Nat2Z.id, drop_0, firstn_all.
  rewrite length_zip_with. split; [done | lia].
Qed.

Lemma build_words_partition_witness :
  let words :=
    [ {| rec_word := "a"; rec_duration := S754_finite false 5764607523034235 (-57);
         rec_codes := [11; 12] |};
      {| rec_word := "bcd"; rec_duration := S754_finite false 5764607523034235 (-56);
         rec_codes := [13; 14; 15; 16] |};
      {| rec_word := "e"; rec_duration := S754_finite false 5764607523034235 (-58);
         rec_codes := [17] |} ] in
  _build_words_from_codes [11; 12; 13; 14; 15; 16; 17] ["a"; "bcd"; "e"]%string
    = Returns words /\
  concat (rec_codes <$> words) = [11; 12; 13; 14; 15; 16; 17] /\
  length words = length ["a"; "bcd"; "e"]%string.
Proof.
  split; [vm_compute; reflexivity|].
  apply (build_words_partition [11; 12; 13; 14; 15; 16; 17] ["a"; "bcd"; "e"]%string).
  vm_compute. reflexivity.
Defined.

(** ** Rounding keeps the magnitude

    For a positive mantissa in the normal range, rounding to binary64 gives
    a positive float whose leading bit is not below the one of the exact
    value. *)

Lemma digits2_pos_size p : digits2_pos p = Pos.size p.
Proof. induction p; simpl; congruence. Qed.

Lemma Zdigits2_log2 m : 0 < m -> Zdigits2 m = Z.log2 m + 1.
Proof.
  destruct m as [|p|p]; try lia. intros _. simpl. rewrite digits2_pos_size.
  destruct p; simpl; lia.
Qed.

Lemma shr_1_m mrs : 0 <= shr_m mrs -> shr_m (shr_1 mrs) = Z.shiftr (shr_m mrs) 1.
Proof. destruct mrs as [[|[p|p|]|p] r s]; simpl; try lia; done. Qed.

Lemma iter_shr_1_nonneg p mrs :
  0 <= shr_m mrs -> 0 <= shr_m (SpecFloat.iter_pos shr_1 p mrs).
Proof.
  apply (iter_pos_invariant (fun r => 0 <= shr_m r)), shr_1_nonneg.
Qed.

Lemma iter_shr_1_m p mrs :
  0 <= shr_m mrs ->
  shr_m (SpecFloat.iter_pos shr_1 p mrs) = Z.shiftr (shr_m mrs) (Zpos p).
Proof.
  revert mrs. induction p as [p IH|p IH|]; intros mrs Hm; simpl SpecFloat.iter_pos.
  - pose proof (shr_1_nonneg mrs Hm) as H1.
    pose proof (iter_shr_1_nonneg p _ H1) as H2.
    rewrite (IH _ H2), (IH _ H1), (shr_1_m _ Hm), !Z.shiftr_shiftr by lia.
    f_equal. lia.
  - pose proof (iter_shr_1_nonneg p _ Hm) as H2.
    rewrite (IH _ H2), (IH _ Hm), Z.shiftr_shiftr by lia.
    f_equal. lia.
  - by apply shr_1_m.
Qed.

Lemma shr_spec mrs e n :
  0 <= shr_m mrs ->
  shr_m (shr mrs e n).1 = (if 0 <? n then Z.shiftr (shr_m mrs) n else shr_m mrs) /\
  (shr mrs e n).2 = (if 0 <? n then e + n else e).
Proof.
  intros Hm. destruct n as [|p|p]; simpl; try done.
  split; [by apply iter_shr_1_m | done].
Qed.

Lemma shr_fexp_spec m e l mrs e' :
  0 < m ->
  shr_fexp 53 1024 m e l = (mrs, e') ->
  let n := Z.max (Z.log2 m + 1 + e - 53) (-1074) - e in
  shr_m mrs = (if 0 <? n then Z.shiftr m n else m) /\
  e' = (if 0 <? n then e + n else e).
Proof.
  intros Hm H n. unfold shr_fexp in H.
  rewrite Zdigits2_log2 in H by done.
  change (fexp 53 1024 (Z.log2 m + 1 + e) - e) with n in H.
  destruct (shr_spec (shr_record_of_loc m l) e n) as [H1 H2].
  { rewrite shr_record_of_loc_m. lia. }
  rewrite H in H1, H2. simpl in H1, H2. by rewrite shr_record_of_loc_m in H1.
Qed.

Lemma round_nearest_even_bounds m l :
  m <= round_nearest_even m l <= m + 1.
Proof. unfold round_nearest_even. destruct l as [|[]]; try destruct (Z.even m); lia. Qed.

Lemma log2_shiftr_pos m n :
  0 < m -> 0 <= n <= Z.log2 m ->
  0 < Z.shiftr m n /\ Z.log2 (Z.shiftr m n) = Z.log2 m - n.
Proof.
  intros Hm Hn. pose proof (Z.log2_shiftr m n Hm) as Hl.
  split; [|lia].
  pose proof (Z.shiftr_nonneg m n) as [_ Hnn].
  pose proof (Z.shiftr_eq_0_iff m n) as [H0 _]. lia.
Qed.

(** Rounding a positive mantissa in the normal range gives a positive float
    that is at least as large a power of two. *)
Lemma binary_round_aux_normal s mx ex lx :
  0 < mx -> -1074 <= Z.log2 mx + 1 + ex - 53 ->
  match binary_round_aux 53 1024 s mx ex lx with
  | S754_finite s' m e => s' = s /\ Z.log2 mx + ex <= Z.log2 (Zpos m) + e
  | S754_infinity s' => s' = s
  | _ => False
  end.
Proof.
  intros Hmx Hnormal. unfold binary_round_aux.
  destruct (shr_fexp 53 1024 mx ex lx) as [mrs' e'] eqn:H1.
  apply shr_fexp_spec in H1 as [Hm' He']; [|done]. simpl in Hm', He'.
  set (m' := shr_m mrs') in *.
  assert (Hm'pos : 0 < m' /\ Z.log2 m' + e' = Z.log2 mx + ex /\ Z.log2 m' <= 52 /\ -1074 <= e').
  { rewrite Z.max_l in Hm', He' by lia.
    destruct (Z.ltb_spec 0 (Z.log2 mx + 1 + ex - 53 - ex)).
    - destruct (log2_shiftr_pos mx (Z.log2 mx + 1 + ex - 53 - ex)) as [? ?]; [lia..|].
      rewrite <- Hm' in *. lia.
    - rewrite Hm'. lia. }
  destruct Hm'pos as (Hpos & Hmag & Hle & He'min).
  set (m1 := round_nearest_even m' (loc_of_shr_record mrs')).
  pose proof (round_nearest_even_bounds m' (loc_of_shr_record mrs')) as Hm1. fold m1 in Hm1.
  assert (Hl1 : Z.log2 m' <= Z.log2 m1 <= 53).
  { split; [apply Z.log2_le_mono; lia|].
    assert (m' < 2 ^ 53).
    { apply Z.log2_lt_pow2; lia. }
    assert (m1 <= 2 ^ 53) by lia.
    apply Z.log2_le_mono in H0. rewrite Z.log2_pow2 in H0; lia. }
  destruct (shr_fexp 53 1024 m1 e' loc_Exact) as [mrs'' e''] eqn:H2.
  apply shr_fexp_spec in H2 as [Hm'' He'']; [|lia]. simpl in Hm'', He''.
  assert (Hfin : 0 < shr_m mrs'' /\ Z.log2 mx + ex <= Z.log2 (shr_m mrs'') + e'').
  { destruct (Z.ltb_spec 0 (Z.max (Z.log2 m1 + 1 + e' - 53) (-1074) - e')).
    - destruct (log2_shiftr_pos m1 (Z.max (Z.log2 m1 + 1 + e' - 53) (-1074) - e')) as [? ?]; [lia..|].
      rewrite <- Hm'' in *. lia.
    - rewrite Hm''. lia. }
  destruct Hfin as [Hpos'' Hmag''].
  destruct (shr_m mrs'') as [|m|m]; [lia| |lia].
  destruct (e'' <=? 1024 - 53); done.
Qed.


Lemma iter_xO_mul m d : Zpos (Pos.iter xO m d) = Zpos m * 2 ^ Zpos d.
Proof.
  induction d as [|d IH] using Pos.peano_ind.
  - simpl. lia.
  - rewrite Pos.iter_succ, Pos2Z.inj_xO, IH, Pos2Z.inj_succ, Z.pow_succ_r; lia.
Qed.

Lemma shl_align_log2 mx ex ex' :
  Z.log2 (Zpos (shl_align mx ex ex').1) + (shl_align mx ex ex').2 =
  Z.log2 (Zpos mx) + ex.
Proof.
  unfold shl_align. destruct (ex' - ex) as [|d|d] eqn:Hd; cbn [fst snd]; try done.
  rewrite iter_xO_mul, Z.log2_mul_pow2; lia.
Qed.

(** [float(n)] of a positive [n] is a positive float, at least the largest
    power of two below [n]. *)
Lemma of_int_positive n c :
  1 <= n -> PyFloat.of_int n = Returns c ->
  exists m e, c = S754_finite false m e /\ 0 <= Z.log2 (Zpos m) + e.
Proof.
  intros Hn. unfold PyFloat.of_int.
  destruct n as [|p|p]; try lia. unfold binary_normalize, binary_round.
  pose proof (shl_align_log2 p 0 (fexp PyFloat.prec PyFloat.emax (Z.pos (digits2_pos p) + 0))) as Hl.
  destruct (shl_align p 0 _) as [mz ez]. cbn [fst snd] in Hl.
  pose proof (Z.log2_nonneg (Z.pos p)) as H0.
  pose proof (binary_round_aux_normal false (Zpos mz) ez loc_Exact
                ltac:(lia) ltac:(lia)) as Hr.
  change (binary_round_aux PyFloat.prec PyFloat.emax) with (binary_round_aux 53 1024).
  destruct (binary_round_aux 53 1024 false (Z.pos mz) ez loc_Exact)
    as [?|?| |sf mf ef]; try done.
  destruct Hr as [-> Hr]. intros [= <-].
  exists mf, ef. split; [done | lia].
Qed.


(** The quotient of two positive mantissas, before rounding: it is positive
    and keeps the magnitude of the exact quotient. *)
Lemma SFdiv_core_binary_normal m1 e1 m2 e2 q e l :
  let M := Z.log2 (Zpos m1) + e1 - (Z.log2 (Zpos m2) + 1 + e2) in
  -1022 <= M ->
  SFdiv_core_binary 53 1024 (Zpos m1) e1 (Zpos m2) e2 = (q, e, l) ->
  0 < q /\ M <= Z.log2 q + e.
Proof.
  intros M HM. unfold SFdiv_core_binary.
  rewrite !Zdigits2_log2 by lia. unfold fexp, emin.
  set (e' := Z.min _ _).
  assert (He' : e' <= e1 - e2 /\ e' <= M + 1 - 53) by (subst e' M; lia).
  set (s := e1 - e2 - e').
  set (m' := match s with Z.pos _ => Z.shiftl (Z.pos m1) s | 0 => Z.pos m1 | Z.neg _ => 0 end).
  assert (Hm' : m' = Zpos m1 * 2 ^ s).
  { subst m'. destruct s eqn:Hs; [lia| |lia]. rewrite Z.shiftl_mul_pow2; lia. }
  assert (Hs : 0 <= s) by (subst s; lia).
  pose proof (Z.pow_pos_nonneg 2 s ltac:(lia) Hs) as Hpow.
  assert (Hlog : Z.log2 m' = Z.log2 (Zpos m1) + s).
  { rewrite Hm', Z.log2_mul_pow2; lia. }
  pose proof (Z.log2_nonneg (Zpos m1)) as Hl1.
  pose proof (Z.log2_nonneg (Zpos m2)) as Hl2.
  set (j := Z.log2 m') in *. set (k := Z.log2 (Zpos m2) + 1) in *.
  assert (Hjk : 52 <= j - k) by (subst j k s M; lia).
  assert (Hq : 2 ^ (j - k) <= m' / Zpos m2).
  { apply Z.div_le_lower_bound; [lia|].
    destruct (Z.log2_spec m' ltac:(lia)) as [Hlo _]. fold j in Hlo.
    destruct (Z.log2_spec (Zpos m2) ltac:(lia)) as [_ Hhi].
    replace (Z.succ (Z.log2 (Zpos m2))) with k in Hhi by (subst k; lia).
    replace j with (k + (j - k)) in Hlo by lia.
    rewrite Z.pow_add_r in Hlo by lia.
    pose proof (Z.pow_pos_nonneg 2 (j - k) ltac:(lia) ltac:(lia)). nia. }
  unfold Z.div in Hq. destruct (Z.div_eucl m' (Z.pos m2)) as [q0 r0].
  intros [= <- <- _].
  pose proof (Z.pow_pos_nonneg 2 (j - k) ltac:(lia) ltac:(lia)) as Hpos.
  split; [lia|].
  apply Z.log2_le_mono in Hq. rewrite Z.log2_pow2 in Hq by lia.
  subst j k s M. lia.
Qed.

Lemma div_round_normal s m1 e1 m2 e2 :
  let M := Z.log2 (Zpos m1) + e1 - (Z.log2 (Zpos m2) + 1 + e2) in
  -1022 <= M ->
  match (let '(q, e, l) := SFdiv_core_binary 53 1024 (Zpos m1) e1 (Zpos m2) e2 in
         binary_round_aux 53 1024 s q e l) with
  | S754_finite s' m e => s' = s /\ M <= Z.log2 (Zpos m) + e
  | S754_infinity s' => s' = s
  | _ => False
  end.
Proof.
  intros M HM.
  destruct (SFdiv_core_binary 53 1024 (Zpos m1) e1 (Zpos m2) e2) as [[q e] l] eqn:Hdiv.
  apply SFdiv_core_binary_normal in Hdiv as [Hq Hmag]; [|done]. fold M in Hmag.
  pose proof (binary_round_aux_normal s q e l Hq ltac:(lia)) as Hr.
  destruct (binary_round_aux 53 1024 s q e l); try done.
  destruct Hr as [-> Hr]. split; [done | lia].
Qed.


(** ** Durations *)

(** [c / FRAME_RATE_HZ] for a float [c >= 1]: the quotient is at least
    [2 ** -6], or infinite. *)
Lemma truediv_frame_rate m e q :
  0 <= Z.log2 (Zpos m) + e ->
  PyFloat.truediv (S754_finite false m e) FRAME_RATE_HZ = Returns q ->
  (exists m' e', q = S754_finite false m' e' /\ -6 <= Z.log2 (Zpos m') + e') \/
  q = S754_infinity false.
Proof.
  intros Hmag [= <-].
  pose proof (div_round_normal false m e 7036874417766400 (-47)) as Hr.
  change (Z.log2 7036874417766400) with 52 in Hr. cbn zeta in Hr.
  specialize (Hr ltac:(lia)).
  change (SFdiv PyFloat.prec PyFloat.emax (S754_finite false m e) FRAME_RATE_HZ)
    with (let '(q, e', l) :=
            SFdiv_core_binary 53 1024 (Zpos m) e 7036874417766400 (-47) in
          binary_round_aux 53 1024 false q e' l).
  destruct (let '(q, e', l) := SFdiv_core_binary _ _ _ _ _ _ in _)
    as [?|s'| |s' m' e']; try done.
  - right. by rewrite Hr.
  - left. destruct Hr as [-> Hr]. exists m', e'. split; [done | lia].
Qed.

Lemma round_half_even_ge num den :
  num / den <= PyFloat.round_half_even num den.
Proof.
  unfold PyFloat.round_half_even.
  destruct (2 * (num mod den) ?= den); try destruct (Z.even _); lia.
Qed.

(** [round(q, 2)] of a float [q >= 2 ** -6] is a positive float: at least
    one hundredth is left. *)
Lemma round_2_positive m e d :
  -6 <= Z.log2 (Zpos m) + e ->
  PyFloat.round (S754_finite false m e) 2 = Returns d ->
  exists m' e', d = S754_finite false m' e'.
Proof.
  intros Hmag. unfold PyFloat.round.
  change (323 <? 2)%N with false. change (10 ^ Z.of_N 2) with 100.
  change (Z.to_pos 100) with 100%positive. cbn iota zeta.
  set (k := if 0 <=? e then _ else _).
  assert (Hk : 1 <= k).
  { subst k. destruct (Z.leb_spec 0 e) as [He|He].
    - pose proof (Z.pow_pos_nonneg 2 e ltac:(lia) He). nia.
    - etrans; [|apply round_half_even_ge].
      pose proof (Z.pow_pos_nonneg 2 (- e) ltac:(lia) ltac:(lia)) as Hden.
      apply Z.div_le_lower_bound; [done|].
      destruct (Z.log2_spec (Zpos m) ltac:(lia)) as [Hlo _].
      pose proof (Z.log2_nonneg (Zpos m)) as Hl.
      assert (2 ^ (- e) <= 2 ^ (Z.log2 (Zpos m) + 6)) as Hle
        by (apply Z.pow_le_mono_r; lia).
      rewrite Z.pow_add_r in Hle by lia. change (2 ^ 6) with 64 in Hle. lia. }
  destruct k as [|k'|k']; [lia| |lia].
  unfold PyFloat.round_quotient.
  pose proof (div_round_normal false k' 0 100 0) as Hr.
  change (Z.log2 100) with 6 in Hr. cbn zeta in Hr.
  pose proof (Z.log2_nonneg (Zpos k')) as Hl.
  specialize (Hr ltac:(lia)).
  change PyFloat.prec with 53. change PyFloat.emax with 1024.
  destruct (let '(q, e', l) := SFdiv_core_binary _ _ _ _ _ _ in _)
    as [?|s'| |s' m' e']; try done.
  destruct Hr as [-> _]. intros [= <-]. eauto.
Qed.

(** For [count >= 1] the rounded value, whenever the computation does not
    raise, is greater than 0, so the clamp leaves it alone. *)
Lemma computed_duration_positive count d :
  1 <= count -> computed_duration count = Returns d ->
  PyFloat.ltb PyFloat.zero d = true /\
  PyFloat.leb d PyFloat.zero = false /\
  duration_of count = Returns d.
Proof.
  intros Hcount Hd.
  assert (Hpos : (exists m e, d = S754_finite false m e) \/ d = S754_infinity false).
  { unfold computed_duration in Hd.
    apply bind_Returns in Hd as (c & Hc & Hd).
    apply bind_Returns in Hd as (q & Hq & Hd).
    apply of_int_positive in Hc as (m & e & -> & Hmag); [|done].
    apply truediv_frame_rate in Hq as [(m' & e' & -> & Hmag')| ->]; [| |done].
    - left. by eapply round_2_positive.
    - right. by injection Hd as <-. }
  assert (Hgt : PyFloat.ltb PyFloat.zero d = true /\ PyFloat.leb d PyFloat.zero = false).
  { by destruct Hpos as [(m & e & ->)| ->]. }
  destruct Hgt as [Hlt Hle]. split_and!; [done..|].
  unfold duration_of. rewrite Hd. simpl. by rewrite Hle.
Qed.

Lemma duration_of_computed count d :
  1 <= count -> duration_of count = Returns d -> computed_duration count = Returns d.
Proof.
  intros Hcount Hd. pose proof Hd as Hd'. unfold duration_of in Hd'.
  apply bind_Returns in Hd' as (d' & Hc & _).
  destruct (computed_duration_positive _ _ Hcount Hc) as (_ & _ & H).
  congruence.
Qed.

(** The records the loop appends: one per pair, holding the token, the
    duration of the count and a slice of that many codes. *)
Lemma build_loop_records codes pairs offset words result :
  0 <= offset ->
  Forall (fun c => 1 <= c) pairs.*2 ->
  offset + sum pairs.*2 <= Z.of_nat (length codes) ->
  build_loop codes pairs offset words = Returns result ->
  exists new,
    result = words ++ new /\
    Forall2 (fun w p => rec_word w = p.1 /\
                        duration_of p.2 = Returns (rec_duration w) /\
                        Z.of_nat (length (rec_codes w)) = p.2) new pairs.
Proof.
  revert offset words. induction pairs as [|[token count] pairs IH];
    intros offset words Hoff Hpos Hlen; csimpl in *.
  - intros [= <-]. exists []. by rewrite app_nil_r.
  - apply Forall_cons in Hpos as [Hc Hpos]. fold (sum pairs.*2) in *.
    pose proof (sum_ge_length _ Hpos) as Hsum.
    intros (duration & Hdur & Hb)%bind_Returns.
    apply IH in Hb as (new & -> & Hnew); [|lia|done|lia].
    eexists (_ :: new). rewrite <- app_assoc. split; [done|].
    constructor; [|done]. simpl. split_and!; [done..|].
    rewrite slice_in_range by lia.
    rewrite length_take, length_drop. lia.
Qed.

(** C9 (duration clamp).  Each record returned by
    [_build_words_from_codes] holds a slice of [count] codes and the
    duration [duration_of count], which is [round(count / 50.0, 2)], replaced
    by [round(1.0 / 50.0, 2)] when that value is [<= 0].  The counts are at
    least 1, and for [count >= 1] the rounded value is greater than 0: the
    test of the clamp is false and the duration is the rounded value
    itself. *)
Theorem duration_clamp_unreachable (codes : list Z) (transcript_tokens : list string)
    (words : list WordRecord) :
  _build_words_from_codes codes transcript_tokens = Returns words ->
  (exists counts0,
     _distribute_codes (Z.of_nat (length codes))
       (map (fun token => Z.max 1 (Z.of_nat (String.length token))) transcript_tokens)
       = Returns counts0 /\
     Forall2 (fun w count =>
                Z.of_nat (length (rec_codes w)) = count /\
                duration_of count = Returns (rec_duration w) /\
                computed_duration count = Returns (rec_duration w) /\
                PyFloat.ltb PyFloat.zero (rec_duration w) = true)
             words counts0) /\
  (forall count,
     duration_of count =
       (duration ← (c ← PyFloat.of_int count;
                    q ← PyFloat.truediv c FRAME_RATE_HZ;
                    PyFloat.round q 2);
        if PyFloat.leb duration PyFloat.zero then
          q ← PyFloat.truediv one_point_zero FRAME_RATE_HZ; PyFloat.round q 2
        else Returns duration)) /\
  (forall count d,
     1 <= count -> computed_duration count = Returns d ->
     PyFloat.ltb PyFloat.zero d = true /\
     PyFloat.leb d PyFloat.zero = false /\
     duration_of count = Returns d).
Proof.
  intros Hbuild. split_and!; [|done|apply computed_duration_positive].
  unfold _build_words_from_codes in Hbuild.
  apply bind_Returns in Hbuild as (counts0 & Hd & Hb).
  exists counts0. split; [done|].
  apply distribute_codes_counts in Hd as (Hsum & Hpos & Hlen).
  rewrite length_map in Hlen.
  assert (Hsnd : (zip transcript_tokens counts0).*2 = counts0)
    by (apply snd_zip; lia).
  apply build_loop_records in Hb as (new & -> & Hnew); rewrite ?Hsnd; [|lia|done|lia].
  simpl. rewrite <- Hsnd at 1. apply Forall2_fmap_r.
  assert (Hall : Forall (fun p : string * Z => 1 <= p.2) (zip transcript_tokens counts0)).
  { apply Forall_forall. intros [t c] Hin%elem_of_zip_r.
    rewrite Forall_forall in Hpos. by apply Hpos. }
  clear Hsnd. induction Hnew as [|w p ws ps (_ & Hdur & Hlen') _ IH]; [constructor|].
  apply Forall_cons in Hall as [Hp Hall]. constructor; [|by apply IH].
  pose proof (duration_of_computed _ _ Hp Hdur) as Hcomp.
  split_and!; try done. by apply (computed_duration_positive p.2).
Qed.

Lemma duration_clamp_unreachable_witness :
  let words :=
    [ {| rec_word := "a"; rec_duration := S754_finite false 5764607523034235 (-57);
         rec_codes := [11; 12] |};
      {| rec_word := "bcd"; rec_duration := S754_finite false 5764607523034235 (-56);
         rec_codes := [13; 14; 15; 16] |};
      {| rec_word := "e"; rec_duration := S754_finite false 5764607523034235 (-58);
         rec_codes := [17] |} ] in
  (exists counts0,
     _distribute_codes (Z.of_nat (length [11; 12; 13; 14; 15; 16; 17]))
       (map (fun token => Z.max 1 (Z.of_nat (String.length token)))
            ["a"; "bcd"; "e"]%string)
       = Returns counts0 /\
     Forall2 (fun w count =>
                Z.of_nat (length (rec_codes w)) = count /\
                duration_of count = Returns (rec_duration w) /\
                computed_duration count = Returns (rec_duration w) /\
                PyFloat.ltb PyFloat.zero (rec_duration w) = true)
             words counts0) /\
  (forall count,
     duration_of count =
       (duration ← (c ← PyFloat.of_int count;
                    q ← PyFloat.truediv c FRAME_RATE_HZ;
                    PyFloat.round q 2);
        if PyFloat.leb duration PyFloat.zero then
          q ← PyFloat.truediv one_point_zero FRAME_RATE_HZ; PyFloat.round q 2
        else Returns duration)) /\
  (forall count d,
     1 <= count -> computed_duration count = Returns d ->
     PyFloat.ltb PyFloat.zero d = true /\
     PyFloat.leb d PyFloat.zero = false /\
     duration_of count = Returns d).
Proof.
  apply (duration_clamp_unreachable [11; 12; 13; 14; 15; 16; 17]
           ["a"; "bcd"; "e"]%string).
  vm_compute. reflexivity.
Defined.

(** * Further properties *)

(** ** When the engine returns *)

Lemma bind_overflow_only {A B : Type} (c : outcome A) (k : A -> outcome B) :
  overflow_only c -> (forall x, c = Returns x -> overflow_only (k x)) ->
  overflow_only (c ≫= k).
Proof. destruct c as [x|[]|]; simpl; auto. Qed.

Lemma map_outcome_overflow_only {A B : Type} (f : A -> outcome B) xs :
  Forall (fun x => overflow_only (f x)) xs -> overflow_only (map_outcome f xs).
Proof.
  induction 1 as [|x xs Hx _ IH]; simpl; [done|].
  apply bind_overflow_only; [done|]. intros y _.
  apply bind_overflow_only; [done|]. done.
Qed.

Lemma map_outcome_Returns {A B : Type} (f : A -> outcome B) xs :
  Forall (fun x => exists y, f x = Returns y) xs ->
  exists ys, map_outcome f xs = Returns ys.
Proof.
  induction 1 as [|x xs [y Hy] _ [ys IH]]; simpl; [by eexists|].
  rewrite Hy, IH. simpl. by eexists.
Qed.

Lemma SFdiv_core_binary_nonneg prec emax a b q e l :
  SFdiv_core_binary prec emax (Zpos a) 0 (Zpos b) 0 = (q, e, l) -> 0 <= q.
Proof.
  unfold SFdiv_core_binary.
  set (m' := match _ - _ with Z.pos _ => Z.shiftl _ _ | 0 => _ | Z.neg _ => 0 end).
  assert (0 <= m').
  { subst m'. destruct (_ - _); try lia. apply Z.shiftl_nonneg. lia. }
  pose proof (Z.div_pos m' (Zpos b) ltac:(done) ltac:(lia)) as Hq.
  unfold Z.div in Hq. destruct (Z.div_eucl m' (Z.pos b)) as [q0 r0].
  by intros [= <- _ _].
Qed.

Lemma round_quotient_not_nan neg a b : PyFloat.round_quotient neg a b <> S754_nan.
Proof.
  unfold PyFloat.round_quotient.
  destruct (SFdiv_core_binary _ _ _ _ _ _) as [[q e] l] eqn:Hdiv.
  apply SFdiv_core_binary_nonneg in Hdiv. by apply binary_round_aux_not_nan.
Qed.

(** A true division of integers that returns, returns a number; with a
    nonzero divisor the only exception is [OverflowError]. *)
Lemma int_truediv_number a b f :
  PyFloat.int_truediv a b = Returns f -> is_number f.
Proof.
  unfold PyFloat.int_truediv.
  destruct b as [|b|b]; [done| |]; (destruct a as [|a|a]; [by intros [= <-]| |]);
    match goal with |- context [PyFloat.round_quotient ?s ?x ?y] =>
      pose proof (round_quotient_not_nan s x y) as Hnan;
      destruct (PyFloat.round_quotient s x y) end;
    intros [= <-]; done.
Qed.

Lemma int_truediv_overflow_only a b :
  b <> 0 -> overflow_only (PyFloat.int_truediv a b).
Proof.
  intros Hb. unfold PyFloat.int_truediv.
  destruct b; [done| |]; (destruct a; [done| |]);
    by destruct (PyFloat.round_quotient _ _ _).
Qed.

Lemma of_int_overflow_only n : overflow_only (PyFloat.of_int n).
Proof. unfold PyFloat.of_int. by destruct (binary_normalize _ _ _ _ _). Qed.

Lemma floor_number x : is_number x -> exists n, PyFloat.floor x = Returns n.
Proof. destruct x; simpl; try done; eauto. Qed.

Lemma fractional_of_overflow_only share :
  is_number share -> overflow_only (fractional_of share).
Proof.
  intros [n Hn]%floor_number. unfold fractional_of. rewrite Hn. simpl.
  apply bind_overflow_only; [apply of_int_overflow_only | done].
Qed.

Lemma sum_insert (l : list Z) i c c' :
  l !! i = Some c -> sum (<[i := c']> l) = sum l - c + c'.
Proof.
  revert i. induction l as [|x l IH]; intros [|i]; simpl; try done.
  - intros [= ->]. lia.
  - intros H. rewrite (IH _ H). lia.
Qed.

Lemma sum_all_ones (l : list Z) :
  (forall i c, l !! i = Some c -> c = 1) -> sum l = Z.of_nat (length l).
Proof.
  induction l as [|x l IH]; intros H; simpl; [done|].
  rewrite (H 0%nat x) by done. rewrite IH; [lia|].
  intros i c Hi. by apply (H (S i)).
Qed.

Lemma elem_of_delete_or {A : Type} (l : list A) pos x :
  x ∈ l -> x ∈ delete pos l \/ l !! pos = Some x.
Proof.
  revert pos. induction l as [|y l IH]; intros pos Hx; [by apply elem_of_nil in Hx|].
  apply elem_of_cons in Hx as [->|Hx]; destruct pos as [|pos]; simpl.
  - by right.
  - left. apply elem_of_cons. by left.
  - by left.
  - destruct (IH pos Hx) as [?|?]; [left|by right]. apply elem_of_cons. by right.
Qed.

(** A property every completed iteration keeps holds when the loop returns,
    and then the loop condition is false. *)
Lemma while_loop_invariant (P : LoopState -> Prop) step fuel st st' :
  (forall s s', loop_cond s = true -> P s -> loop_body step s = Returns s' -> P s') ->
  P st -> while_loop fuel step st = Returns st' ->
  P st' /\ loop_cond st' = false.
Proof.
  intros Hstep. revert st. induction fuel as [|fuel IH]; intros st HP; simpl.
  - destruct (loop_cond st) eqn:Hc; [done|]. by intros [= <-].
  - destruct (loop_cond st) eqn:Hc; [|by intros [= <-]].
    intros (st1 & Hb & Hw)%bind_Returns. eauto.
Qed.

Lemma loop_body_invariant total_codes step st st' :
  step = 1 \/ step = -1 ->
  loop_cond st = true -> loop_invariant total_codes step st ->
  loop_body step st = Returns st' -> loop_invariant total_codes step st'.
Proof.
  intros Hstep [Hrem Hne]%loop_cond_true (Hsum & Hr & Hlen & Hpos & Hidx & Hadd & Hsub).
  unfold loop_body.
  destruct (idx_list st !! _) as [idx|] eqn:Hl; [|done].
  destruct (counts st !! idx) as [c|] eqn:Hc; [|done].
  assert (Hc1 : 1 <= c).
  { rewrite Forall_forall in Hpos. by eapply Hpos, list_elem_of_lookup_2. }
  destruct (Z.leb_spec (c + step) 0) as [Hle|Hgt]; intros [= <-];
    unfold loop_invariant; simpl.
  - (* the index is dropped *)
    assert (step = -1 /\ c = 1) as [-> ->] by lia.
    split_and!; try done.
    + rewrite Forall_forall in Hidx. apply Forall_forall. intros i Hi.
      apply Hidx. eapply elem_of_sublist; [done | apply sublist_delete].
    + intros _ i c Hi. destruct (Hsub eq_refl i c Hi) as [Hin|?]; [|by right].
      apply (elem_of_delete_or _ (pointer st `mod` length (idx_list st))%nat) in Hin
        as [?|Hin]; [by left|].
      right. rewrite Hl in Hin. injection Hin as ->. congruence.
  - (* the count is adjusted *)
    rewrite length_insert, (sum_insert _ _ c) by done.
    split_and!; try done; try lia.
    + apply Forall_insert; [done | lia].
    + intros Hs i c' Hi. destruct (decide (i = idx)) as [->|Hne'].
      * left. by eapply list_elem_of_lookup_2.
      * rewrite list_lookup_insert_ne in Hi by done. by apply Hsub.
Qed.

(** When the loop stops with the invariant, the counts add up to
    [total_codes]. *)
Lemma loop_exit_sum total_codes step st :
  step = 1 \/ step = -1 ->
  loop_invariant total_codes step st -> loop_cond st = false ->
  sum (counts st) = total_codes /\ remaining st = 0.
Proof.
  intros Hstep (Hsum & Hr & Hlen & Hpos & Hidx & Hadd & Hsub) Hc.
  assert (Hexit : remaining st <= 0 \/ idx_list st = []).
  { destruct (Z.ltb_spec 0 (remaining st)); [|by left]. right.
    destruct (idx_list st) eqn:Hl; [done|].
    unfold loop_cond in Hc. rewrite Hl in Hc.
    apply andb_false_iff in Hc as [Hc|Hc]; [lia|].
    by rewrite bool_decide_eq_false_2 in Hc. }
  destruct Hexit as [?|Hnil]; [lia|].
  destruct Hstep as [->| ->]; [by destruct Hadd|].
  assert (sum (counts st) = Z.of_nat (length (counts st))).
  { apply sum_all_ones. intros i c Hi.
    destruct (Hsub eq_refl i c Hi) as [Hin|?]; [|done].
    rewrite Hnil in Hin. by apply elem_of_nil in Hin. }
  lia.
Qed.

(** The state the loop starts from satisfies the invariant. *)
Lemma initial_state_invariant total_codes (counts0 : list Z) fractional :
  length counts0 = length fractional ->
  Forall (fun c => 1 <= c) counts0 ->
  (0 < length counts0)%nat ->
  Z.of_nat (length counts0) <= total_codes ->
  let delta := total_codes - sum counts0 in
  loop_invariant total_codes (if 0 <? delta then 1 else -1)
    {| counts := counts0; idx_list := ranking fractional (0 <? delta);
       remaining := Z.abs delta; pointer := 0 |}.
Proof.
  intros Hlen Hpos Hn Hfeas delta. unfold loop_invariant. simpl. split_and!; try done.
  - destruct (Z.ltb_spec 0 delta); lia.
  - lia.
  - apply Forall_forall. intros i Hi.
    rewrite ranking_Permutation in Hi. apply elem_of_seq in Hi. lia.
  - intros _ Hnil. apply (f_equal length) in Hnil.
    rewrite ranking_Permutation, length_seq in Hnil. simpl in Hnil. lia.
  - intros _ i c Hi. left. rewrite ranking_Permutation. apply elem_of_seq.
    apply lookup_lt_Some in Hi. lia.
Qed.

(** With at most as many weights as codes, and the shares at hand, the
    redistribution returns counts that add up to [total_codes], each at
    least 1, unless a remainder overflows. *)
Lemma redistribute_feasible total_codes shares counts0 :
  Forall is_number shares ->
  length counts0 = length shares ->
  Forall (fun c => 1 <= c) counts0 ->
  (0 < length counts0)%nat ->
  Z.of_nat (length counts0) <= total_codes ->
  match redistribute shares counts0 (total_codes - sum counts0) with
  | Returns counts1 =>
      sum counts1 = total_codes /\ Forall (fun c => 1 <= c) counts1 /\
      length counts1 = length counts0
  | Raises (OverflowError _) => True
  | _ => False
  end.
Proof.
  intros Hnum Hlen Hpos Hn Hfeas. unfold redistribute.
  assert (Hfr : overflow_only (map_outcome fractional_of shares)).
  { apply map_outcome_overflow_only.
    eapply Forall_impl; [done|]. apply fractional_of_overflow_only. }
  destruct (map_outcome fractional_of shares) as [fractional|[]|] eqn:Hfrac; try done.
  simpl. rewrite <- (map_outcome_length _ _ _ Hfrac) in Hlen.
  pose proof (initial_state_invariant total_codes counts0 fractional
                Hlen Hpos Hn Hfeas) as Hinv. simpl in Hinv.
  set (delta := total_codes - sum counts0) in *.
  set (step := if 0 <? delta then 1 else -1) in *.
  set (st := {| counts := counts0; idx_list := ranking fractional (0 <? delta);
                remaining := Z.abs delta; pointer := 0 |}) in *.
  assert (Hstep : step = 1 \/ step = -1) by (subst step; destruct (0 <? delta); auto).
  destruct Hinv as (H1 & H2 & H3 & H4 & Hidx & H6 & H7).
  destruct (while_loop_Returns step (loop_budget st) st Hidx ltac:(done)) as [st' Hw].
  rewrite Hw. simpl.
  destruct (while_loop_counts _ _ _ _ Hw) as [Hl _].
  apply (while_loop_invariant (loop_invariant total_codes step)) in Hw as [Hinv' Hc];
    [|by eauto using loop_body_invariant|by split_and!].
  destruct (loop_exit_sum _ _ _ Hstep Hinv' Hc) as [Hsum _].
  destruct Hinv' as (_ & _ & _ & Hpos' & _). done.
Qed.

Lemma shares_numbers total_codes total_weight weights shares :
  map_outcome (share_of total_codes total_weight) weights = Returns shares ->
  Forall is_number shares.
Proof.
  intros H%map_outcome_Forall2.
  induction H as [|w s ? ? Hs _ IH]; constructor; [|done].
  by apply int_truediv_number in Hs.
Qed.

Lemma initial_counts_Return shares :
  Forall is_number shares -> exists counts0, map_outcome initial_count shares = Returns counts0.
Proof.
  intros H. apply map_outcome_Returns. eapply Forall_impl; [done|].
  intros s [n Hn]%floor_number. unfold initial_count. rewrite Hn. by eexists.
Qed.

Lemma rebalance_feasible total_codes weights :
  weights <> [] -> 0 < sum weights ->
  Z.of_nat (length weights) <= total_codes ->
  match rebalance total_codes weights with
  | Returns counts1 =>
      sum counts1 = total_codes /\ Forall (fun c => 1 <= c) counts1 /\
      length counts1 = length weights
  | Raises (OverflowError _) => True
  | _ => False
  end.
Proof.
  intros Hne Hw Hfeas. unfold rebalance.
  assert (Hsh : overflow_only (map_outcome (share_of total_codes (sum weights)) weights)).
  { apply map_outcome_overflow_only, Forall_forall. intros w _.
    apply int_truediv_overflow_only. lia. }
  destruct (map_outcome (share_of _ _) weights) as [shares|[]|] eqn:Hshares; try done.
  simpl. pose proof (shares_numbers _ _ _ _ Hshares) as Hnum.
  destruct (initial_counts_Return _ Hnum) as [counts0 Hc0]. rewrite Hc0. simpl.
  pose proof (initial_counts_positive _ _ Hc0) as Hpos.
  assert (Hlen0 : length counts0 = length shares) by (by eapply map_outcome_length).
  assert (Hlen : length shares = length weights) by (by eapply map_outcome_length).
  assert (Hn : (0 < length counts0)%nat)
    by (rewrite Hlen0, Hlen; destruct weights; simpl; [done | lia]).
  destruct (Z.eqb_spec (total_codes - sum counts0) 0) as [Hd|Hd].
  { split_and!; [lia | done | congruence]. }
  pose proof (redistribute_feasible total_codes shares counts0 Hnum Hlen0 Hpos Hn
                ltac:(lia)) as Hr.
  destruct (redistribute shares counts0 _) as [counts1|[]|]; try done.
  destruct Hr as (? & ? & ?). split_and!; [done..|congruence].
Qed.

(** ** The residue on the last word *)

Example residue_on_last_word_example : finalise 5 [1; 1] = Returns [1; 4].
Proof. vm_compute. reflexivity. Qed.

(** Inside [_distribute_codes] a residue that is not zero always ends in
    the raise: the loop leaves one only when every word has been dropped
    from [idx_list], that is when there are more words than codes. *)
Lemma residue_means_infeasible total_codes weights counts1 :
  0 < total_codes -> weights <> [] -> 0 < sum weights ->
  rebalance total_codes weights = Returns counts1 ->
  sum counts1 <> total_codes ->
  finalise total_codes counts1 =
    Raises (ValueError "Code distribution resulted in non-positive segment length.").
Proof.
  intros Htotal Hne Hsum Hr Hres.
  destruct (Z.le_gt_cases (Z.of_nat (length weights)) total_codes) as [Hfeas|Hinf].
  - pose proof (rebalance_feasible total_codes weights Hne Hsum Hfeas) as Hf.
    rewrite Hr in Hf. by destruct Hf as (? & _).
  - apply rebalance_Returns in Hr as [Hl Hpos].
    apply finalise_infeasible; [lia | done | lia].
Qed.

(** C5 (residue on the last word).  Lines 156-166, on any list of counts
    that is not empty, written [init ++ [last]]: the residue
    [total_codes - sum(counts)] is added to the last count and to no other;
    if some count of the resulting list is [<= 0] the block raises the
    [ValueError] of the positivity check, and otherwise it returns that
    list.  [_distribute_codes] runs this block on the counts the
    redistribution produced; there, a residue that is not zero always ends
    in the raise. *)
Theorem residue_goes_to_last_word (total_codes : Z) (counts1 : list Z) :
  counts1 <> [] ->
  exists init last,
    counts1 = init ++ [last] /\
    finalise total_codes counts1 =
      (if existsb (fun count => count <=? 0)
                  (init ++ [last + (total_codes - sum counts1)])
       then Raises (ValueError "Code distribution resulted in non-positive segment length.")
       else Returns (init ++ [last + (total_codes - sum counts1)])) /\
    (forall weights,
       0 < total_codes -> weights <> [] -> 0 < sum weights ->
       rebalance total_codes weights = Returns counts1 ->
       _distribute_codes total_codes weights = finalise total_codes counts1 /\
       (sum counts1 <> total_codes ->
        _distribute_codes total_codes weights =
          Raises (ValueError "Code distribution resulted in non-positive segment length."))).
Proof.
  intros Hne. destruct (nonempty_snoc _ Hne) as (init & last & Heq).
  exists init, last. split; [done|]. split.
  - rewrite finalise_absorb by done. unfold absorb_residue.
    destruct (Z.eqb_spec (sum counts1) total_codes) as [Hs|Hs].
    + replace (total_codes - sum counts1) with 0 by lia.
      by rewrite Z.add_0_r, <- Heq.
    + assert (Hrev : reverse counts1 = last :: reverse init)
        by (by rewrite Heq, reverse_snoc).
      by rewrite Hrev, reverse_involutive.
  - intros weights Htotal Hw Hsum Hr.
    assert (Hd : _distribute_codes total_codes weights = finalise total_codes counts1).
    { unfold _distribute_codes.
      destruct (Z.leb_spec total_codes 0); [lia|].
      destruct (bool_decide_reflect (weights = [])); [done|].
      destruct (Z.leb_spec (sum weights) 0); [lia|].
      by rewrite Hr. }
    split; [done|]. intros Hres. rewrite Hd.
    by eapply residue_means_infeasible.
Qed.

Lemma residue_goes_to_last_word_witness :
  exists init last,
    [1; 1] = init ++ [last] /\
    finalise 5 [1; 1] =
      (if existsb (fun count => count <=? 0) (init ++ [last + (5 - sum [1; 1])])
       then Raises (ValueError "Code distribution resulted in non-positive segment length.")
       else Returns (init ++ [last + (5 - sum [1; 1])])) /\
    (forall weights,
       0 < 5 -> weights <> [] -> 0 < sum weights ->
       rebalance 5 weights = Returns [1; 1] ->
       _distribute_codes 5 weights = finalise 5 [1; 1] /\
       (sum [1; 1] <> 5 ->
        _distribute_codes 5 weights =
          Raises (ValueError "Code distribution resulted in non-positive segment length."))).
Proof.
  apply (residue_goes_to_last_word 5 [1; 1]). discriminate.
Defined.

(** ** How the extra units are spread *)

Lemma visits_0 n r : 0 < n -> 0 <= r -> visits n 0 r = 0.
Proof.
  intros Hn Hr. unfold visits. rewrite Z.div_0_l, Z.mod_0_l by lia.
  destruct (Z.ltb_spec r 0); lia.
Qed.

Lemma visits_succ n p r :
  0 < n -> 0 <= p -> 0 <= r < n ->
  visits n (p + 1) r = visits n p r + (if r =? p mod n then 1 else 0).
Proof.
  intros Hn Hp Hr. unfold visits.
  pose proof (Z.mod_pos_bound p n Hn) as Hm.
  pose proof (Z.div_mod p n ltac:(lia)) as Hdm.
  destruct (Z.eq_dec (p mod n) (n - 1)) as [Hlast|Hlast].
  - assert (Hq : (p + 1) / n = p / n + 1).
    { symmetry. apply (Z.div_unique _ _ _ 0); lia. }
    assert (Hr' : (p + 1) mod n = 0).
    { symmetry. apply (Z.mod_unique _ _ (p / n + 1)); lia. }
    rewrite Hq, Hr'.
    destruct (Z.ltb_spec r 0), (Z.ltb_spec r (p mod n)), (Z.eqb_spec r (p mod n)); lia.
  - assert (Hq : (p + 1) / n = p / n).
    { symmetry. apply (Z.div_unique _ _ _ (p mod n + 1)); lia. }
    assert (Hr' : (p + 1) mod n = p mod n + 1).
    { symmetry. apply (Z.mod_unique _ _ (p / n)); lia. }
    rewrite Hq, Hr'.
    destruct (Z.ltb_spec r (p mod n + 1)), (Z.ltb_spec r (p mod n)),
      (Z.eqb_spec r (p mod n)); lia.
Qed.

(** While units are added, the walk is a plain round robin over the
    ranking: after [pointer] iterations the index at rank [r] has received
    [visits n pointer r] units. *)
Lemma round_robin_step (counts0 : list Z) (ranked : list nat) delta st st' :
  NoDup ranked -> ranked <> [] ->
  loop_cond st = true ->
  (idx_list st = ranked /\
   remaining st = delta - Z.of_nat (pointer st) /\
   Forall (fun c => 1 <= c) (counts st) /\
   forall r idx c0, ranked !! r = Some idx -> counts0 !! idx = Some c0 ->
     counts st !! idx =
       Some (c0 + visits (Z.of_nat (length ranked)) (Z.of_nat (pointer st)) (Z.of_nat r))) ->
  loop_body 1 st = Returns st' ->
  (idx_list st' = ranked /\
   remaining st' = delta - Z.of_nat (pointer st') /\
   Forall (fun c => 1 <= c) (counts st') /\
   forall r idx c0, ranked !! r = Some idx -> counts0 !! idx = Some c0 ->
     counts st' !! idx =
       Some (c0 + visits (Z.of_nat (length ranked)) (Z.of_nat (pointer st')) (Z.of_nat r))).
Proof.
  intros Hnd Hne Hcond (Hidx & Hrem & Hpos & Hcounts). unfold loop_body.
  rewrite Hidx.
  set (n := length ranked). set (pos := (pointer st `mod` n)%nat).
  assert (Hn : (0 < n)%nat) by (subst n; destruct ranked; simpl; [done | lia]).
  assert (Hposlt : (pos < n)%nat) by (apply Nat.mod_upper_bound; lia).
  destruct (ranked !! pos) as [idx|] eqn:Hl; [|done].
  destruct (counts st !! idx) as [c|] eqn:Hc; [|done].
  assert (Hc1 : 1 <= c).
  { rewrite Forall_forall in Hpos. by eapply Hpos, list_elem_of_lookup_2. }
  destruct (Z.leb_spec (c + 1) 0); [lia|]. intros [= <-]. simpl.
  split_and!; [done | lia | apply Forall_insert; [done | lia] |].
  intros r idx' c0 Hr Hc0.
  assert (Hrlt : (r < n)%nat) by (by eapply lookup_lt_Some).
  replace (Z.of_nat (S (pointer st))) with (Z.of_nat (pointer st) + 1) by lia.
  rewrite visits_succ by lia.
  replace (Z.of_nat (pointer st) mod Z.of_nat n) with (Z.of_nat pos)
    by (subst pos; apply Nat2Z.inj_mod).
  destruct (Z.eqb_spec (Z.of_nat r) (Z.of_nat pos)) as [Heq|Hneq].
  - assert (r = pos) as -> by lia. rewrite Hl in Hr. injection Hr as <-.
    rewrite list_lookup_insert_eq by (by eapply lookup_lt_Some).
    specialize (Hcounts _ _ _ Hl Hc0). rewrite Hc in Hcounts.
    injection Hcounts as ->. f_equal. subst n. lia.
  - assert (idx' <> idx).
    { intros ->. apply Hneq. f_equal. by eapply NoDup_lookup. }
    rewrite list_lookup_insert_ne by done.
    rewrite (Hcounts _ _ _ Hr Hc0). f_equal. subst n. lia.
Qed.

(** X1 (largest remainders first, round robin).  When the initial counts
    add up to less than [total_codes], the [delta] missing units are handed
    out one per word along the descending-remainder ranking, cyclically: the
    word at rank [r] ends with its initial count plus [delta / n], plus one
    more if [r < delta mod n] ([n] words).  In particular, for [delta < n]
    exactly the [delta] best-ranked words get one extra code. *)
Theorem extras_follow_ranking (total_codes : Z) (weights : list Z)
    (shares fractional : list PyFloat.float) (counts0 counts2 : list Z)
    (r idx : nat) (c0 : Z) :
  map_outcome (share_of total_codes (sum weights)) weights = Returns shares ->
  map_outcome initial_count shares = Returns counts0 ->
  map_outcome fractional_of shares = Returns fractional ->
  0 < total_codes - sum counts0 ->
  _distribute_codes total_codes weights = Returns counts2 ->
  ranking fractional true !! r = Some idx -> counts0 !! idx = Some c0 ->
  counts2 !! idx =
    Some (c0 + visits (Z.of_nat (length weights)) (total_codes - sum counts0)
                 (Z.of_nat r)).
Proof.
  intros Hshares Hc0 Hfrac Hdelta Hret Hr Hidx0.
  apply distribute_codes_Returns in Hret as (counts1 & _ & Hne & _ & Hreb & Hfin).
  pose proof (initial_counts_positive _ _ Hc0) as Hpos.
  assert (Hlen0 : length counts0 = length fractional).
  { rewrite (map_outcome_length _ _ _ Hc0). symmetry. by eapply map_outcome_length. }
  assert (Hlenw : length fractional = length weights).
  { rewrite (map_outcome_length _ _ _ Hfrac). by eapply map_outcome_length. }
  assert (Hn : (0 < length counts0)%nat)
    by (rewrite Hlen0, Hlenw; destruct weights; simpl; [done | lia]).
  pose proof (sum_ge_length _ Hpos) as Hsum0.
  pose proof (initial_state_invariant total_codes counts0 fractional
                Hlen0 Hpos Hn ltac:(lia)) as Hinv. simpl in Hinv.
  unfold rebalance in Hreb. rewrite Hshares in Hreb. simpl in Hreb.
  rewrite Hc0 in Hreb. simpl in Hreb.
  set (delta := total_codes - sum counts0) in *.
  replace (delta =? 0) with false in Hreb by lia.
  unfold redistribute in Hreb. rewrite Hfrac in Hreb. simpl in Hreb.
  replace (0 <? delta) with true in * by lia.
  set (ranked := ranking fractional true) in *.
  set (st := {| counts := counts0; idx_list := ranked;
                remaining := Z.abs delta; pointer := 0 |}) in *.
  apply bind_Returns in Hreb as (st' & Hw & [= <-]).
  assert (Hnd : NoDup ranked).
  { subst ranked. rewrite ranking_Permutation. apply NoDup_seq. }
  assert (Hlenr : length ranked = length weights).
  { subst ranked. by rewrite ranking_Permutation, length_seq. }
  assert (Hrne : ranked <> []).
  { intros Hnil. rewrite Hnil in Hlenr. simpl in Hlenr. lia. }
  pose proof Hw as Hw2.
  apply (while_loop_invariant (loop_invariant total_codes 1)) in Hw2 as [Hinv' Hc];
    [|by eauto using loop_body_invariant|done].
  destruct (loop_exit_sum _ _ _ ltac:(by left) Hinv' Hc) as [Hsum Hrem0].
  apply (while_loop_invariant (fun s =>
           0 <= remaining s /\
           idx_list s = ranked /\
           remaining s = delta - Z.of_nat (pointer s) /\
           Forall (fun c => 1 <= c) (counts s) /\
           forall r idx c0, ranked !! r = Some idx -> counts0 !! idx = Some c0 ->
             counts s !! idx =
               Some (c0 + visits (Z.of_nat (length ranked)) (Z.of_nat (pointer s))
                            (Z.of_nat r)))) in Hw as [(_ & _ & Hptr & _ & Hvis) _].
  - rewrite finalise_absorb in Hfin
      by (intros Hnil; rewrite Hnil in Hsum; simpl in Hsum; lia).
    unfold absorb_residue in Hfin. rewrite Hsum, Z.eqb_refl in Hfin.
    destruct (existsb _ _); [done|]. injection Hfin as <-.
    rewrite (Hvis _ _ _ Hr Hidx0). rewrite Hlenr.
    replace (Z.of_nat (pointer st')) with delta by lia. done.
  - intros s s' Hcond (Hrem & Hrest) Hbody. split.
    + apply loop_cond_true in Hcond as [? _].
      destruct (loop_body_progress _ _ _ Hbody) as [[-> _]|[-> _]]; lia.
    + by eapply round_robin_step.
  - simpl. split_and!; [lia | done | lia | done |].
    intros r' idx' c0' Hr' Hc0'. rewrite Hc0'. f_equal.
    rewrite visits_0; [lia | | lia].
    apply lookup_lt_Some in Hr'. lia.
Qed.

Lemma extras_follow_ranking_witness :
  [6; 23; 12; 41; 18] !! 2%nat =
    Some (11 + visits (Z.of_nat (length [1; 4; 2; 7; 3])) (100 - sum [5; 23; 11; 41; 17])
                 (Z.of_nat 1)).
Proof.
  apply (extras_follow_ranking 100 [1; 4; 2; 7; 3] shares_100_of_17
           fractional_100_of_17 [5; 23; 11; 41; 17] [6; 23; 12; 41; 18] 1 2 11);
    vm_compute; reflexivity.
Defined.

(** ** The ranking and the walk along it *)

Lemma visits_nonneg n p r : 0 < n -> 0 <= p -> 0 <= visits n p r.
Proof.
  intros Hn Hp. unfold visits. pose proof (Z.div_pos p n Hp Hn).
  destruct (r <? p mod n); lia.
Qed.

Lemma visits_mono n p q r :
  0 < n -> 0 <= p <= q -> 0 <= r < n -> visits n p r <= visits n q r.
Proof.
  intros Hn [Hp Hpq] Hr.
  assert (Hk : exists k : nat, q = p + Z.of_nat k) by (exists (Z.to_nat (q - p)); lia).
  destruct Hk as [k ->]. clear Hpq. induction k as [|k IH]; [by rewrite Z.add_0_r|].
  replace (p + Z.of_nat (S k)) with (p + Z.of_nat k + 1) by lia.
  rewrite visits_succ by lia. destruct (r =? _); lia.
Qed.

(** One iteration of the loop that drops no index keeps the walk cyclic. *)
Lemma cyclic_walk_step step D (counts0 : list Z) (ranked : list nat) st st' :
  NoDup ranked -> ranked <> [] ->
  (forall r idx, ranked !! r = Some idx -> is_Some (counts0 !! idx)) ->
  (forall r idx c0 p, ranked !! r = Some idx -> counts0 !! idx = Some c0 ->
     0 <= p <= D ->
     0 < c0 + step * visits (Z.of_nat (length ranked)) p (Z.of_nat r)) ->
  loop_cond st = true ->
  cyclic_walk_state step D counts0 ranked st ->
  loop_body step st = Returns st' ->
  cyclic_walk_state step D counts0 ranked st'.
Proof.
  intros Hnd Hne Hvalid Hroom [Hrem _]%loop_cond_true (Hidx & _ & Hremaining & Hcounts).
  unfold loop_body. rewrite Hidx.
  set (n := length ranked). set (pos := (pointer st `mod` n)%nat).
  assert (Hn : (0 < n)%nat) by (subst n; destruct ranked; simpl; [done | lia]).
  assert (Hposlt : (pos < n)%nat) by (apply Nat.mod_upper_bound; lia).
  destruct (ranked !! pos) as [idx|] eqn:Hl; [|done].
  destruct (Hvalid _ _ Hl) as [c0 Hc0].
  rewrite (Hcounts _ _ _ Hl Hc0).
  assert (Hpos_eq : Z.of_nat (pointer st) mod Z.of_nat n = Z.of_nat pos)
    by (subst pos; symmetry; apply Nat2Z.inj_mod).
  assert (Hnext : visits (Z.of_nat n) (Z.of_nat (pointer st) + 1) (Z.of_nat pos) =
                  visits (Z.of_nat n) (Z.of_nat (pointer st)) (Z.of_nat pos) + 1).
  { rewrite visits_succ by lia. rewrite Hpos_eq, Z.eqb_refl. done. }
  pose proof (Hroom _ _ _ (Z.of_nat (pointer st) + 1) Hl Hc0 ltac:(lia)) as Hgt.
  fold n in Hgt. rewrite Hnext in Hgt. fold n.
  destruct (Z.leb_spec
              (c0 + step * visits (Z.of_nat n) (Z.of_nat (pointer st)) (Z.of_nat pos) + step)
              0) as [Hle|_]; [lia|].
  intros [= <-]. unfold cyclic_walk_state. simpl. fold n.
  split_and!; [done | lia | lia |].
  intros r idx' c0' Hr Hc0'.
  assert (Hrlt : (r < n)%nat) by (by eapply lookup_lt_Some).
  replace (Z.of_nat (S (pointer st))) with (Z.of_nat (pointer st) + 1) by lia.
  rewrite visits_succ by lia. rewrite Hpos_eq.
  destruct (Z.eqb_spec (Z.of_nat r) (Z.of_nat pos)) as [Heq|Hneq].
  - assert (r = pos) as -> by lia. rewrite Hl in Hr. injection Hr as <-.
    rewrite Hc0 in Hc0'. injection Hc0' as <-.
    rewrite list_lookup_insert_eq.
    + f_equal. subst n. lia.
    + apply lookup_lt_is_Some. rewrite (Hcounts _ _ _ Hl Hc0). by eexists.
  - assert (idx' <> idx).
    { intros ->. apply Hneq. f_equal. by eapply NoDup_lookup. }
    rewrite list_lookup_insert_ne by done.
    rewrite (Hcounts _ _ _ Hr Hc0'). f_equal. subst n. lia.
Qed.

(** When no index is dropped, the redistribution is a cyclic walk along the
    ranking: rank [r] is visited [visits n D r] times, [D = abs(delta)]. *)
Lemma cyclic_walk shares fractional (counts0 : list Z) delta :
  map_outcome fractional_of shares = Returns fractional ->
  delta <> 0 ->
  length counts0 = length shares ->
  let ranked := ranking fractional (0 <? delta) in
  let n := Z.of_nat (length shares) in
  let step := if 0 <? delta then 1 else -1 in
  (forall r idx c0 p, ranked !! r = Some idx -> counts0 !! idx = Some c0 ->
     0 <= p <= Z.abs delta -> 0 < c0 + step * visits n p (Z.of_nat r)) ->
  exists counts1,
    redistribute shares counts0 delta = Returns counts1 /\
    forall r idx c0, ranked !! r = Some idx -> counts0 !! idx = Some c0 ->
      counts1 !! idx = Some (c0 + step * visits n (Z.abs delta) (Z.of_nat r)).
Proof.
  intros Hfr Hdelta Hlen ranked n step Hroom.
  assert (Hlenf : length fractional = length shares)
    by (by eapply map_outcome_length).
  assert (Hperm : ranked ≡ₚ seq 0 (length shares)).
  { subst ranked. by rewrite ranking_Permutation, Hlenf. }
  assert (Hlenr : length ranked = length shares) by (by rewrite Hperm, length_seq).
  assert (Hnd : NoDup ranked) by (rewrite Hperm; apply NoDup_seq).
  destruct (redistribute_Returns shares fractional counts0 delta Hfr Hlen)
    as [counts1 Hret].
  exists counts1. split; [done|].
  unfold redistribute in Hret. rewrite Hfr in Hret. simpl in Hret.
  fold ranked step in Hret.
  apply bind_Returns in Hret as (st' & Hw & [= <-]).
  destruct (decide (ranked = [])) as [Hnil|Hne].
  { intros r idx c0 Hr. by rewrite Hnil in Hr. }
  apply (while_loop_invariant
           (cyclic_walk_state step (Z.abs delta) counts0 ranked)) in Hw
    as [(Hidx & Hrem0 & Hrem & Hcounts) Hc].
  - assert (Hp : Z.of_nat (pointer st') = Z.abs delta).
    { unfold loop_cond in Hc. rewrite Hidx in Hc.
      rewrite (bool_decide_eq_false_2 _ Hne) in Hc. simpl in Hc.
      rewrite andb_true_r in Hc. apply Z.ltb_ge in Hc. lia. }
    intros r idx c0 Hr Hc0. rewrite (Hcounts _ _ _ Hr Hc0).
    rewrite Hp, Hlenr. done.
  - intros s s' Hcond Hs Hb. eapply cyclic_walk_step; try done.
    + intros r idx Hr. apply lookup_lt_is_Some. rewrite Hlen.
      apply list_elem_of_lookup_2 in Hr. rewrite Hperm in Hr.
      apply elem_of_seq in Hr. lia.
    + intros r idx c0 p Hr Hc0 Hp. rewrite Hlenr. by eapply Hroom.
  - unfold cyclic_walk_state. simpl. split_and!; [done | lia | lia |].
    intros r idx c0 Hr Hc0. rewrite Hc0. f_equal.
    apply lookup_lt_Some in Hr. change (Z.of_nat 0) with 0.
    rewrite visits_0; lia.
Qed.

(** C4 (redistribution ranking), as the code has it.  When [delta] is not
    zero, [idx_list] holds every word index once.  For [delta > 0] it is in
    descending order of the fractional remainder [share - floor(share)]; for
    [delta < 0] the sort is not reversed and [idx_list] is in ascending order
    of the remainder.  In both cases equal remainders keep their index
    order, and the loop starts from this [idx_list].

    The loop takes [idx_list[pointer % len(idx_list)]] at each iteration.
    For [delta > 0], with counts that are at least 1, no index is ever
    dropped and the walk is cyclic: the word at rank [r] receives
    [visits n delta r] units, that is [delta // n] plus one more if
    [r < delta % n].  For [delta < 0] the walk is cyclic in the same way as
    long as every word at rank [r] starts above [visits n (-delta) r], so
    that no index is dropped.  Once an index is dropped the walk need not be
    cyclic in the ranking: for [total=10, weights=[1,1,1,1,1,1,6,9,9]] the
    ranking is [[6,7,8,0,1,2,3,4,5]], four units are to be removed from
    [[1,1,1,1,1,1,2,3,3]], and the result is [[1,1,1,1,1,1,1,2,1]]: after
    indices 6, 7 and 8 have lost one unit each, the fourth unit is taken
    from index 8 again and not from index 7. *)
Theorem ranking_by_remainder (shares fractional : list PyFloat.float)
    (counts0 : list Z) (delta : Z) :
  map_outcome fractional_of shares = Returns fractional ->
  delta <> 0 ->
  let ranked := ranking fractional (0 <? delta) in
  let n := Z.of_nat (length shares) in
  ranked ≡ₚ seq 0 (length shares) /\
  (0 < delta -> StronglySorted (ranks_before fractional true) ranked) /\
  (delta < 0 -> StronglySorted (ranks_before fractional false) ranked) /\
  redistribute shares counts0 delta =
    (let st := {| counts := counts0; idx_list := ranked;
                  remaining := Z.abs delta; pointer := 0 |} in
     st' ← while_loop (loop_budget st) (if 0 <? delta then 1 else -1) st;
     Returns (counts st')) /\
  (0 < delta -> length counts0 = length shares ->
   Forall (fun c => 1 <= c) counts0 ->
   exists counts1,
     redistribute shares counts0 delta = Returns counts1 /\
     forall r idx c0, ranked !! r = Some idx -> counts0 !! idx = Some c0 ->
       counts1 !! idx = Some (c0 + visits n delta (Z.of_nat r))) /\
  (delta < 0 -> length counts0 = length shares ->
   (forall r idx c0, ranked !! r = Some idx -> counts0 !! idx = Some c0 ->
      visits n (- delta) (Z.of_nat r) < c0) ->
   exists counts1,
     redistribute shares counts0 delta = Returns counts1 /\
     forall r idx c0, ranked !! r = Some idx -> counts0 !! idx = Some c0 ->
       counts1 !! idx = Some (c0 - visits n (- delta) (Z.of_nat r))) /\
  (map_outcome (share_of 10 (sum [1; 1; 1; 1; 1; 1; 6; 9; 9])) [1; 1; 1; 1; 1; 1; 6; 9; 9]
     = Returns shares_10_of_30 /\
   map_outcome initial_count shares_10_of_30 = Returns [1; 1; 1; 1; 1; 1; 2; 3; 3] /\
   map_outcome fractional_of shares_10_of_30 = Returns fractional_10_of_30 /\
   ranking fractional_10_of_30 (0 <? 10 - sum [1; 1; 1; 1; 1; 1; 2; 3; 3])
     = [6; 7; 8; 0; 1; 2; 3; 4; 5]%nat /\
   redistribute shares_10_of_30 [1; 1; 1; 1; 1; 1; 2; 3; 3]
                (10 - sum [1; 1; 1; 1; 1; 1; 2; 3; 3])
     = Returns [1; 1; 1; 1; 1; 1; 1; 2; 1] /\
   _distribute_codes 10 [1; 1; 1; 1; 1; 1; 6; 9; 9] = Returns [1; 1; 1; 1; 1; 1; 1; 2; 1]).
Proof.
  intros Hfr Hdelta ranked n. subst ranked n.
  pose proof (fractionals_not_nan _ _ Hfr) as Hnan.
  assert (Hperm : ranking fractional (0 <? delta) ≡ₚ seq 0 (length shares)).
  { rewrite ranking_Permutation. by rewrite (map_outcome_length _ _ _ Hfr). }
  split_and!.
  - done.
  - intros Hpos. replace (0 <? delta) with true by lia.
    by apply ranking_StronglySorted.
  - intros Hneg. replace (0 <? delta) with false by lia.
    by apply ranking_StronglySorted.
  - unfold redistribute. by rewrite Hfr.
  - intros Hpos Hlen Hc0.
    destruct (cyclic_walk shares fractional counts0 delta Hfr Hdelta Hlen)
      as (counts1 & Hret & Hwalk).
    + intros r idx c0 p Hr Hidx Hp.
      replace (0 <? delta) with true by lia.
      assert (1 <= c0).
      { rewrite Forall_forall in Hc0. by eapply Hc0, list_elem_of_lookup_2. }
      assert (Hrn : (r < length shares)%nat).
      { apply lookup_lt_Some in Hr. by rewrite Hperm, length_seq in Hr. }
      pose proof (visits_nonneg (Z.of_nat (length shares)) p (Z.of_nat r)
                    ltac:(lia) ltac:(lia)). lia.
    + exists counts1. split; [done|]. intros r idx c0 Hr Hidx.
      rewrite (Hwalk r idx c0 Hr Hidx).
      replace (0 <? delta) with true by lia.
      replace (Z.abs delta) with delta by lia. f_equal; lia.
  - intros Hneg Hlen Hroom.
    destruct (cyclic_walk shares fractional counts0 delta Hfr Hdelta Hlen)
      as (counts1 & Hret & Hwalk).
    + intros r idx c0 p Hr Hidx Hp.
      replace (0 <? delta) with false by lia.
      assert (Hrn : (r < length shares)%nat).
      { apply lookup_lt_Some in Hr. by rewrite Hperm, length_seq in Hr. }
      pose proof (Hroom r idx c0 Hr Hidx) as Hlt.
      pose proof (visits_mono (Z.of_nat (length shares)) p (- delta) (Z.of_nat r)
                    ltac:(lia) ltac:(lia) ltac:(lia)). lia.
    + exists counts1. split; [done|]. intros r idx c0 Hr Hidx.
      rewrite (Hwalk r idx c0 Hr Hidx).
      replace (0 <? delta) with false by lia.
      replace (Z.abs delta) with (- delta) by lia. f_equal; lia.
  - vm_compute. reflexivity.
  - vm_compute. reflexivity.
  - vm_compute. reflexivity.
  - vm_compute. reflexivity.
  - vm_compute. reflexivity.
  - vm_compute. reflexivity.
Qed.

Lemma ranking_by_remainder_witness :
  let ranked := ranking fractional_6_of_14 (0 <? -1) in
  let n := Z.of_nat (length shares_6_of_14) in
  ranked ≡ₚ seq 0 (length shares_6_of_14) /\
  (0 < -1 -> StronglySorted (ranks_before fractional_6_of_14 true) ranked) /\
  (-1 < 0 -> StronglySorted (ranks_before fractional_6_of_14 false) ranked) /\
  redistribute shares_6_of_14 [1; 1; 2; 3] (-1) =
    (let st := {| counts := [1; 1; 2; 3]; idx_list := ranked;
                  remaining := Z.abs (-1); pointer := 0 |} in
     st' ← while_loop (loop_budget st) (if 0 <? -1 then 1 else -1) st;
     Returns (counts st')) /\
  (0 < -1 -> length [1; 1; 2; 3] = length shares_6_of_14 ->
   Forall (fun c => 1 <= c) [1; 1; 2; 3] ->
   exists counts1,
     redistribute shares_6_of_14 [1; 1; 2; 3] (-1) = Returns counts1 /\
     forall r idx c0, ranked !! r = Some idx -> [1; 1; 2; 3] !! idx = Some c0 ->
       counts1 !! idx = Some (c0 + visits n (-1) (Z.of_nat r))) /\
  (-1 < 0 -> length [1; 1; 2; 3] = length shares_6_of_14 ->
   (forall r idx c0, ranked !! r = Some idx -> [1; 1; 2; 3] !! idx = Some c0 ->
      visits n (- -1) (Z.of_nat r) < c0) ->
   exists counts1,
     redistribute shares_6_of_14 [1; 1; 2; 3] (-1) = Returns counts1 /\
     forall r idx c0, ranked !! r = Some idx -> [1; 1; 2; 3] !! idx = Some c0 ->
       counts1 !! idx = Some (c0 - visits n (- -1) (Z.of_nat r))) /\
  (map_outcome (share_of 10 (sum [1; 1; 1; 1; 1; 1; 6; 9; 9])) [1; 1; 1; 1; 1; 1; 6; 9; 9]
     = Returns shares_10_of_30 /\
   map_outcome initial_count shares_10_of_30 = Returns [1; 1; 1; 1; 1; 1; 2; 3; 3] /\
   map_outcome fractional_of shares_10_of_30 = Returns fractional_10_of_30 /\
   ranking fractional_10_of_30 (0 <? 10 - sum [1; 1; 1; 1; 1; 1; 2; 3; 3])
     = [6; 7; 8; 0; 1; 2; 3; 4; 5]%nat /\
   redistribute shares_10_of_30 [1; 1; 1; 1; 1; 1; 2; 3; 3]
                (10 - sum [1; 1; 1; 1; 1; 1; 2; 3; 3])
     = Returns [1; 1; 1; 1; 1; 1; 1; 2; 1] /\
   _distribute_codes 10 [1; 1; 1; 1; 1; 1; 6; 9; 9] = Returns [1; 1; 1; 1; 1; 1; 1; 2; 1]).
Proof.
  apply (ranking_by_remainder shares_6_of_14 fractional_6_of_14 [1; 1; 2; 3] (-1)).
  - vm_compute. reflexivity.
  - lia.
Defined.

(** C4 as the specification words it fails for [delta < 0]: with
    [total=6, weights=[1,1,5,7]] the initial counts are [[1,1,2,3]], so
    [delta = -1], and [idx_list] is [[3,2,0,1]]: index 3, whose remainder is
    0, comes first.  That is not a descending ranking. *)
Lemma ranking_not_descending_when_removing :
  map_outcome (share_of 6 (sum [1; 1; 5; 7])) [1; 1; 5; 7] = Returns shares_6_of_14 /\
  map_outcome initial_count shares_6_of_14 = Returns [1; 1; 2; 3] /\
  6 - sum [1; 1; 2; 3] = -1 /\
  map_outcome fractional_of shares_6_of_14 = Returns fractional_6_of_14 /\
  ranking fractional_6_of_14 (0 <? -1) = [3; 2; 0; 1]%nat /\
  ~ StronglySorted (ranks_before fractional_6_of_14 true)
      (ranking fractional_6_of_14 (0 <? -1)).
Proof.
  split_and!; try (vm_compute; reflexivity).
  change (ranking fractional_6_of_14 (0 <? -1)) with [3; 2; 0; 1]%nat.
  intros Hs. apply StronglySorted_inv in Hs as [_ Hall].
  apply Forall_inv in Hall as (fi & fj & Hi & Hj & [Hlt|[_ Hlt]]).
  - injection Hi as <-. injection Hj as <-. vm_compute in Hlt. discriminate.
  - lia.
Qed.

Lemma Forall2_insert_r {A B : Type} (R : A -> B -> Prop) l k i y :
  Forall2 R l k -> (forall x, l !! i = Some x -> R x y) ->
  Forall2 R l (<[i := y]> k).
Proof.
  intros H. revert i. induction H as [|x y' l k Hxy Hlk IH]; intros i Hy; [constructor|].
  destruct i as [|i]; simpl; constructor; auto.
Qed.

(** X2 (adjustment in one direction).  The redistribution moves every count
    one way only: when the initial counts [max(1, floor(share))] add up to
    at most [total_codes], no returned count is below its initial value;
    when they add up to at least [total_codes], none is above it. *)
Theorem counts_move_one_way (total_codes : Z) (weights : list Z)
    (shares : list PyFloat.float) (counts0 counts2 : list Z) :
  map_outcome (share_of total_codes (sum weights)) weights = Returns shares ->
  map_outcome initial_count shares = Returns counts0 ->
  _distribute_codes total_codes weights = Returns counts2 ->
  (sum counts0 <= total_codes -> Forall2 Z.le counts0 counts2) /\
  (total_codes <= sum counts0 -> Forall2 Z.le counts2 counts0).
Proof.
  intros Hshares Hc0 Hret.
  destruct (distribute_codes_counts _ _ _ Hret) as (Hsum2 & Hpos2 & Hlen2).
  pose proof (sum_ge_length _ Hpos2) as Hfeas. rewrite Hsum2, Hlen2 in Hfeas.
  apply distribute_codes_Returns in Hret as (counts1 & _ & Hne & _ & Hreb & Hfin).
  pose proof (initial_counts_positive _ _ Hc0) as Hpos.
  assert (Hlen0 : length counts0 = length weights).
  { rewrite (map_outcome_length _ _ _ Hc0). by eapply map_outcome_length. }
  assert (Hn : (0 < length counts0)%nat)
    by (rewrite Hlen0; destruct weights; simpl; [done | lia]).
  assert (Hrefl : Forall2 Z.le counts0 counts0) by (apply Forall_Forall2_diag, Forall_forall; intros; lia).
  unfold rebalance in Hreb. rewrite Hshares in Hreb. simpl in Hreb.
  rewrite Hc0 in Hreb. simpl in Hreb.
  set (delta := total_codes - sum counts0) in *.
  destruct (Z.eqb_spec delta 0) as [Hd|Hd].
  { injection Hreb as <-. rewrite finalise_absorb in Hfin by (intros Hnil; rewrite Hnil in Hn; simpl in Hn; lia).
    unfold absorb_residue in Hfin. replace (sum counts0 =? total_codes) with true in Hfin by lia.
    destruct (existsb _ _); [done|]. by injection Hfin as <-. }
  unfold redistribute in Hreb.
  apply bind_Returns in Hreb as (fractional & Hfrac & Hreb).
  apply bind_Returns in Hreb as (st' & Hw & [= <-]).
  assert (Hlenf : length counts0 = length fractional).
  { rewrite (map_outcome_length _ _ _ Hc0). symmetry. by eapply map_outcome_length. }
  pose proof (initial_state_invariant total_codes counts0 fractional
                Hlenf Hpos Hn ltac:(lia)) as Hinv. simpl in Hinv. fold delta in Hinv.
  set (step := if 0 <? delta then 1 else -1) in *.
  assert (Hstep : step = 1 \/ step = -1) by (subst step; destruct (0 <? delta); auto).
  pose proof Hw as Hw2.
  apply (while_loop_invariant (loop_invariant total_codes step)) in Hw2 as [Hinv' Hc];
    [|by eauto using loop_body_invariant|done].
  destruct (loop_exit_sum _ _ _ Hstep Hinv' Hc) as [Hsum _].
  rewrite finalise_absorb in Hfin
    by (intros Hnil; rewrite Hnil in Hsum; simpl in Hsum; lia).
  unfold absorb_residue in Hfin. rewrite Hsum, Z.eqb_refl in Hfin.
  destruct (existsb _ _); [done|]. injection Hfin as <-.
  apply (while_loop_invariant (fun s =>
           (step = 1 -> Forall2 Z.le counts0 (counts s)) /\
           (step = -1 -> Forall2 Z.le (counts s) counts0))) in Hw as [[Hup Hdown] _].
  - subst step. split; intros Hdir; [apply Hup | apply Hdown];
      destruct (Z.ltb_spec 0 delta); lia.
  - intros s s' _ [Hup Hdown]. unfold loop_body.
    destruct (idx_list s !! _) as [idx|]; [|done].
    destruct (counts s !! idx) as [c|] eqn:Hcs; [|done].
    destruct (c + step <=? 0); intros [= <-]; simpl; [done|].
    split; intros Hs.
    + apply Forall2_insert_r; [auto|]. intros x Hx.
      pose proof (Forall2_lookup_lr _ _ _ _ _ _ (Hup Hs) Hx Hcs). lia.
    + apply Forall2_flip, Forall2_insert_r; [by apply Forall2_flip, Hdown|].
      intros x Hx. change (c + step <= x).
      pose proof (Forall2_lookup_lr _ _ _ _ _ _ (Hdown Hs) Hcs Hx). lia.
  - done.
Qed.

Lemma counts_move_one_way_witness :
  (sum [1; 1; 2; 3] <= 6 -> Forall2 Z.le [1; 1; 2; 3] [1; 1; 2; 2]) /\
  (6 <= sum [1; 1; 2; 3] -> Forall2 Z.le [1; 1; 2; 2] [1; 1; 2; 3]).
Proof.
  apply (counts_move_one_way 6 [1; 1; 5; 7] shares_6_of_14); vm_compute; reflexivity.
Defined.

(** ** No overflow below [2 ** 1000] *)

Lemma Zdigits2_bounds m : 0 <= m -> 0 <= Zdigits2 m <= Z.log2 m + 1.
Proof.
  destruct m as [|p|p]; [simpl; lia| |lia]. intros _.
  rewrite Zdigits2_log2 by lia. pose proof (Z.log2_nonneg (Zpos p)). lia.
Qed.

Lemma log2_succ_le m : 0 <= m -> Z.log2 (m + 1) <= Z.log2 m + 1.
Proof.
  intros Hm. destruct (Z.eq_dec m 0) as [->|Hne]; [done|].
  pose proof (Z.log2_double m ltac:(lia)) as Hd.
  pose proof (Z.log2_le_mono (m + 1) (2 * m) ltac:(lia)). lia.
Qed.

(** The shift to the working exponent never raises the magnitude. *)
Lemma shr_fexp_bounds m e l mrs e' :
  0 <= m ->
  shr_fexp 53 1024 m e l = (mrs, e') ->
  0 <= shr_m mrs /\
  e' <= Z.max e (Z.max (Z.log2 m + e - 52) (-1074)) /\
  (0 < shr_m mrs -> Z.log2 (shr_m mrs) + e' <= Z.log2 m + e).
Proof.
  intros Hm H. unfold shr_fexp in H.
  pose proof (Zdigits2_bounds m Hm) as Hd.
  set (n := fexp 53 1024 (Zdigits2 m + e) - e) in H.
  assert (Hn : n = Z.max (Zdigits2 m + e - 53) (-1074) - e) by done.
  destruct (shr_spec (shr_record_of_loc m l) e n) as [H1 H2].
  { rewrite shr_record_of_loc_m. lia. }
  rewrite H in H1, H2. cbn [fst snd] in H1, H2.
  rewrite shr_record_of_loc_m in H1. rewrite H1, H2.
  destruct (Z.ltb_spec 0 n) as [Hpos|Hneg]; [|lia].
  pose proof (Z.shiftr_nonneg m n) as [_ Hnn].
  split_and!; [lia | lia |]. intros Hs.
  destruct (Z.eq_dec m 0) as [->|Hm0]; [by rewrite Z.shiftr_0_l in Hs|].
  destruct (Z.le_gt_cases n (Z.log2 m)) as [Hle|Hgt].
  - rewrite Z.log2_shiftr by lia. lia.
  - rewrite Z.shiftr_eq_0 in Hs by lia. lia.
Qed.

(** Rounding a mantissa whose magnitude is below [2 ** 1023] gives a
    number, at most one binade higher. *)
Lemma binary_round_aux_bounded s mx ex lx :
  0 <= mx -> ex <= 971 -> Z.log2 mx + ex <= 1022 ->
  match binary_round_aux 53 1024 s mx ex lx with
  | S754_zero _ => True
  | S754_finite s' m e =>
      s' = s /\ Z.log2 (Zpos m) + e <= Z.max (Z.log2 mx + ex + 1) (-1074)
  | _ => False
  end.
Proof.
  intros Hmx Hex Hmag. unfold binary_round_aux.
  pose proof (Z.log2_nonneg mx) as Hl0.
  destruct (shr_fexp 53 1024 mx ex lx) as [mrs' e'] eqn:H1.
  apply shr_fexp_bounds in H1 as (Hm' & He' & Hmag'); [|done].
  set (m' := shr_m mrs') in *.
  set (m1 := round_nearest_even m' (loc_of_shr_record mrs')).
  pose proof (round_nearest_even_bounds m' (loc_of_shr_record mrs')) as Hm1.
  fold m1 in Hm1.
  assert (Hl1 : Z.log2 m1 <= Z.log2 m' + 1).
  { etrans; [apply Z.log2_le_mono; apply Hm1 | by apply log2_succ_le]. }
  assert (Hmag1 : Z.log2 m1 + e' <= Z.max (Z.log2 mx + ex + 1) (-1074)).
  { destruct (Z.eq_dec m' 0) as [H0|H0].
    - assert (Hz : Z.log2 m1 = 0).
      { assert (Hc : m1 = 0 \/ m1 = 1) by lia. by destruct Hc as [Hc|Hc]; rewrite Hc. }
      lia.
    - specialize (Hmag' ltac:(lia)). lia. }
  destruct (shr_fexp 53 1024 m1 e' loc_Exact) as [mrs'' e''] eqn:H2.
  apply shr_fexp_bounds in H2 as (Hm'' & He'' & Hmag''); [|lia].
  destruct (shr_m mrs'') as [|m|m] eqn:Hm; [done| |lia].
  specialize (Hmag'' ltac:(lia)).
  destruct (Z.leb_spec e'' (1024 - 53)); [|lia]. split; [done | lia].
Qed.

Lemma shl_align_exp mx ex ex' : (shl_align mx ex ex').2 <= ex.
Proof. unfold shl_align. destruct (ex' - ex) eqn:Hd; cbn [snd]; lia. Qed.

(** [float(n)] returns for [0 <= n < 2 ** 1023], at most one binade above
    [n]. *)
Lemma of_int_bounded n :
  0 <= n -> Z.log2 n <= 1022 ->
  exists f, PyFloat.of_int n = Returns f /\ nonneg_below (Z.log2 n + 1) f.
Proof.
  intros Hn Hl. unfold PyFloat.of_int.
  destruct n as [|p|p]; [by eexists| |lia].
  unfold binary_normalize, binary_round.
  pose proof (shl_align_log2 p 0 (fexp PyFloat.prec PyFloat.emax (Z.pos (digits2_pos p) + 0))) as Hlog.
  pose proof (shl_align_exp p 0 (fexp PyFloat.prec PyFloat.emax (Z.pos (digits2_pos p) + 0))) as Hexp.
  destruct (shl_align p 0 _) as [mz ez]. cbn [fst snd] in Hlog, Hexp.
  pose proof (Z.log2_nonneg (Zpos p)) as Hl0.
  pose proof (binary_round_aux_bounded false (Zpos mz) ez loc_Exact
                ltac:(lia) ltac:(lia) ltac:(lia)) as Hr.
  change (binary_round_aux PyFloat.prec PyFloat.emax) with (binary_round_aux 53 1024).
  destruct (binary_round_aux 53 1024 false (Z.pos mz) ez loc_Exact); try done;
    eexists; (split; [done|]); unfold nonneg_below; [done|].
  destruct Hr as [-> Hr]. split; [done | lia].
Qed.

(** The floor of a number below [2 ** (k + 1)] is an integer below
    [2 ** (k + 1)]. *)
Lemma floor_below k x :
  0 <= k -> nonneg_below k x ->
  exists n, PyFloat.floor x = Returns n /\ 0 <= n /\ Z.log2 n <= k.
Proof.
  intros Hk. destruct x as [s| | |s m e]; unfold nonneg_below, PyFloat.floor; try done.
  - intros _. exists 0. by split_and!.
  - intros [-> Hm]. eexists. split; [done|]. cbn [cond_Zopp].
    pose proof (Z.shiftl_nonneg (Zpos m) e) as [_ Hnn].
    split; [lia|].
    destruct (Z.le_gt_cases 0 e) as [He|He].
    + rewrite Z.log2_shiftl by lia. lia.
    + rewrite <- (Z.opp_involutive e), Z.shiftl_opp_r.
      rewrite Z.log2_shiftr by lia. lia.
Qed.

(** A rounded quotient that is at most [T < 2 ** 1000] is a number below
    [2 ** (log2 T + 2)]. *)
Lemma round_quotient_bounded s a b T :
  Zpos a <= T * Zpos b -> T < 2 ^ 1000 ->
  match PyFloat.round_quotient s a b with
  | S754_zero _ => True
  | S754_finite s' m e => s' = s /\ Z.log2 (Zpos m) + e <= Z.log2 T + 1
  | _ => False
  end.
Proof.
  intros Ha HT.
  assert (HT1 : 1 <= T) by nia.
  assert (HlT : 0 <= Z.log2 T <= 999).
  { split; [apply Z.log2_nonneg|]. apply Z.log2_lt_pow2 in HT; lia. }
  unfold PyFloat.round_quotient.
  destruct (SFdiv_core_binary _ _ _ _ _ _) as [[q e] l] eqn:Hdiv.
  assert (Hq : 0 <= q /\ e <= 0 /\ Z.log2 q + e <= Z.log2 T).
  { revert Hdiv. unfold SFdiv_core_binary.
    set (e' := Z.min _ _). assert (He' : e' <= 0) by (subst e'; lia).
    set (s0 := 0 - 0 - e').
    set (m' := match s0 with Z.pos _ => Z.shiftl (Z.pos a) s0 | 0 => Z.pos a | Z.neg _ => 0 end).
    assert (Hm' : m' = Zpos a * 2 ^ s0).
    { subst m'. destruct s0 eqn:Hs; [lia| |lia]. rewrite Z.shiftl_mul_pow2; lia. }
    pose proof (Z.pow_pos_nonneg 2 s0 ltac:(lia) ltac:(lia)) as Hpow.
    assert (Hdivle : m' / Zpos b <= T * 2 ^ s0).
    { apply Z.div_le_upper_bound; [lia|]. nia. }
    pose proof (Z.div_pos m' (Zpos b) ltac:(lia) ltac:(lia)) as Hq0.
    unfold Z.div in Hdivle, Hq0. destruct (Z.div_eucl m' (Z.pos b)) as [q0 r0].
    intros [= <- <- _]. split_and!; [done..|].
    apply Z.log2_le_mono in Hdivle.
    rewrite Z.log2_mul_pow2 in Hdivle by lia. lia. }
  destruct Hq as (Hq0 & He & Hmag).
  pose proof (binary_round_aux_bounded s q e l Hq0 ltac:(lia) ltac:(lia)) as Hr.
  change (binary_round_aux PyFloat.prec PyFloat.emax) with (binary_round_aux 53 1024).
  destruct (binary_round_aux 53 1024 s q e l); try done.
  destruct Hr as [-> Hr]. split; [done | lia].
Qed.

(** A quotient of non-negative integers that is at most [T < 2 ** 1000]
    is returned, and is below [2 ** (log2 T + 2)]. *)
Lemma int_truediv_bounded a b T :
  0 < b -> 0 <= a <= T * b -> T < 2 ^ 1000 ->
  exists f, PyFloat.int_truediv a b = Returns f /\ nonneg_below (Z.log2 T + 1) f.
Proof.
  intros Hb Ha HT. unfold PyFloat.int_truediv.
  destruct b as [|b|b]; try lia.
  destruct a as [|a|a]; [by eexists| |lia].
  change (Z.to_pos (Z.abs (Z.pos a))) with a.
  change (Z.to_pos (Z.abs (Z.pos b))) with b.
  change (xorb (Z.pos a <? 0) (Z.pos b <? 0)) with false.
  pose proof (round_quotient_bounded false a b T ltac:(lia) HT) as Hr.
  destruct (PyFloat.round_quotient false a b); try done; by eexists.
Qed.

Lemma fractional_of_bounded share :
  nonneg_below 1000 share -> exists f, fractional_of share = Returns f.
Proof.
  intros (n & Hfl & Hn & Hl)%floor_below; [|done]. unfold fractional_of.
  rewrite Hfl. simpl.
  destruct (of_int_bounded n Hn ltac:(lia)) as (f & -> & _). by eexists.
Qed.

(** With at least one code, fewer than [2 ** 1000], and weights that are at
    least 1, the float arithmetic of the engine does not overflow: the
    shares, the initial counts and the redistribution all return. *)
Lemma rebalance_total total_codes weights :
  1 <= total_codes < 2 ^ 1000 ->
  Forall (fun w => 1 <= w) weights ->
  exists counts1, rebalance total_codes weights = Returns counts1.
Proof.
  intros [Hlo Hhi] Hw. unfold rebalance.
  assert (HlT : Z.log2 total_codes <= 999).
  { apply Z.log2_lt_pow2 in Hhi; lia. }
  assert (Hsh : exists shares,
             map_outcome (share_of total_codes (sum weights)) weights = Returns shares /\
             Forall (nonneg_below 1000) shares).
  { assert (Hle : Forall (fun w => 1 <= w <= sum weights) weights).
    { clear Hlo Hhi HlT. induction Hw as [|w ws Hw1 Hws IH]; [constructor|].
      pose proof (sum_ge_length _ Hws). simpl. fold (sum ws).
      constructor; [lia|]. eapply Forall_impl; [exact IH|]. simpl. lia. }
    revert Hle. generalize (sum weights) as W. intros W Hle.
    induction Hle as [|w ws Hw1 _ IH]; [by exists []|].
    apply Forall_cons in Hw as [_ Hw]. destruct (IH Hw) as (shares & Hs & Hb).
    destruct (int_truediv_bounded (w * total_codes) W total_codes) as (f & Hf & Hfb);
      [lia | nia | done |].
    change (PyFloat.int_truediv (w * total_codes) W) with (share_of total_codes W w) in Hf.
    exists (f :: shares). cbn [map_outcome]. rewrite Hf, Hs. simpl.
    split; [done|]. constructor; [|done].
    destruct f as [| | |s m e]; try done. destruct Hfb as [-> Hfb]. split; [done | lia]. }
  destruct Hsh as (shares & -> & Hb). simpl.
  assert (Hnum : Forall is_number shares).
  { eapply Forall_impl; [exact Hb|]. by intros []. }
  destruct (initial_counts_Return _ Hnum) as [counts0 Hc0]. rewrite Hc0. simpl.
  destruct (total_codes - sum counts0 =? 0); [by eexists|].
  destruct (map_outcome_Returns fractional_of shares) as [fractional Hfr].
  { eapply Forall_impl; [exact Hb|]. apply fractional_of_bounded. }
  eapply redistribute_Returns; [done|]. by eapply map_outcome_length.
Qed.

(** For at least one code, fewer than [2 ** 1000], and non-empty weights
    that are at least 1: the engine returns when there are at most as many
    weights as codes, and raises the [ValueError] of the positivity check
    otherwise. *)
Lemma distribute_codes_total total_codes weights :
  1 <= total_codes < 2 ^ 1000 -> weights <> [] -> Forall (fun w => 1 <= w) weights ->
  (Z.of_nat (length weights) <= total_codes ->
   exists counts2, _distribute_codes total_codes weights = Returns counts2) /\
  (total_codes < Z.of_nat (length weights) ->
   _distribute_codes total_codes weights =
     Raises (ValueError "Code distribution resulted in non-positive segment length.")).
Proof.
  intros Htotal Hne Hw.
  pose proof (sum_ge_length _ Hw) as Hsum.
  assert (0 < sum weights) by (destruct weights; simpl in *; [done | lia]).
  destruct (rebalance_total total_codes weights Htotal Hw) as [counts1 Hr].
  unfold _distribute_codes.
  destruct (Z.leb_spec total_codes 0); [lia|].
  destruct (bool_decide_reflect (weights = [])); [done|].
  destruct (Z.leb_spec (sum weights) 0); [lia|].
  rewrite Hr. simpl. split; intros Hfeas.
  - pose proof (rebalance_feasible total_codes weights Hne ltac:(done) Hfeas) as Hf.
    rewrite Hr in Hf. destruct Hf as (Hs & Hpos & Hlen). exists counts1.
    rewrite finalise_absorb by (destruct counts1, weights; done).
    unfold absorb_residue. rewrite Hs, Z.eqb_refl.
    apply existsb_nonpositive in Hpos. by rewrite Hpos.
  - apply rebalance_Returns in Hr as [Hl Hpos].
    apply finalise_infeasible; [lia | done | lia].
Qed.

(** X3 (when the engine returns).  For [1 <= total_codes < 2 ** 1000] and
    non-empty weights that are all at least 1, [_distribute_codes] returns a
    list exactly when there are at most as many weights as codes; with more
    weights than codes it raises the [ValueError] of the positivity check.
    None of the other four [ValueError]s and no [OverflowError] is raised.
    The bound on [total_codes] is needed: with [2 ** 1024] codes the first
    share overflows. *)
Theorem distribute_codes_returns_iff_feasible (total_codes : Z) (weights : list Z) :
  1 <= total_codes < 2 ^ 1000 -> weights <> [] -> Forall (fun w => 1 <= w) weights ->
  (Z.of_nat (length weights) <= total_codes ->
   exists counts2, _distribute_codes total_codes weights = Returns counts2) /\
  (total_codes < Z.of_nat (length weights) ->
   _distribute_codes total_codes weights =
     Raises (ValueError "Code distribution resulted in non-positive segment length.")) /\
  _distribute_codes (2 ^ 1024) [1] =
    Raises (OverflowError "integer division result too large for a float").
Proof.
  intros Htotal Hne Hw.
  destruct (distribute_codes_total total_codes weights Htotal Hne Hw) as [H1 H2].
  split_and!; [done..|]. vm_compute. reflexivity.
Qed.

Lemma distribute_codes_returns_iff_feasible_witness :
  exists counts2, _distribute_codes 100 [1; 4; 2; 7; 3] = Returns counts2.
Proof.
  apply (distribute_codes_returns_iff_feasible 100 [1; 4; 2; 7; 3]).
  - lia.
  - discriminate.
  - repeat constructor; lia.
  - simpl. lia.
Defined.

(** ** The tokeniser *)

Lemma replace_char_absent old new s :
  Forall (fun c => c <> old) s -> replace_char old new s = s.
Proof.
  unfold replace_char. induction 1 as [|c s Hc _ IH]; csimpl; [done|].
  rewrite IH. by destruct (N.eqb_spec c old).
Qed.

Lemma encode_ascii_ignore_ascii s : is_ascii (encode_ascii_ignore s).
Proof.
  unfold is_ascii, encode_ascii_ignore. apply Forall_forall.
  by intros c [? _]%list_elem_of_filter.
Qed.

Lemma encode_ascii_ignore_id s : is_ascii s -> encode_ascii_ignore s = s.
Proof.
  unfold is_ascii, encode_ascii_ignore. induction 1 as [|c s Hc _ IH]; [done|].
  rewrite filter_cons_True by done. by rewrite IH.
Qed.

Lemma replace_quotes_ascii s : is_ascii s -> replace_quotes s = s.
Proof.
  intros Hs. unfold replace_quotes.
  rewrite (replace_char_absent 8217), (replace_char_absent 8216),
    (replace_char_absent 8220), (replace_char_absent 8221); try done;
    (eapply Forall_impl; [exact Hs|]); simpl; lia.
Qed.

(** X4 (the quote replacements change nothing).  The text the regular
    expression runs on is the NFKD form with every code point above 127
    dropped: the four [replace] calls of lines 99-100 look for code points
    that the ASCII encoding has already removed.  A curly apostrophe is
    therefore dropped, never turned into a straight one. *)
Theorem quote_replacements_are_no_ops (U : UnicodeOps) (transcript : pystr) :
  ascii_text_of U transcript = encode_ascii_ignore (nfkd U transcript) /\
  is_ascii (ascii_text_of U transcript) /\
  Forall (fun c => c <> 8217%N /\ c <> 8216%N /\ c <> 8220%N /\ c <> 8221%N)
    (encode_ascii_ignore (nfkd U transcript)).
Proof.
  pose proof (encode_ascii_ignore_ascii (nfkd U transcript)) as Hascii.
  unfold ascii_text_of. rewrite replace_quotes_ascii by done.
  split_and!; [done..|].
  eapply Forall_impl; [exact Hascii|]. simpl. lia.
Qed.

Lemma findall_word_runs_shape text :
  Forall (fun run => run <> [] /\ Forall (fun c => is_word_char c = true) run)
    (findall_word_runs text).
Proof.
  induction text as [|c text IH]; simpl; [constructor|].
  destruct (is_word_char c) eqn:Hc; [|done].
  destruct (starts_with_word_char text).
  - destruct (findall_word_runs text) as [|run runs]; [by repeat constructor|].
    apply Forall_cons in IH as [[_ Hrun] Hruns].
    constructor; [|done]. split; [done|]. by constructor.
  - constructor; [|done]. split; [done|]. by repeat constructor.
Qed.

Lemma normalise_word_shape U token :
  lower_on_ascii U ->
  Forall (fun c => is_word_char c = true) token ->
  _normalise_word U token = ascii_lower <$> filter (fun c => c <> 39%N) token /\
  Forall is_lower_alnum (_normalise_word U token).
Proof.
  intros Hlower Htoken. unfold _normalise_word.
  assert (Hfil : Forall (fun c => is_word_char c = true /\ c <> 39%N)
                   (filter (fun c => c <> 39%N) token)).
  { apply Forall_forall. intros c [Hne Hin]%list_elem_of_filter.
    rewrite Forall_forall in Htoken. auto. }
  rewrite Hlower.
  - split; [done|]. apply Forall_fmap. eapply Forall_impl; [exact Hfil|].
    intros c [Hc Hne]. unfold is_word_char in Hc. unfold is_lower_alnum, ascii_lower. simpl.
    destruct (N.leb_spec 65 c), (N.leb_spec c 90); simpl in *; try lia;
      destruct (N.leb_spec 97 c), (N.leb_spec c 122); simpl in *; try lia;
      destruct (N.leb_spec 48 c), (N.leb_spec c 57); simpl in *; try lia;
      destruct (N.eqb_spec c 39); simpl in *; try lia; done.
  - eapply Forall_impl; [exact Hfil|]. intros c [Hc _]. unfold is_word_char in Hc.
    destruct (N.leb_spec 65 c), (N.leb_spec c 90); simpl in *; try lia;
      destruct (N.leb_spec 97 c), (N.leb_spec c 122); simpl in *; try lia;
      destruct (N.leb_spec 48 c), (N.leb_spec c 57); simpl in *; try lia;
      destruct (N.eqb_spec c 39); simpl in *; try lia; done.
Qed.

Lemma cleaned_words_shape U tokens :
  lower_on_ascii U ->
  Forall (fun run => run <> [] /\ Forall (fun c => is_word_char c = true) run) tokens ->
  Forall (fun w => w <> [] /\ Forall is_lower_alnum w) (cleaned_words U tokens).
Proof.
  intros Hlower. induction 1 as [|token tokens [_ Htok] _ IH]; simpl; [constructor|].
  destruct (bool_decide_reflect (_normalise_word U token = [])) as [|Hne]; [done|].
  constructor; [|done]. split; [done|]. by apply normalise_word_shape.
Qed.

Lemma tokenise_Returns U transcript words :
  lower_on_ascii U ->
  _tokenise_transcript U transcript = Returns words ->
  words <> [] /\ Forall (fun w => w <> [] /\ Forall is_lower_alnum w) words.
Proof.
  intros Hlower. unfold _tokenise_transcript. cbv zeta.
  destruct (bool_decide_reflect
              (cleaned_words U (findall_word_runs (ascii_text_of U transcript)) = []))
    as [|Hne]; [done|].
  intros [= <-]. split; [done|].
  apply cleaned_words_shape; [done | apply findall_word_runs_shape].
Qed.

(** X5 (shape of the tokens).  Whenever the tokeniser returns, it returns
    at least one word, and every word is a non-empty string of lowercase
    ASCII letters and digits: no apostrophe, no uppercase letter, no empty
    word.  The weight [max(1, len(word))] of such a word is its length. *)
Theorem tokens_are_lowercase_words (U : UnicodeOps) (transcript : pystr)
    (words : list pystr) :
  lower_on_ascii U ->
  _tokenise_transcript U transcript = Returns words ->
  words <> [] /\
  Forall (fun w => w <> [] /\ Forall is_lower_alnum w /\
                   Z.max 1 (Z.of_nat (length w)) = Z.of_nat (length w)) words.
Proof.
  intros Hlower [Hne Hshape]%tokenise_Returns; [|done]. split; [done|].
  eapply Forall_impl; [exact Hshape|].
  intros w [Hw Hall]. split_and!; [done..|]. destruct w; simpl; [done | lia].
Qed.

Lemma ascii_only_ops_lower : lower_on_ascii ascii_only_ops.
Proof. by intros s _. Qed.

Lemma ascii_only_ops_nfkd : nfkd_on_ascii ascii_only_ops.
Proof. by intros s _. Qed.

Lemma tokens_are_lowercase_words_witness :
  let words := [str_of "hello"; str_of "world"] in
  _tokenise_transcript ascii_only_ops (str_of "Hello, world!") = Returns words /\
  words <> [] /\
  Forall (fun w => w <> [] /\ Forall is_lower_alnum w /\
                   Z.max 1 (Z.of_nat (length w)) = Z.of_nat (length w)) words.
Proof.
  split; [vm_compute; reflexivity|].
  apply (tokens_are_lowercase_words ascii_only_ops (str_of "Hello, world!")).
  - exact ascii_only_ops_lower.
  - vm_compute. reflexivity.
Defined.

Lemma lower_alnum_word_char c : is_lower_alnum c -> is_word_char c = true.
Proof.
  unfold is_lower_alnum, is_word_char. intros Hc.
  destruct (N.leb_spec 65 c), (N.leb_spec c 90), (N.leb_spec 97 c), (N.leb_spec c 122),
    (N.leb_spec 48 c), (N.leb_spec c 57), (N.eqb_spec c 39); simpl; lia.
Qed.

Lemma lower_alnum_facts c :
  is_lower_alnum c -> (c < 128)%N /\ c <> 39%N /\ c <> 32%N /\ ascii_lower c = c.
Proof.
  unfold is_lower_alnum, ascii_lower. intros Hc.
  destruct (N.leb_spec 65 c), (N.leb_spec c 90); simpl; lia.
Qed.

(** A run followed by something that does not start with a character of the
    class is the first match. *)
Lemma findall_word_runs_app w rest :
  w <> [] -> Forall (fun c => is_word_char c = true) w ->
  starts_with_word_char rest = false ->
  findall_word_runs (w ++ rest) = w :: findall_word_runs rest.
Proof.
  intros Hne Hw Hrest. induction Hw as [|c w Hc Hw IH]; [done|]. simpl. rewrite Hc.
  destruct w as [|c' w]; simpl in *.
  - by rewrite Hrest.
  - apply Forall_cons in Hw as [Hc' Hw]. rewrite Hc'. rewrite Hc' in IH.
    by rewrite IH.
Qed.

Lemma findall_join_spaces words :
  Forall (fun w => w <> [] /\ Forall is_lower_alnum w) words ->
  findall_word_runs (join_spaces words) = words.
Proof.
  induction 1 as [|w words [Hne Hw] Hwords IH]; [done|].
  assert (Hwc : Forall (fun c => is_word_char c = true) w).
  { eapply Forall_impl; [exact Hw|]. apply lower_alnum_word_char. }
  destruct words as [|w' words].
  - simpl. rewrite <- (app_nil_r w) at 1. by rewrite findall_word_runs_app.
  - change (join_spaces (w :: w' :: words))
      with (w ++ 32%N :: join_spaces (w' :: words)).
    rewrite findall_word_runs_app by done.
    change (findall_word_runs (32%N :: join_spaces (w' :: words)))
      with (findall_word_runs (join_spaces (w' :: words))).
    by rewrite IH.
Qed.

Lemma join_spaces_ascii words :
  Forall (fun w => w <> [] /\ Forall is_lower_alnum w) words ->
  is_ascii (join_spaces words).
Proof.
  unfold is_ascii. induction 1 as [|w words [Hne Hw] Hwords IH]; [constructor|].
  assert (Hwa : Forall (fun c => (c < 128)%N) w).
  { eapply Forall_impl; [exact Hw|]. intros c Hc. by apply lower_alnum_facts. }
  destruct words as [|w' words]; [done|].
  change (join_spaces (w :: w' :: words))
    with (w ++ 32%N :: join_spaces (w' :: words)).
  apply Forall_app. split; [done|]. constructor; [lia | done].
Qed.

Lemma cleaned_words_fixed U words :
  lower_on_ascii U ->
  Forall (fun w => w <> [] /\ Forall is_lower_alnum w) words ->
  cleaned_words U words = words.
Proof.
  intros Hlower. induction 1 as [|w words [Hne Hw] _ IH]; simpl; [done|].
  assert (Hnorm : _normalise_word U w = w).
  { unfold _normalise_word.
    assert (Hfil : filter (fun c => c <> 39%N) w = w).
    { clear Hne. induction Hw as [|c w Hc _ IHw]; [done|].
      rewrite filter_cons_True by (by apply lower_alnum_facts). by rewrite IHw. }
    rewrite Hfil, Hlower.
    - clear Hne Hfil. induction Hw as [|c w Hc _ IHw]; [done|]. csimpl.
      rewrite IHw. f_equal. by apply lower_alnum_facts.
    - eapply Forall_impl; [exact Hw|]. intros c Hc. by apply lower_alnum_facts. }
  rewrite Hnorm. rewrite bool_decide_eq_false_2 by done. by rewrite IH.
Qed.

(** X6 (tokens are stable).  With Unicode operations that act on ASCII
    text as Python's do, the words returned by the tokeniser, joined by
    single spaces, tokenise to the same words again. *)
Theorem tokenise_round_trip (U : UnicodeOps) (transcript : pystr)
    (words : list pystr) :
  lower_on_ascii U -> nfkd_on_ascii U ->
  _tokenise_transcript U transcript = Returns words ->
  _tokenise_transcript U (join_spaces words) = Returns words.
Proof.
  intros Hlower Hnfkd [Hne Hshape]%tokenise_Returns; [|done].
  unfold _tokenise_transcript, ascii_text_of. cbv zeta.
  pose proof (join_spaces_ascii _ Hshape) as Hascii.
  rewrite Hnfkd, encode_ascii_ignore_id, replace_quotes_ascii by done.
  rewrite findall_join_spaces, cleaned_words_fixed by done.
  by rewrite bool_decide_eq_false_2.
Qed.

Lemma tokenise_round_trip_witness :
  _tokenise_transcript ascii_only_ops (join_spaces [str_of "its"; str_of "2"; str_of "late"])
    = Returns [str_of "its"; str_of "2"; str_of "late"].
Proof.
  apply (tokenise_round_trip ascii_only_ops (str_of "It's 2 late!")).
  - exact ascii_only_ops_lower.
  - exact ascii_only_ops_nfkd.
  - vm_compute. reflexivity.
Defined.

Lemma lstrip_all_space s : Forall (fun c => is_space c = true) s -> lstrip s = [].
Proof. induction 1 as [|c s Hc _ IH]; simpl; [done|]. by rewrite Hc. Qed.

(** X7 (blank transcript).  A transcript file that is empty or holds only
    whitespace is rejected: [_load_transcript] raises the [ValueError] of
    the tokeniser. *)
Theorem blank_transcript_is_rejected (U : UnicodeOps) (content : pystr) :
  nfkd_on_ascii U ->
  Forall (fun c => is_space c = true) content ->
  _load_transcript U content =
    Raises (ValueError "Transcript does not contain any parsable word tokens.").
Proof.
  intros Hnfkd Hblank.
  assert (Hstrip : strip content = []).
  { unfold strip. by rewrite (lstrip_all_space content Hblank). }
  unfold _load_transcript. rewrite Hstrip.
  unfold _tokenise_transcript, ascii_text_of. cbv zeta.
  rewrite (Hnfkd []) by constructor. done.
Qed.

Lemma blank_transcript_is_rejected_witness :
  _load_transcript ascii_only_ops [32; 10; 9; 160]%N =
    Raises (ValueError "Transcript does not contain any parsable word tokens.").
Proof.
  apply (blank_transcript_is_rejected ascii_only_ops).
  - exact ascii_only_ops_nfkd.
  - repeat constructor.
Defined.

Lemma findall_word_runs_concat text :
  concat (findall_word_runs text) = filter (fun c => is_word_char c = true) text.
Proof.
  induction text as [|c text IH]; simpl; [done|].
  destruct (is_word_char c) eqn:Hc.
  - rewrite filter_cons_True by done. rewrite <- IH.
    destruct (starts_with_word_char text); [|done].
    by destruct (findall_word_runs text).
  - rewrite filter_cons_False by (by rewrite Hc). done.
Qed.

Lemma cleaned_words_concat U runs :
  lower_on_ascii U ->
  Forall (fun run => run <> [] /\ Forall (fun c => is_word_char c = true) run) runs ->
  concat (cleaned_words U runs) =
    ascii_lower <$> filter (fun c => c <> 39%N) (concat runs).
Proof.
  intros Hlower. induction 1 as [|run runs [_ Hrun] _ IH]; simpl; [done|].
  destruct (normalise_word_shape U run Hlower Hrun) as [Hnorm _].
  rewrite filter_app, fmap_app, <- Hnorm, <- IH.
  destruct (bool_decide_reflect (_normalise_word U run = [])) as [->|]; done.
Qed.

(** X8 (nothing lost, nothing invented).  The words the tokeniser returns,
    put end to end, are exactly the letters and digits of the ASCII text,
    lower-cased and in order; and the tokeniser raises its [ValueError]
    exactly when that text has no letter and no digit. *)
Theorem tokeniser_keeps_letters_and_digits (U : UnicodeOps) (transcript : pystr) :
  lower_on_ascii U ->
  match _tokenise_transcript U transcript with
  | Returns words =>
      concat words = letters_and_digits (ascii_text_of U transcript) /\
      letters_and_digits (ascii_text_of U transcript) <> []
  | Raises e =>
      e = ValueError "Transcript does not contain any parsable word tokens." /\
      letters_and_digits (ascii_text_of U transcript) = []
  | OutOfFuel => False
  end.
Proof.
  intros Hlower. unfold _tokenise_transcript, letters_and_digits. cbv zeta.
  set (text := ascii_text_of U transcript).
  pose proof (findall_word_runs_shape text) as Hruns.
  pose proof (cleaned_words_concat U _ Hlower Hruns) as Hconcat.
  rewrite findall_word_runs_concat, list_filter_filter in Hconcat.
  pose proof (cleaned_words_shape U _ Hlower Hruns) as Hshape.
  destruct (bool_decide_reflect (cleaned_words U (findall_word_runs text) = []))
    as [Hnil|Hne].
  - split; [done|]. rewrite <- Hconcat, Hnil. done.
  - split; [done|]. rewrite <- Hconcat.
    destruct (cleaned_words U (findall_word_runs text)) as [|w ws]; [done|].
    apply Forall_cons in Hshape as [[Hw _] _]. simpl. by destruct w.
Qed.

Lemma tokeniser_keeps_letters_and_digits_witness :
  match _tokenise_transcript ascii_only_ops (str_of "It's 2 late!") with
  | Returns words =>
      concat words = letters_and_digits (ascii_text_of ascii_only_ops (str_of "It's 2 late!")) /\
      letters_and_digits (ascii_text_of ascii_only_ops (str_of "It's 2 late!")) <> []
  | Raises e =>
      e = ValueError "Transcript does not contain any parsable word tokens." /\
      letters_and_digits (ascii_text_of ascii_only_ops (str_of "It's 2 late!")) = []
  | OutOfFuel => False
  end.
Proof.
  apply (tokeniser_keeps_letters_and_digits ascii_only_ops (str_of "It's 2 late!")).
  exact ascii_only_ops_lower.
Defined.

(** ** When the builder returns *)

(** The quotient of two positive mantissas, before rounding: its magnitude
    is at most that of the exact quotient. *)
Lemma SFdiv_core_binary_bounded m1 e1 m2 e2 q e l :
  let D := Z.log2 (Zpos m1) + e1 - (Z.log2 (Zpos m2) + e2) in
  SFdiv_core_binary 53 1024 (Zpos m1) e1 (Zpos m2) e2 = (q, e, l) ->
  0 <= q /\ e <= Z.max (D - 53) (-1074) /\ Z.log2 q + e <= Z.max D (-1074).
Proof.
  intros D. unfold SFdiv_core_binary.
  rewrite !Zdigits2_log2 by lia. unfold fexp, emin.
  set (e' := Z.min _ _).
  assert (He' : e' <= e1 - e2 /\ e' <= Z.max (D - 53) (-1074)) by (subst e' D; lia).
  set (s := e1 - e2 - e').
  set (m' := match s with Z.pos _ => Z.shiftl (Z.pos m1) s | 0 => Z.pos m1 | Z.neg _ => 0 end).
  assert (Hs : 0 <= s) by (subst s; lia).
  assert (Hm' : m' = Zpos m1 * 2 ^ s).
  { subst m'. destruct s eqn:Heq; [lia| |lia]. rewrite Z.shiftl_mul_pow2; lia. }
  pose proof (Z.pow_pos_nonneg 2 s ltac:(lia) Hs) as Hpow.
  pose proof (Z.div_pos m' (Zpos m2) ltac:(nia) ltac:(lia)) as Hq0.
  pose proof (Z.mul_div_le m' (Zpos m2) ltac:(lia)) as Hmul.
  unfold Z.div in Hq0, Hmul. destruct (Z.div_eucl m' (Z.pos m2)) as [q0 r0].
  intros [= <- <- _]. split_and!; [done | lia |].
  destruct (Z.eq_dec q0 0) as [->|Hne]; [simpl; lia|].
  destruct (Z.log2_spec (Zpos m2) ltac:(lia)) as [Hlo _].
  pose proof (Z.log2_nonneg (Zpos m2)) as Hl2.
  pose proof (Z.pow_pos_nonneg 2 (Z.log2 (Zpos m2)) ltac:(lia) Hl2) as Hpow2.
  assert (Hle : q0 * 2 ^ Z.log2 (Zpos m2) <= Zpos m1 * 2 ^ s) by nia.
  apply Z.log2_le_mono in Hle.
  rewrite !Z.log2_mul_pow2 in Hle by lia.
  subst s D. lia.
Qed.

(** [c / FRAME_RATE_HZ] for a float [c] below [2 ** 1001]: a number, more
    than four binades lower. *)
Lemma truediv_frame_rate_bounded k c :
  k <= 1000 -> nonneg_below k c ->
  exists q, PyFloat.truediv c FRAME_RATE_HZ = Returns q /\
            nonneg_below (Z.max (k - 4) (-1073)) q.
Proof.
  intros Hk Hc. eexists. split; [done|].
  destruct c as [s| | |s m e]; try done.
  destruct Hc as [-> Hmag].
  change (SFdiv PyFloat.prec PyFloat.emax (S754_finite false m e) FRAME_RATE_HZ)
    with (let '(q, e', l) :=
            SFdiv_core_binary 53 1024 (Zpos m) e 7036874417766400 (-47) in
          binary_round_aux 53 1024 false q e' l).
  destruct (SFdiv_core_binary 53 1024 (Zpos m) e 7036874417766400 (-47))
    as [[q e'] l] eqn:Hdiv.
  apply SFdiv_core_binary_bounded in Hdiv.
  change (Z.log2 7036874417766400) with 52 in Hdiv. cbn zeta in Hdiv.
  destruct Hdiv as (Hq & He' & Hmag').
  pose proof (binary_round_aux_bounded false q e' l Hq ltac:(lia) ltac:(lia)) as Hr.
  destruct (binary_round_aux 53 1024 false q e' l); try done.
  destruct Hr as [-> Hr]. split; [done | lia].
Qed.

Lemma round_half_even_le num den :
  PyFloat.round_half_even num den <= num / den + 1.
Proof.
  unfold PyFloat.round_half_even.
  destruct (2 * (num mod den) ?= den); try destruct (Z.even _); lia.
Qed.

(** [round(q, 2)] returns a number for a float [q] below [2 ** 999]. *)
Lemma round_2_bounded q :
  nonneg_below 998 q -> exists d, PyFloat.round q 2 = Returns d /\ is_number d.
Proof.
  destruct q as [s| | |s m e]; try done; [by eexists|].
  intros [-> Hmag]. unfold PyFloat.round.
  change (323 <? 2)%N with false. change (10 ^ Z.of_N 2) with 100.
  change (Z.to_pos 100) with 100%positive. cbn iota zeta.
  set (k := if 0 <=? e then _ else _).
  set (T := Z.shiftl (Zpos m) e + 2).
  pose proof (Z.shiftl_nonneg (Zpos m) e) as [_ Hnn]. specialize (Hnn ltac:(lia)).
  assert (HT : T < 2 ^ 1000).
  { assert (Hl : Z.log2 (Z.shiftl (Zpos m) e) <= 998).
    { pose proof (Z.log2_nonneg (Zpos m)).
      destruct (Z.le_gt_cases 0 e) as [He|He].
      - rewrite Z.log2_shiftl by lia. lia.
      - rewrite <- (Z.opp_involutive e), Z.shiftl_opp_r.
        rewrite Z.log2_shiftr by lia. lia. }
    assert (Z.shiftl (Zpos m) e < 2 ^ 999).
    { destruct (Z.eq_dec (Z.shiftl (Zpos m) e) 0) as [->|Hne]; [done|].
      apply Z.log2_lt_pow2; lia. }
    change (2 ^ 1000) with (2 * 2 ^ 999).
    assert (2 <= 2 ^ 999) by (by apply (Z.pow_le_mono_r 2 1 999)).
    subst T. lia. }
  assert (Hk : k <= T * 100).
  { subst k T. destruct (Z.leb_spec 0 e) as [He|He].
    - rewrite Z.shiftl_mul_pow2 by done. lia.
    - rewrite <- (Z.opp_involutive e) at 2. rewrite Z.shiftl_opp_r.
      rewrite Z.shiftr_div_pow2 by lia.
      pose proof (Z.pow_pos_nonneg 2 (- e) ltac:(lia) ltac:(lia)) as Hden.
      etrans; [apply round_half_even_le|].
      assert (Z.pos m * 100 / 2 ^ (- e) < 100 * (Z.pos m / 2 ^ (- e) + 1)); [|lia].
      apply Z.div_lt_upper_bound; [done|].
      pose proof (Z.mod_pos_bound (Zpos m) (2 ^ (- e)) Hden).
      pose proof (Z.div_mod (Zpos m) (2 ^ (- e)) ltac:(lia)). nia. }
  destruct k as [|k'|k']; [by eexists| |by eexists].
  pose proof (round_quotient_bounded false k' 100 T Hk HT) as Hr.
  destruct (PyFloat.round_quotient false k' 100); try done; by eexists.
Qed.

(** The duration of a count between 1 and [2 ** 1000] is computed without
    overflow, and is a number. *)
Lemma duration_of_Returns count :
  1 <= count < 2 ^ 1000 -> exists d, duration_of count = Returns d /\ is_number d.
Proof.
  intros [Hlo Hhi].
  assert (Hl : Z.log2 count <= 999) by (apply Z.log2_lt_pow2 in Hhi; lia).
  assert (Hc : exists d, computed_duration count = Returns d /\ is_number d).
  { unfold computed_duration.
    destruct (of_int_bounded count ltac:(lia) ltac:(lia)) as (c & -> & Hb).
    cbn [mbind outcome_bind].
    destruct (truediv_frame_rate_bounded (Z.log2 count + 1) c ltac:(lia) Hb)
      as (q & -> & Hq). cbn [mbind outcome_bind].
    apply round_2_bounded.
    destruct q as [| | |s m e]; try done. destruct Hq as [-> Hq]. split; [done | lia]. }
  destruct Hc as (d & Hd & Hnum). exists d. split; [|done].
  by apply computed_duration_positive.
Qed.

Lemma build_loop_Returns codes pairs offset words :
  Forall (fun c => 1 <= c < 2 ^ 1000) pairs.*2 ->
  exists result, build_loop codes pairs offset words = Returns result.
Proof.
  revert offset words. induction pairs as [|[token count] pairs IH];
    intros offset words Hc; csimpl in *; [by eexists|].
  apply Forall_cons in Hc as [Hc Hcs].
  destruct (duration_of_Returns count Hc) as (d & -> & _). simpl. by apply IH.
Qed.

Lemma counts_below_sum l :
  Forall (fun c => 1 <= c) l -> Forall (fun c => 1 <= c <= sum l) l.
Proof.
  induction 1 as [|c l Hc Hl IH]; [constructor|].
  pose proof (sum_ge_length _ Hl). simpl. fold (sum l).
  constructor; [lia|]. eapply Forall_impl; [exact IH|]. simpl. lia.
Qed.

Lemma builder_weights_positive (transcript_tokens : list string) :
  Forall (fun w => 1 <= w)
    (map (fun token => Z.max 1 (Z.of_nat (String.length token))) transcript_tokens).
Proof. apply List.Forall_map, Forall_forall. intros t _. cbv beta. lia. Qed.

(** The builder, for a token list that is not empty and no longer than a
    code list shorter than [2 ** 1000]. *)
Lemma build_words_Returns codes transcript_tokens :
  Z.of_nat (length codes) < 2 ^ 1000 ->
  transcript_tokens <> [] ->
  (length transcript_tokens <= length codes)%nat ->
  exists words, _build_words_from_codes codes transcript_tokens = Returns words /\
                rec_word <$> words = transcript_tokens /\
                concat (rec_codes <$> words) = codes.
Proof.
  intros Hbound Hne Hlen. unfold _build_words_from_codes.
  pose proof (builder_weights_positive transcript_tokens) as Hw.
  set (weights := map _ transcript_tokens) in *.
  assert (Hwl : length weights = length transcript_tokens) by apply length_map.
  destruct (distribute_codes_total (Z.of_nat (length codes)) weights) as [Hret _];
    [destruct transcript_tokens; simpl in *; [done | lia]
    |by destruct transcript_tokens | done |].
  destruct Hret as [counts0 Hd]; [lia|]. rewrite Hd. simpl.
  apply distribute_codes_counts in Hd as (Hsum & Hpos & Hcl).
  assert (Hsnd : (zip transcript_tokens counts0).*2 = counts0)
    by (apply snd_zip; lia).
  assert (Hfst : (zip transcript_tokens counts0).*1 = transcript_tokens)
    by (apply fst_zip; lia).
  destruct (build_loop_Returns codes (zip transcript_tokens counts0) 0 []) as [words Hb].
  { rewrite Hsnd. eapply Forall_impl; [by apply counts_below_sum|]. simpl. lia. }
  exists words. split; [done|]. split.
  - apply build_loop_records in Hb as (new & -> & Hnew); rewrite ?Hsnd; [|lia|done|lia].
    simpl. rewrite <- Hfst. revert Hnew.
    generalize (zip transcript_tokens counts0). intros pairs Hnew.
    induction Hnew as [|w p ws ps (Hword & _) _ IH]; [done|].
    csimpl. by rewrite Hword, IH.
  - apply build_loop_codes in Hb as [-> _]; rewrite ?Hsnd; [|lia|done|lia].
    simpl. by rewrite Hsum, Nat2Z.id, drop_0, firstn_all.
Qed.

(** More tokens than codes: the positivity check of the engine fails. *)
Lemma build_words_infeasible codes transcript_tokens :
  Z.of_nat (length codes) < 2 ^ 1000 -> codes <> [] ->
  (length codes < length transcript_tokens)%nat ->
  _build_words_from_codes codes transcript_tokens =
    Raises (ValueError "Code distribution resulted in non-positive segment length.").
Proof.
  intros Hbound Hc Hlen. unfold _build_words_from_codes.
  pose proof (builder_weights_positive transcript_tokens) as Hw.
  set (weights := map _ transcript_tokens) in *.
  assert (Hwl : length weights = length transcript_tokens) by apply length_map.
  destruct (distribute_codes_total (Z.of_nat (length codes)) weights) as [_ Hraise];
    [destruct codes; simpl in *; [done | lia]
    |destruct transcript_tokens; simpl in *; [lia | done] | done |].
  rewrite Hraise by lia. done.
Qed.

(** Every duration the builder stores is a number. *)
Lemma build_words_durations codes transcript_tokens words :
  Z.of_nat (length codes) < 2 ^ 1000 ->
  _build_words_from_codes codes transcript_tokens = Returns words ->
  Forall (fun w => is_number (rec_duration w)) words.
Proof.
  intros Hbound. unfold _build_words_from_codes.
  intros (counts0 & Hd & Hb)%bind_Returns.
  apply distribute_codes_counts in Hd as (Hsum & Hpos & Hlen).
  rewrite length_map in Hlen.
  assert (Hsnd : (zip transcript_tokens counts0).*2 = counts0)
    by (apply snd_zip; lia).
  apply build_loop_records in Hb as (new & -> & Hnew); rewrite ?Hsnd; [|lia|done|lia].
  simpl.
  assert (Hall : Forall (fun p : string * Z => 1 <= p.2 < 2 ^ 1000)
                        (zip transcript_tokens counts0)).
  { apply Forall_forall. intros [t c] Hin%elem_of_zip_r.
    pose proof (counts_below_sum _ Hpos) as Hb. rewrite Forall_forall in Hb.
    specialize (Hb c Hin). simpl. lia. }
  clear Hsnd. induction Hnew as [|w p ws ps (_ & Hdur & _) _ IH]; [constructor|].
  apply Forall_cons in Hall as [Hp Hall]. constructor; [|by apply IH].
  destruct (duration_of_Returns p.2 Hp) as (d & Hd & Hnum). congruence.
Qed.

(** X9 (when the builder returns).  For a code list shorter than
    [2 ** 1000], the outcome of [_build_words_from_codes] is decided by the
    two lengths alone.  No codes: the [ValueError] "Speaker checkpoint did
    not contain any codes."  Codes but no token: "Transcript token list is
    empty."  More tokens than codes: the [ValueError] of the positivity
    check.  Otherwise the call returns, and the [word] fields of the records
    are the tokens, in order.  The float arithmetic of shares and durations
    never overflows. *)
Theorem build_words_outcome (codes : list Z) (transcript_tokens : list string) :
  Z.of_nat (length codes) < 2 ^ 1000 ->
  (codes = [] ->
   _build_words_from_codes codes transcript_tokens =
     Raises (ValueError "Speaker checkpoint did not contain any codes.")) /\
  (codes <> [] -> transcript_tokens = [] ->
   _build_words_from_codes codes transcript_tokens =
     Raises (ValueError "Transcript token list is empty.")) /\
  (codes <> [] -> (length codes < length transcript_tokens)%nat ->
   _build_words_from_codes codes transcript_tokens =
     Raises (ValueError "Code distribution resulted in non-positive segment length.")) /\
  (transcript_tokens <> [] -> (length transcript_tokens <= length codes)%nat ->
   exists words, _build_words_from_codes codes transcript_tokens = Returns words /\
                 rec_word <$> words = transcript_tokens).
Proof.
  intros Hbound. split_and!.
  - by intros ->.
  - intros Hc ->. unfold _build_words_from_codes. simpl.
    by destruct codes.
  - by apply build_words_infeasible.
  - intros Hne Hlen.
    destruct (build_words_Returns codes transcript_tokens Hbound Hne Hlen)
      as (words & Hb & Hword & _).
    by exists words.
Qed.

Lemma build_words_outcome_witness :
  exists words,
    _build_words_from_codes [11; 12; 13; 14; 15; 16; 17] ["hello"; "to"; "you"]%string
      = Returns words /\
    rec_word <$> words = ["hello"; "to"; "you"]%string.
Proof.
  apply (build_words_outcome [11; 12; 13; 14; 15; 16; 17] ["hello"; "to"; "you"]%string).
  - simpl. lia.
  - discriminate.
  - simpl. lia.
Defined.

(** ** Serialisation *)

Lemma elements_nested_ind (P : elements -> Prop) :
  (forall x, P (TItem x)) ->
  (forall rows, Forall P rows -> P (TArray rows)) ->
  forall e, P e.
Proof.
  intros Hitem Harr. fix IH 1. intros [x|rows]; [apply Hitem|].
  apply Harr. induction rows as [|r rows IHrows]; constructor; [apply IH | apply IHrows].
Qed.

Lemma PyValue_nested_ind (P : PyValue -> Prop) :
  P VNone -> (forall b, P (VBool b)) -> (forall n, P (VInt n)) ->
  (forall x, P (VFloat x)) -> (forall s, P (VStr s)) ->
  (forall items, Forall P items -> P (VList items)) ->
  (forall items, Forall P items -> P (VTuple items)) ->
  (forall entries, Forall (fun kv => P kv.1 /\ P kv.2) entries -> P (VDict entries)) ->
  (forall t, P (VTensor t)) ->
  (forall name held, Forall P held -> P (VOther name held)) ->
  forall v, P v.
Proof.
  intros HNone HBool HInt HFloat HStr HList HTuple HDict HTensor HOther. fix IH 1.
  intros [ |b|n|x|s|items|items|entries|t|name held];
    [apply HNone | apply HBool | apply HInt | apply HFloat | apply HStr
    | | | | apply HTensor | ].
  - apply HList. induction items as [|i items IHitems]; constructor; [apply IH | apply IHitems].
  - apply HTuple. induction items as [|i items IHitems]; constructor; [apply IH | apply IHitems].
  - apply HDict. induction entries as [|[k i] entries IHentries]; constructor;
      [split; apply IH | apply IHentries].
  - apply HOther. induction held as [|i held IHheld]; constructor; [apply IH | apply IHheld].
Qed.

Lemma forallb_fmap_eq {A B : Type} (f : A -> B) (p : B -> bool) (q : A -> bool) l :
  Forall (fun x => p (f x) = q x) l -> forallb p (f <$> l) = forallb q l.
Proof. induction 1 as [|x l Hx _ IH]; csimpl; [done|]. by rewrite Hx, IH. Qed.

Lemma forallb_fmap_true {A B : Type} (f : A -> B) (p : B -> bool) l :
  Forall (fun x => p (f x) = true) l -> forallb p (f <$> l) = true.
Proof. induction 1 as [|x l Hx _ IH]; csimpl; [done|]. by rewrite Hx, IH. Qed.

Lemma forallb_concat_fmap {A B : Type} (f : A -> list B) (p : B -> bool) (q : A -> bool) l :
  Forall (fun x => q x = forallb p (f x)) l ->
  forallb q l = forallb p (concat (f <$> l)).
Proof.
  induction 1 as [|x l Hx _ IH]; csimpl; [done|]. by rewrite forallb_app, Hx, IH.
Qed.

Lemma nested_list_json_shaped e :
  json_shaped (nested_list e) = forallb real_scalar (row_major e).
Proof.
  induction e as [[]|rows IH] using elements_nested_ind; simpl; try done.
  rewrite <- (forallb_concat_fmap row_major real_scalar
                (fun r => json_shaped (nested_list r))) by done.
  by apply forallb_fmap_eq, Forall_forall.
Qed.

Lemma nested_list_floats_finite e :
  floats_finite (nested_list e) = forallb scalar_finite (row_major e).
Proof.
  induction e as [x|rows IH] using elements_nested_ind; simpl.
  - destruct x; simpl; by rewrite ?andb_true_r.
  - rewrite <- (forallb_concat_fmap row_major scalar_finite
                  (fun r => floats_finite (nested_list r))) by done.
    by apply forallb_fmap_eq, Forall_forall.
Qed.

Lemma nested_list_nothing_to_convert e :
  nothing_to_convert (nested_list e) = forallb real_finite (row_major e).
Proof.
  induction e as [x|rows IH] using elements_nested_ind; simpl.
  - destruct x; simpl; by rewrite ?andb_true_r.
  - rewrite <- (forallb_concat_fmap row_major real_finite
                  (fun r => nothing_to_convert (nested_list r))) by done.
    by apply forallb_fmap_eq, Forall_forall.
Qed.

Lemma to_serializable_shape v : json_shaped (_to_serializable v) = serialisable v.
Proof.
  induction v as [ | | |x| |items IH|items IH|entries IH|t|name held _]
    using PyValue_nested_ind; simpl; try done.
  - by destruct (isnan_or_isinf x).
  - by apply forallb_fmap_eq.
  - by apply forallb_fmap_eq.
  - apply forallb_fmap_eq. eapply Forall_impl; [exact IH|].
    intros [k w] [_ Hw]. simpl in *. by rewrite Hw.
  - destruct t as [[x|rows] viewable]; unfold tolist, flatten; simpl.
    + by destruct x.
    + apply (nested_list_json_shaped (TArray rows)).
Qed.

(** X10 (shape of a serialised value).  [_to_serializable] converts what
    it reaches through lists, tuples and dict values: tensors become
    numbers or nested lists, tuples become lists.  It returns dict keys and
    every object of another type as they are.  So its result is made of
    [None], booleans, numbers, strings, lists and dicts with such keys only
    (no tensor, no tuple, no foreign object) exactly when the input holds,
    where the recursion reaches, no object of another type, no dict key
    other than [None], a [bool], a number or a [str], and no complex tensor
    element.  A dict comes back as a dict with the same keys in the same
    order; a set holding a tuple and a tuple used as a dict key are still in
    the result. *)
Theorem to_serializable_json_shaped (v : PyValue) :
  json_shaped (_to_serializable v) = serialisable v /\
  (forall entries, v = VDict entries ->
   exists entries', _to_serializable v = VDict entries' /\ entries'.*1 = entries.*1) /\
  _to_serializable (VOther "set" [VTuple [VInt 1; VInt 2]]) =
    VOther "set" [VTuple [VInt 1; VInt 2]] /\
  _to_serializable
    (VDict [(str_key "a", VOther "set" [VTuple [VInt 1; VInt 2]]);
            (VTuple [VInt 3; VInt 4],
             VTensor {| contents := TItem (SInt 1); flat_viewable := true |})]) =
    VDict [(str_key "a", VOther "set" [VTuple [VInt 1; VInt 2]]);
           (VTuple [VInt 3; VInt 4], VInt 1)].
Proof.
  split_and!; [apply to_serializable_shape | | done | done].
  intros entries ->. simpl.
  eexists. split; [done|]. rewrite <- list_fmap_compose. done.
Qed.

Lemma to_serializable_floats v :
  floats_finite (_to_serializable v) = unreached_floats_finite v.
Proof.
  induction v as [ | | |x| |items IH|items IH|entries IH|t|name held _]
    using PyValue_nested_ind; simpl; try done.
  - by destruct (isnan_or_isinf x) eqn:Hx; simpl; [|rewrite Hx].
  - by apply forallb_fmap_eq.
  - by apply forallb_fmap_eq.
  - apply forallb_fmap_eq. eapply Forall_impl; [exact IH|].
    intros [k w] [_ Hw]. simpl in *. by rewrite Hw.
  - destruct t as [[x|rows] viewable]; unfold tolist, flatten; simpl.
    + destruct x; simpl; try done; by rewrite !andb_true_r.
    + apply (nested_list_floats_finite (TArray rows)).
Qed.

(** X11 (what the NaN scrubbing reaches).  [_to_serializable] replaces a
    NaN or an infinity by [0.0] only where it is a Python [float] reached
    through lists, tuples and dict values.  The result is free of NaN and
    infinity exactly when the floats it does not look at are numbers: those
    held by tensors, by dict keys and by objects of other types.  A NaN in a
    tensor goes through [item()] or [tolist()] unchanged, and a NaN in a
    set or used as a dict key is returned with the object. *)
Theorem to_serializable_scrubs_plain_floats_only (v : PyValue) :
  floats_finite (_to_serializable v) = unreached_floats_finite v /\
  _to_serializable (VFloat S754_nan) = VFloat PyFloat.zero /\
  _to_serializable
    (VTensor {| contents := TItem (SFloat S754_nan); flat_viewable := true |}) =
    VFloat S754_nan /\
  _to_serializable
    (VTensor {| contents := TArray [TItem (SFloat (S754_infinity false))];
                flat_viewable := true |}) =
    VList [VFloat (S754_infinity false)] /\
  _to_serializable (VOther "set" [VFloat S754_nan]) = VOther "set" [VFloat S754_nan] /\
  _to_serializable (VDict [(VFloat S754_nan, VFloat S754_nan)]) =
    VDict [(VFloat S754_nan, VFloat PyFloat.zero)].
Proof. split_and!; [apply to_serializable_floats | done..]. Qed.

Lemma to_serializable_fixes v :
  nothing_to_convert v = true -> _to_serializable v = v.
Proof.
  induction v as [ | | |x| |items IH|items IH|entries IH|t|name held _]
    using PyValue_nested_ind; simpl; try done.
  - by intros ->%negb_true_iff.
  - intros Hs. f_equal.
    induction IH as [|i items Hi _ IHitems]; csimpl; [done|].
    apply andb_true_iff in Hs as [Hs1 Hs2]. by rewrite Hi, IHitems.
  - intros Hs. f_equal.
    induction IH as [|[k i] entries [_ Hi] _ IHentries]; csimpl; [done|].
    apply andb_true_iff in Hs as [Hs1 Hs2]. simpl in *. by rewrite Hi, IHentries.
Qed.

Lemma to_serializable_fixed v :
  _to_serializable v = v -> nothing_to_convert v = true.
Proof.
  induction v as [ | | |x| |items IH|items IH|entries IH|t|name held _]
    using PyValue_nested_ind; simpl; try done.
  - destruct (isnan_or_isinf x) eqn:Hx; [|done]. intros [= <-]. done.
  - intros [= Heq].
    induction IH as [|i items Hi _ IHitems]; csimpl in *; [done|].
    injection Heq as H1 H2. by rewrite Hi, IHitems.
  - intros [= Heq].
    induction IH as [|[k i] entries [_ Hi] _ IHentries]; csimpl in *; [done|].
    injection Heq as H1 H2. by rewrite Hi, IHentries.
  - destruct t as [[x|rows] viewable]; unfold tolist; simpl; [by destruct x | done].
Qed.

Lemma to_serializable_left_to_convert v :
  nothing_to_convert (_to_serializable v) = converted_tensors_finite v.
Proof.
  induction v as [ | | |x| |items IH|items IH|entries IH|t|name held _]
    using PyValue_nested_ind; simpl; try done.
  - by destruct (isnan_or_isinf x) eqn:Hx; simpl; [|rewrite Hx].
  - by apply forallb_fmap_eq.
  - by apply forallb_fmap_eq.
  - apply forallb_fmap_eq. eapply Forall_impl; [exact IH|].
    by intros [k w] [_ Hw].
  - destruct t as [[x|rows] viewable]; unfold tolist, flatten; simpl.
    + destruct x; simpl; try done; by rewrite !andb_true_r.
    + apply (nested_list_nothing_to_convert (TArray rows)).
Qed.

(** X12 (fixed points).  [_to_serializable] returns a value unchanged
    exactly when, through lists and dict values, it meets no tensor, no
    tuple and no NaN or infinite [float]; dict keys and objects of other
    types never change.  Serialising twice is the same as serialising once
    exactly when the tensors that get converted hold no NaN and no infinite
    [float] element. *)
Theorem to_serializable_fixed_points (v : PyValue) :
  (_to_serializable v = v <-> nothing_to_convert v = true) /\
  (_to_serializable (_to_serializable v) = _to_serializable v <->
   converted_tensors_finite v = true).
Proof.
  assert (Hfix : forall w, _to_serializable w = w <-> nothing_to_convert w = true).
  { intros w. split; [apply to_serializable_fixed | apply to_serializable_fixes]. }
  split; [apply Hfix|]. by rewrite Hfix, to_serializable_left_to_convert.
Qed.

(** ** Flattening a tensor of codes *)

Lemma row_major_length e : length (row_major e) = count_elements e.
Proof.
  induction e as [x|rows IH] using elements_nested_ind; simpl; [done|].
  induction IH as [|r rows Hr _ IHrows]; csimpl; [done|].
  rewrite length_app. congruence.
Qed.

Lemma flatten_length t : length (flatten t) = numel t.
Proof. apply row_major_length. Qed.

Lemma map_outcome_Raises {A B : Type} (f : A -> outcome B) xs e :
  map_outcome f xs = Raises e -> exists x, x ∈ xs /\ f x = Raises e.
Proof.
  induction xs as [|x xs IH]; simpl; [done|].
  destruct (f x) as [y|e'|] eqn:Hx; simpl; [| |done].
  - destruct (map_outcome f xs) as [ys|e'|]; simpl; try done.
    intros [= <-]. destruct IH as (x' & Hin & Hx'); [done|].
    exists x'. split; [by right | done].
  - intros [= <-]. exists x. split; [by left | done].
Qed.

Lemma py_int_not_OutOfFuel x : py_int x <> OutOfFuel.
Proof. by destruct x as [| |[]|]. Qed.

Lemma py_int_Raises x e :
  py_int x = Raises e ->
  int_convertible x = false /\
  (e = ValueError "cannot convert float NaN to integer" \/
   e = OverflowError "cannot convert float infinity to integer" \/
   exists msg, e = TypeError msg).
Proof. destruct x as [b|n|[]|]; simpl; try done; intros [= <-]; eauto. Qed.

Lemma flatten_codes_tensor codes : _flatten_codes (codes_tensor codes) = Returns codes.
Proof.
  unfold _flatten_codes, view_flat_tolist, codes_tensor, flatten. simpl.
  induction codes as [|c codes IH]; csimpl in *; [done|]. by rewrite IH.
Qed.

Lemma numel_codes_tensor codes : numel (codes_tensor codes) = length codes.
Proof.
  rewrite <- flatten_length. unfold flatten, codes_tensor. simpl.
  induction codes as [|c codes IH]; csimpl; [done|]. by rewrite IH.
Qed.

Lemma forallb_Forall {A : Type} (p : A -> bool) l :
  forallb p l = true <-> Forall (fun x => p x = true) l.
Proof.
  induction l as [|x l IH]; simpl; [by split; [constructor|]|].
  rewrite andb_true_iff, Forall_cons, IH. done.
Qed.

Lemma flatten_codes_cases raw_codes :
  match _flatten_codes raw_codes with
  | Returns codes =>
      flat_viewable raw_codes = true /\
      forallb int_convertible (flatten raw_codes) = true /\
      length codes = numel raw_codes
  | Raises e =>
      (flat_viewable raw_codes = false /\ exists msg, e = RuntimeError msg) \/
      (flat_viewable raw_codes = true /\
       forallb int_convertible (flatten raw_codes) = false /\
       (e = ValueError "cannot convert float NaN to integer" \/
        e = OverflowError "cannot convert float infinity to integer" \/
        exists msg, e = TypeError msg))
  | OutOfFuel => False
  end.
Proof.
  unfold _flatten_codes, view_flat_tolist.
  destruct (flat_viewable raw_codes); [|left; eauto]. simpl.
  destruct (map_outcome py_int (flatten raw_codes)) as [codes|e|] eqn:Hm.
  - split_and!; [done | |].
    + apply map_outcome_Forall2 in Hm. apply forallb_Forall.
      induction Hm as [|x c xs cs Hx _ IH]; constructor; [|done].
      by destruct x as [| |[]|].
    + by rewrite <- flatten_length, (map_outcome_length _ _ _ Hm).
  - apply map_outcome_Raises in Hm as (x & Hin & Hx).
    apply py_int_Raises in Hx as [Hx He]. right. split_and!; [done | | done].
    apply not_true_iff_false. intros Hall%forallb_Forall.
    rewrite Forall_forall in Hall. by rewrite (Hall x Hin) in Hx.
  - by apply map_outcome_not_OutOfFuel in Hm; [|apply py_int_not_OutOfFuel].
Qed.

(** X13 (flattening).  [_flatten_codes] on a tensor returns exactly when
    the strides of the tensor allow [view(-1)] and [int()] converts every
    element, that is when no element is a NaN, an infinity or a complex
    number; it then returns one integer per element.  When the view is
    refused it raises torch's [RuntimeError], whatever the elements are;
    otherwise it raises the [ValueError] of [int(nan)], the [OverflowError]
    of [int(inf)] or the [TypeError] of [int()] on a complex.  A contiguous
    tensor of integer codes is returned as the list of those codes; the
    transpose of a 2 by 2 matrix of integers is refused. *)
Theorem flatten_codes_outcome (raw_codes : tensor) :
  match _flatten_codes raw_codes with
  | Returns codes =>
      flat_viewable raw_codes = true /\
      forallb int_convertible (flatten raw_codes) = true /\
      length codes = numel raw_codes
  | Raises e =>
      (flat_viewable raw_codes = false /\ exists msg, e = RuntimeError msg) \/
      (flat_viewable raw_codes = true /\
       forallb int_convertible (flatten raw_codes) = false /\
       (e = ValueError "cannot convert float NaN to integer" \/
        e = OverflowError "cannot convert float infinity to integer" \/
        exists msg, e = TypeError msg))
  | OutOfFuel => False
  end /\
  (forall codes, _flatten_codes (codes_tensor codes) = Returns codes) /\
  (exists msg, _flatten_codes example_transposed_tensor = Raises (RuntimeError msg)).
Proof.
  split_and!; [apply flatten_codes_cases | apply flatten_codes_tensor | by eexists].
Qed.

(** ** Loading and normalising a checkpoint *)

Lemma load_checkpoint_Returns torch_tensor_int32 checkpoint lc :
  _load_checkpoint torch_tensor_int32 checkpoint = Returns lc ->
  (kind lc = "structured"%string /\
   exists entries, payload lc = VDict entries /\ checkpoint = VDict entries /\
                   dict_has_key (str_of "words") entries = true) \/
  (kind lc = "codes"%string /\
   exists t, payload lc = VTensor t /\ (1 <= numel t)%nat).
Proof.
  unfold _load_checkpoint.
  destruct checkpoint as [ | | | | |items|items|entries|t|name held]; try done.
  - intros (t & _ & H)%bind_Returns. destruct (Nat.eqb_spec (numel t) 0); [done|].
    injection H as <-. right. split; [done|]. exists t. split; [done | lia].
  - intros (t & _ & H)%bind_Returns. destruct (Nat.eqb_spec (numel t) 0); [done|].
    injection H as <-. right. split; [done|]. exists t. split; [done | lia].
  - destruct (dict_has_key _ entries) eqn:Hk; [|done]. intros [= <-].
    left. split; [done|]. by exists entries.
  - destruct (Nat.eqb_spec (numel t) 0); [done|].
    intros [= <-]. right. split; [done|]. exists t. split; [done | lia].
Qed.

Lemma dict_get_has_key key entries :
  dict_has_key key entries = true <-> exists v, dict_get key entries = Some v.
Proof.
  unfold dict_has_key.
  induction entries as [|[k v] entries IH]; simpl.
  - split; [done | by intros [? ?]].
  - destruct (is_str_key key k); simpl; [|done].
    split; [by eexists | done].
Qed.

Lemma dict_get_lacks_key key entries :
  dict_has_key key entries = false <-> dict_get key entries = None.
Proof.
  rewrite <- not_true_iff_false, dict_get_has_key.
  destruct (dict_get key entries).
  - split; [by intros []; eexists | done].
  - split; [done | by intros _ [? ?]].
Qed.

(** X14 (structured checkpoints).  A checkpoint the loader returned as
    "structured" is a dict that [_normalise_checkpoint] turns into a result
    without a [KeyError].  The keys of the result are "version" and "words",
    then "speaker_id" and "metadata" where the checkpoint has them, in this
    order, whatever other keys the checkpoint holds; "words", "speaker_id"
    and "metadata" hold what [_to_serializable] returns for the values of
    the checkpoint. *)
Theorem structured_checkpoint_normalises
    (torch_tensor_int32 : PyValue -> outcome tensor) (py_str : PyValue -> pystr)
    (checkpoint : PyValue) (lc : LoadedCheckpoint) :
  _load_checkpoint torch_tensor_int32 checkpoint = Returns lc ->
  kind lc = "structured"%string ->
  exists entries result,
    payload lc = VDict entries /\
    _normalise_checkpoint py_str entries = Returns result /\
    result.*1 = VStr <$> (str_of "version" :: str_of "words" ::
                          filter (fun key => dict_has_key key entries = true)
                                 [str_of "speaker_id"; str_of "metadata"]) /\
    (forall key v,
       key ∈ [str_of "words"; str_of "speaker_id"; str_of "metadata"] ->
       dict_get key entries = Some v ->
       dict_get key result = Some (_to_serializable v)).
Proof.
  intros [(_ & entries & Hp & _ & Hwords)|[Hk _]]%load_checkpoint_Returns Hkind;
    [|congruence].
  apply dict_get_has_key in Hwords as [words Hwords].
  exists entries.
  unfold _normalise_checkpoint, dict_index. rewrite Hwords. cbv zeta.
  set (version := py_str _).
  destruct (dict_has_key (str_of "speaker_id") entries) eqn:Hs;
    destruct (dict_has_key (str_of "metadata") entries) eqn:Hm.
  - apply dict_get_has_key in Hs as [s Hs]. apply dict_get_has_key in Hm as [m Hm].
    simpl. rewrite Hs. simpl. rewrite Hm. simpl.
    eexists. split_and!; [done | done | |].
    + rewrite !filter_cons_True by (by apply dict_get_has_key; eexists). done.
    + intros key v Hin Hv. repeat (apply elem_of_cons in Hin as [->|Hin]);
        [| | |by apply elem_of_nil in Hin];
        rewrite ?Hwords, ?Hs, ?Hm in Hv; by injection Hv as <-.
  - apply dict_get_has_key in Hs as [s Hs]. pose proof Hm as Hm'.
    apply dict_get_lacks_key in Hm'.
    simpl. rewrite Hs. simpl.
    eexists. split_and!; [done | done | |].
    + rewrite filter_cons_True by (by apply dict_get_has_key; eexists).
      rewrite filter_cons_False by (by rewrite Hm). done.
    + intros key v Hin Hv. repeat (apply elem_of_cons in Hin as [->|Hin]);
        [| | |by apply elem_of_nil in Hin];
        rewrite ?Hwords, ?Hs, ?Hm' in Hv; try done; by injection Hv as <-.
  - apply dict_get_has_key in Hm as [m Hm]. pose proof Hs as Hs'.
    apply dict_get_lacks_key in Hs'.
    simpl. rewrite Hm. simpl.
    eexists. split_and!; [done | done | |].
    + rewrite filter_cons_False by (by rewrite Hs).
      rewrite filter_cons_True by (by apply dict_get_has_key; eexists). done.
    + intros key v Hin Hv. repeat (apply elem_of_cons in Hin as [->|Hin]);
        [| | |by apply elem_of_nil in Hin];
        rewrite ?Hwords, ?Hs', ?Hm in Hv; try done; by injection Hv as <-.
  - pose proof Hs as Hs'. pose proof Hm as Hm'.
    apply dict_get_lacks_key in Hs'. apply dict_get_lacks_key in Hm'.
    simpl.
    eexists. split_and!; [done | done | |].
    + rewrite !filter_cons_False by (by rewrite ?Hs, ?Hm). done.
    + intros key v Hin Hv. repeat (apply elem_of_cons in Hin as [->|Hin]);
        [| | |by apply elem_of_nil in Hin];
        rewrite ?Hwords, ?Hs', ?Hm' in Hv; try done; by injection Hv as <-.
Qed.

Lemma structured_checkpoint_normalises_witness :
  exists entries result,
    example_structured_checkpoint = VDict entries /\
    _normalise_checkpoint str_of_value entries = Returns result /\
    result.*1 = VStr <$> (str_of "version" :: str_of "words" ::
                          filter (fun key => dict_has_key key entries = true)
                                 [str_of "speaker_id"; str_of "metadata"]) /\
    (forall key v,
       key ∈ [str_of "words"; str_of "speaker_id"; str_of "metadata"] ->
       dict_get key entries = Some v ->
       dict_get key result = Some (_to_serializable v)).
Proof.
  apply (structured_checkpoint_normalises tensor_of_ints str_of_value
           example_structured_checkpoint
           {| kind := "structured"; payload := example_structured_checkpoint |}).
  - reflexivity.
  - reflexivity.
Defined.

(** ** The raw-codes branch of [convert] *)





Lemma replace_char_removes old new s : old <> new -> old ∉ replace_char old new s.
Proof.
  intros Hne (c & Hc & _)%list_elem_of_fmap.
  destruct (N.eqb_spec c old); congruence.
Qed.

(** X16 (the payload of a raw conversion).  Whenever the raw-codes branch
    of [convert] returns a payload for a tensor of fewer than [2 ** 1000]
    elements, a transcript was given; the payload is a dict with the keys
    "version", "words", "metadata" and "speaker_id", in this order; the
    speaker id is the argument when there is one and the stem of the
    transcript path otherwise; the excerpt kept in the metadata has at most
    256 characters and no newline; and the payload holds no tensor, no
    tuple, no NaN and no infinity: every duration is a number. *)
Theorem raw_payload_is_clean (U : UnicodeOps) (t : tensor) (pt_name : pystr)
    (transcript : option TranscriptFile) (speaker_id : option pystr)
    (version : pystr) (p : PyValue) :
  Z.of_nat (numel t) < 2 ^ 1000 ->
  convert_raw U t pt_name transcript speaker_id version = Returns p ->
  exists file entries meta excerpt,
    transcript = Some file /\
    p = VDict entries /\
    entries.*1 = VStr <$> [str_of "version"; str_of "words"; str_of "metadata";
                           str_of "speaker_id"] /\
    dict_get (str_of "speaker_id") entries =
      Some (VStr (default (file_stem file) speaker_id)) /\
    dict_get (str_of "metadata") entries = Some (VDict meta) /\
    dict_get (str_of "transcript_excerpt") meta = Some (VStr excerpt) /\
    (length excerpt <= 256)%nat /\ (10%N ∉ excerpt) /\
    json_shaped p = true /\ floats_finite p = true.
Proof.
  intros Hbound. unfold convert_raw.
  destruct transcript as [file|]; [|done].
  intros ([text words] & Hw & [= <-])%bind_Returns. cbn [fst snd].
  unfold convert_raw_words in Hw.
  apply bind_Returns in Hw as (loaded & _ & Hw).
  apply bind_Returns in Hw as (codes & Hcodes & Hw).
  apply bind_Returns in Hw as (words' & Hbuild & [= _ <-]).
  pose proof (flatten_codes_cases t) as Hfl. rewrite Hcodes in Hfl.
  destruct Hfl as (_ & _ & Hlen).
  apply build_words_durations in Hbuild; [|lia].
  eexists file, _, _, _. split_and!; [done | done | done | | done | done | | | |].
  - by destruct speaker_id.
  - unfold replace_char. rewrite length_fmap, length_take. lia.
  - by apply replace_char_removes.
  - simpl. rewrite !andb_true_r. apply forallb_fmap_true, Forall_forall.
    intros w _. simpl. rewrite !andb_true_r. apply forallb_fmap_true, Forall_forall. done.
  - simpl. rewrite !andb_true_r. apply forallb_fmap_true.
    eapply Forall_impl; [exact Hbuild|]. intros w Hnum. simpl in *.
    rewrite !andb_true_r. apply andb_true_iff. split.
    + by destruct (rec_duration w).
    + apply forallb_fmap_true, Forall_forall. done.
Qed.

Lemma raw_payload_is_clean_witness :
  exists file entries meta excerpt,
    Some example_transcript = Some file /\
    example_raw_payload = VDict entries /\
    entries.*1 = VStr <$> [str_of "version"; str_of "words"; str_of "metadata";
                           str_of "speaker_id"] /\
    dict_get (str_of "speaker_id") entries =
      Some (VStr (default (file_stem file) None)) /\
    dict_get (str_of "metadata") entries = Some (VDict meta) /\
    dict_get (str_of "transcript_excerpt") meta = Some (VStr excerpt) /\
    (length excerpt <= 256)%nat /\ (10%N ∉ excerpt) /\
    json_shaped example_raw_payload = true /\ floats_finite example_raw_payload = true.
Proof.
  apply (raw_payload_is_clean ascii_only_ops (codes_tensor [11; 12; 13; 14; 15; 16; 17])
           (str_of "dave.pt") (Some example_transcript) None (str_of "0.2")
           example_raw_payload).
  - rewrite numel_codes_tensor. simpl. lia.
  - vm_compute. reflexivity.
Defined.
